(** * Graph engine, binary heap and priority queue of structured-dsa-python

    Shallow embedding of
    - [src/dijkstra-heap-optimization/heap_priority_queue.py]
      (module [HeapPriorityQueue]),
    - [src/dijkstra-heap-optimization/graph_heap_pq.py]
      (modules [GraphHeapPQ] and [WGraph]),
    - [src/graph-search-algorithms/labyrinth_graph.py] (module [LGraph]).

    Python lists are [list], dictionaries are [gmap], the one Python [set]
    (the relations of an undirected weighted graph) is a [gset].  Methods that
    mutate [self] take the object and return the new object; a method that can
    raise returns an [outcome] next to the object it leaves behind. *)

From stdpp Require Import gmap list sorting.
From Stdlib Require Import ZArith Lia.

Open Scope Z_scope.
Open Scope nat_scope.

(** ** Exceptions and results *)

(** The exceptions the modelled code raises.  [EmptyHeap], [ElementNotFound]
    and [Underflow] are the three [raise Exception(...)] statements of the
    heap and the queue; [KeyError], [IndexError] and [TypeError] are raised by
    the interpreter on a missing dictionary key, a list index out of range
    and a list index that is not an integer. *)
Inductive exn : Type :=
  | EmptyHeap         (* Exception("The heap is empty.") *)
  | ElementNotFound   (* Exception("The element is not in the heap.") *)
  | Underflow         (* Exception("Underflow") *)
  | KeyError
  | IndexError
  | TypeError.

(** Result of a call: a value, a raised exception, or [OutOfFuel] when the
    iteration budget given to a [while] loop of the model is used up. *)
Inductive outcome (A : Type) : Type :=
  | Ret (a : A)
  | Raise (e : exn)
  | OutOfFuel.
Arguments Ret {A} a.
Arguments Raise {A} e.
Arguments OutOfFuel {A}.

#[export] Instance outcome_bind : MBind outcome := λ A B k m,
  match m with
  | Ret a => k a
  | Raise e => Raise e
  | OutOfFuel => OutOfFuel
  end.
#[export] Instance outcome_ret : MRet outcome := λ A a, Ret a.

(** [d[k]] on a dictionary. *)
Definition getitem `{Countable K} {A} (d : gmap K A) (k : K) : outcome A :=
  match d !! k with
  | Some a => Ret a
  | None => Raise KeyError
  end.
Arguments getitem : simpl never.

(** A [for] loop whose body may raise. *)
Fixpoint for_each {A S} (body : S → A → outcome S) (l : list A) (s : S)
    : outcome S :=
  match l with
  | [] => Ret s
  | x :: l' => s' ← body s x; for_each body l' s'
  end.

(** ** Python comparison protocol *)

(** [py_lt] is [<] ( [__lt__] ); [py_eq] is the test [in], [list.index] and
    [list.remove] make of a stored element and the value looked for: the
    same object, or [==]. *)
Class PyOrd (A : Type) := {
  py_lt : A → A → bool;
  py_eq : A → A → bool
}.

(** The laws the sorting claims assume of "mutually comparable" elements:
    [==] is reflexive and [<] is a strict weak order. *)
Class PyOrdLaws (A : Type) `{PyOrd A} := {
  py_eq_refl : ∀ x : A, py_eq x x = true;
  py_lt_asym : ∀ x y : A, py_lt x y = true → py_lt y x = false;
  py_lt_trans : ∀ x y z : A,
    py_lt x y = true → py_lt y z = true → py_lt x z = true;
  py_lt_negtrans : ∀ x y z : A,
    py_lt x y = false → py_lt y z = false → py_lt x z = false
}.

#[export] Instance nat_pyord : PyOrd nat :=
  {| py_lt := Nat.ltb; py_eq := Nat.eqb |}.
#[export] Instance Z_pyord : PyOrd Z :=
  {| py_lt := Z.ltb; py_eq := Z.eqb |}.

(** Numbers as the traversals use them: an integer or [math.inf]. *)
Inductive num : Type :=
  | Fin (z : Z)
  | Inf.

#[export] Instance num_eq_dec : EqDecision num.
Proof. solve_decision. Defined.

Definition num_lt (a b : num) : bool :=
  match a, b with
  | Fin x, Fin y => (x <? y)%Z
  | Fin _, Inf => true
  | Inf, _ => false
  end.
Definition num_eqb (a b : num) : bool :=
  match a, b with
  | Fin x, Fin y => (x =? y)%Z
  | Inf, Inf => true
  | _, _ => false
  end.
(** [a + w] with [w] an integer weight. *)
Definition num_add (a : num) (w : Z) : num :=
  match a with
  | Fin x => Fin (x + w)
  | Inf => Inf
  end.

#[export] Instance num_pyord : PyOrd num :=
  {| py_lt := num_lt; py_eq := num_eqb |}.

(** Tuples compare lexicographically: the first components that are not [==]
    decide. *)
#[export] Instance pair_pyord `{PyOrd A, PyOrd B} : PyOrd (A * B) := {|
  py_lt p q :=
    if py_eq (fst p) (fst q) then py_lt (snd p) (snd q)
    else py_lt (fst p) (fst q);
  py_eq p q := py_eq (fst p) (fst q) && py_eq (snd p) (snd q)
|}.

(** ** Binary heap: the methods both source files share *)

Record Heap (A : Type) : Type := mkHeap {
  data : list A;
  config : bool   (* True: max-heap, False: min-heap *)
}.
Arguments mkHeap {A} data config.
Arguments data {A} h.
Arguments config {A} h.

Definition left (index : nat) : nat := 2 * index + 1.
Definition right (index : nat) : nat := 2 * (index + 1).
Definition parent (index : nat) : nat := (index - 1) / 2.

Section HeapCore.
Context {A : Type} `{PyOrd A}.

(** [data[i] < data[j]]; both indices are in range wherever the code
    evaluates it. *)
Definition lt_at (d : list A) (i j : nat) : bool :=
  match d !! i, d !! j with
  | Some a, Some b => py_lt a b
  | _, _ => false
  end.

(** [data[i], data[j] = data[j], data[i]] *)
Definition swap (d : list A) (i j : nat) : list A :=
  match d !! i, d !! j with
  | Some a, Some b => <[j := a]> (<[i := b]> d)
  | _, _ => d
  end.

(** [max_heapify]: the recursion descends to a child index, so it makes at
    most [len(data) - index] calls; [fuel] counts them. *)
Fixpoint max_heapify_fuel (fuel : nat) (d : list A) (index : nat) : list A :=
  match fuel with
  | 0 => d
  | S fuel' =>
    let left_index := left index in
    let right_index := right index in
    let largest_index := index in
    let largest_index :=
      if (left_index <? length d) && lt_at d largest_index left_index
      then left_index else largest_index in
    let largest_index :=
      if (right_index <? length d) && lt_at d largest_index right_index
      then right_index else largest_index in
    if negb (largest_index =? index)
    then max_heapify_fuel fuel' (swap d largest_index index) largest_index
    else d
  end.

Definition max_heapify (d : list A) (index : nat) : list A :=
  max_heapify_fuel (length d) d index.

(** The two files differ in [min_heapify]; the shared methods take it as a
    parameter. *)
Variable min_heapify : list A → nat → list A.

Definition heapify (h : Heap A) (index : nat) : Heap A :=
  if config h then mkHeap (max_heapify (data h) index) (config h)
  else mkHeap (min_heapify (data h) index) (config h).

(** [range(len(self) // 2, -1, -1)] *)
Definition build_range (n : nat) : list nat := rev (seq 0 (n / 2 + 1)).

(** [build(data)]: a non-empty argument replaces the backing list, then
    every index from [len // 2] down to [0] is heapified. *)
Definition build (h : Heap A) (new_data : list A) : Heap A :=
  let h := match new_data with
           | [] => h
           | _ :: _ => mkHeap new_data (config h)
           end in
  foldl heapify h (build_range (length (data h))).

(** [Heap(data, config)] *)
Definition Heap_init (d : list A) (cfg : bool) : Heap A :=
  build (mkHeap [] cfg) d.

Definition insert (h : Heap A) (new : A) : Heap A :=
  build (mkHeap (data h ++ [new]) (config h)) [].

(** [x in data] *)
Definition contains (d : list A) (x : A) : bool :=
  existsb (fun y => py_eq y x) d.

(** [data.index(x)]; [None] stands for the [ValueError]. *)
Fixpoint index_of (d : list A) (x : A) : option nat :=
  match d with
  | [] => None
  | y :: d' => if py_eq y x then Some 0 else S <$> index_of d' x
  end.

(** [data.remove(x)] on a list that contains [x] *)
Fixpoint remove_first (d : list A) (x : A) : list A :=
  match d with
  | [] => []
  | y :: d' => if py_eq y x then d' else y :: remove_first d' x
  end.

Definition delete (h : Heap A) (to_delete : A) : outcome unit * Heap A :=
  if length (data h) =? 0 then (Raise EmptyHeap, h)
  else if negb (contains (data h) to_delete) then (Raise ElementNotFound, h)
  else (Ret tt, build (mkHeap (remove_first (data h) to_delete) (config h)) []).

(** [peek]: [self.data[0]], an [IndexError] on an empty list. *)
Definition peek (h : Heap A) : outcome A :=
  match data h with
  | [] => Raise IndexError
  | x :: _ => Ret x
  end.

(** *** Priority queue (a wrapper holding the heap in [self.data]) *)

Definition PriorityQueue_init (d : list A) (cfg : bool) : Heap A :=
  Heap_init d cfg.

Definition enqueue (q : Heap A) (new : A) : Heap A := insert q new.

Definition dequeue (q : Heap A) : outcome A * Heap A :=
  if length (data q) =? 0 then (Raise Underflow, q)
  else match peek q with
       | Ret to_dequeue =>
         match delete q to_dequeue with
         | (Ret _, q') => (Ret to_dequeue, q')
         | (Raise e, q') => (Raise e, q')
         | (OutOfFuel, q') => (OutOfFuel, q')
         end
       | Raise e => (Raise e, q)
       | OutOfFuel => (OutOfFuel, q)
       end.
End HeapCore.

(** ** heap_priority_queue.py *)
Module HeapPriorityQueue.
Section Defs.
Context {A : Type} `{PyOrd A}.

(** "Placeholder for min-heapify function. Not implemented in this
    version." : the method returns at once. *)
Definition min_heapify (d : list A) (index : nat) : list A := d.

Definition Heap_init := Heap_init (A:=A) min_heapify.
Definition insert := insert (A:=A) min_heapify.
Definition delete := delete (A:=A) min_heapify.
Definition enqueue := enqueue (A:=A) min_heapify.
Definition dequeue := dequeue (A:=A) min_heapify.

(** [update]: [self.delete(old)] then [self.insert(new)]. *)
Definition update (h : Heap A) (old new : A) : outcome unit * Heap A :=
  match delete h old with
  | (Ret _, h') => (Ret tt, insert h' new)
  | r => r
  end.

(** [heapSort(lst)]: a queue with the default configuration (a max-heap) is
    built from [lst] and emptied, every dequeued element going to the front
    of [result].  [fuel] bounds the iterations of the [while] loop. *)
Fixpoint heapSort_loop (fuel : nat) (pq : Heap A) (result : list A)
    : outcome (list A) :=
  if length (data pq) =? 0 then Ret result
  else
    match fuel with
    | 0 => OutOfFuel
    | S fuel' =>
      match dequeue pq with
      | (Ret x, pq) => heapSort_loop fuel' pq (x :: result)
      | (Raise e, _) => Raise e
      | (OutOfFuel, _) => OutOfFuel
      end
    end.

Definition heapSort (fuel : nat) (lst : list A) : outcome (list A) :=
  heapSort_loop fuel (PriorityQueue_init min_heapify lst true) [].
End Defs.
End HeapPriorityQueue.

(** ** graph_heap_pq.py: heap and priority queue *)
Module GraphHeapPQ.
Section Defs.
Context {A : Type} `{PyOrd A}.

Fixpoint min_heapify_fuel (fuel : nat) (d : list A) (index : nat) : list A :=
  match fuel with
  | 0 => d
  | S fuel' =>
    let left_index := left index in
    let right_index := right index in
    let smallest_index := index in
    let smallest_index :=
      if (left_index <? length d) && lt_at d left_index smallest_index
      then left_index else smallest_index in
    let smallest_index :=
      if (right_index <? length d) && lt_at d right_index smallest_index
      then right_index else smallest_index in
    if negb (smallest_index =? index)
    then min_heapify_fuel fuel' (swap d smallest_index index) smallest_index
    else d
  end.

Definition min_heapify (d : list A) (index : nat) : list A :=
  min_heapify_fuel (length d) d index.

Definition heapify := heapify (A:=A) min_heapify.
Definition Heap_init := Heap_init (A:=A) min_heapify.
Definition insert := insert (A:=A) min_heapify.
Definition delete := delete (A:=A) min_heapify.
Definition enqueue := enqueue (A:=A) min_heapify.
Definition dequeue := dequeue (A:=A) min_heapify.

(** [update]: find [old], overwrite it, heapify from that index; the
    [ValueError] of [index] is caught and nothing is done. *)
Definition update (h : Heap A) (old new : A) : outcome unit * Heap A :=
  match index_of (data h) old with
  | Some index =>
    (Ret tt, heapify (mkHeap (<[index := new]> (data h)) (config h)) index)
  | None => (Ret tt, h)
  end.

(** [heapSort(lst, config)]: a heap is built from [lst] and emptied, the
    root going to the end of [result] before it is deleted.  [fuel] bounds
    the iterations of the [while] loop. *)
Fixpoint heapSort_loop (fuel : nat) (heap : Heap A) (result : list A)
    : outcome (list A) :=
  if length (data heap) =? 0 then Ret result
  else
    match fuel with
    | 0 => OutOfFuel
    | S fuel' =>
      x ← peek heap;
      let result := result ++ [x] in
      to_delete ← peek heap;
      match delete heap to_delete with
      | (Ret _, heap) => heapSort_loop fuel' heap result
      | (Raise e, _) => Raise e
      | (OutOfFuel, _) => OutOfFuel
      end
    end.

Definition heapSort (fuel : nat) (lst : list A) (config : bool)
    : outcome (list A) :=
  heapSort_loop fuel (Heap_init lst config) [].
End Defs.
End GraphHeapPQ.

(** ** Traversal state shared by the two graph files *)

Inductive Color : Type := WHITE | GRAY | BLACK.

#[export] Instance Color_eq_dec : EqDecision Color.
Proof. solve_decision. Defined.

(** One entry of [v_props]: the dictionary with keys ['color'],
    ['distance'] and ['parent']. *)
Module Props.
Record t (V : Type) : Type := mk {
  color : Color;
  distance : num;
  parent : option V
}.
Arguments mk {V} color distance parent.
Arguments color {V} _.
Arguments distance {V} _.
Arguments parent {V} _.

Definition set_color {V} (c : Color) (p : t V) : t V :=
  mk c (distance p) (parent p).
Definition set_distance {V} (d : num) (p : t V) : t V :=
  mk (color p) d (parent p).
Definition set_parent {V} (u : option V) (p : t V) : t V :=
  mk (color p) (distance p) u.
End Props.

(** [adjMat[row][col] = w] *)
Definition setcell (m : list (list Z)) (row col : nat) (w : Z)
    : outcome (list (list Z)) :=
  match m !! row with
  | Some cells =>
    if col <? length cells then Ret (<[row := <[col := w]> cells]> m)
    else Raise IndexError
  | None => Raise IndexError
  end.

(** [_buildEncoding], the same in both files; [enc_step] is the body of its
    loop. *)
Definition enc_step `{Countable V} (st : gmap V nat * gmap nat V * nat)
    (v : V) : gmap V nat * gmap nat V * nat :=
  let '(encoder, decoder, index) := st in
  (<[v := index]> encoder, <[index := v]> decoder, index + 1).

Definition _buildEncoding `{Countable V} (vertexes : list V)
    : gmap V nat * gmap nat V :=
  let '(encoder, decoder, _) := foldl enc_step (∅, ∅, 0) vertexes in
  (encoder, decoder).

(** [getPath], the same in both files: walk the parent links back from
    [vertex], inserting each parent at the front of [path].  [fuel] bounds
    the iterations of the [while] loop. *)
Fixpoint getPath_loop `{Countable V} (fuel : nat) (v_props : gmap V (Props.t V))
    (current : V) (path : list V) : outcome (list V) :=
  p ← getitem v_props current;
  match Props.parent p with
  | None => Ret path
  | Some pa =>
    match fuel with
    | 0 => OutOfFuel
    | S fuel' => getPath_loop fuel' v_props pa (pa :: path)
    end
  end.

Definition getPath `{Countable V} (fuel : nat) (vertex : V)
    (v_props : gmap V (Props.t V)) : outcome (list V) :=
  getPath_loop fuel v_props vertex [vertex].

(** The table [dfs] works on: [v_props], with the key ['final'] that
    [dfs_visit] adds to the entry of a vertex kept in a map of its own. *)
Definition dfs_table (V : Type) `{Countable V} : Type :=
  gmap V (Props.t V) * gmap V Z.

(** ** graph_heap_pq.py: the weighted graph *)
Module WGraph.
Section Defs.
Context {V : Type} `{Countable V}.

Definition relation : Type := V * V * Z.

Record Graph : Type := mkGraph {
  directed : bool;
  view : bool;
  vertexes : list V;
  relations : list relation;
  adjList : gmap V (list (V * Z));
  encoder : gmap V nat;
  decoder : gmap nat V;
  adjMat : list (list Z);
  _weight : gmap (V * V) Z
}.

(** Directed: the edges as given.  Undirected: a [set] holding every edge
    and its reverse; it is iterated in the order of [elements]. *)
Definition _buildRelation (directed : bool) (e : list relation)
    : list relation :=
  if directed then e
  else elements
         (foldl (λ (s : gset relation) el,
                   {[ (el.1.2, el.1.1, el.2) ]} ∪ ({[ el ]} ∪ s)) ∅ e).

Definition _buildAdjList (vertexes : list V) (relations : list relation)
    : outcome (gmap V (list (V * Z))) :=
  let adjList := foldl (λ m v, <[v := []]> m) ∅ vertexes in
  for_each (λ m (r : relation),
              l ← getitem m r.1.1;
              Ret (<[r.1.1 := l ++ [(r.1.2, r.2)]]> m))
           relations adjList.

Definition _buildAdjMatrix (vertexes : list V) (relations : list relation)
    (encoder : gmap V nat) : outcome (list (list Z)) :=
  let n := length vertexes in
  let adjMat := replicate n (replicate n 0%Z) in
  for_each (λ m (r : relation),
              row ← getitem encoder r.1.1;
              col ← getitem encoder r.1.2;
              setcell m row col r.2)
           relations adjMat.

Definition _buildWeight (relations : list relation) : gmap (V * V) Z :=
  foldl (λ m (r : relation), <[(r.1.1, r.1.2) := r.2]> m) ∅ relations.

(** [Graph(v, e, directed, view)] *)
Definition Graph_init (v : list V) (e : list relation)
    (directed view : bool) : outcome Graph :=
  let relations := _buildRelation directed e in
  adjList ← _buildAdjList v relations;
  let '(encoder, decoder) := _buildEncoding v in
  adjMat ← _buildAdjMatrix v relations encoder;
  Ret (mkGraph directed view v relations adjList encoder decoder adjMat
         (_buildWeight relations)).

Definition _buildVProps (g : Graph) (source : option V)
    : outcome (gmap V (Props.t V)) :=
  let v_props :=
    foldl (λ m v, <[v := Props.mk WHITE Inf None]> m) ∅ (vertexes g) in
  match source with
  | Some s =>
    p ← getitem v_props s;
    Ret (<[s := Props.set_distance (Fin 0) p]> v_props)
  | None => Ret v_props
  end.

Definition _getNeighborsAdjList (g : Graph) (vertex : V)
    : outcome (list (V * Z)) :=
  getitem (adjList g) vertex.

Definition getNeighbors (g : Graph) (vertex : V) : outcome (list (V * Z)) :=
  _getNeighborsAdjList g vertex.

(** Body of the [for neighbor, _ in ...] loop of [bfs]. *)
Definition bfs_visit (u : V) (st : gmap V (Props.t V) * list V)
    (nw : V * Z) : outcome (gmap V (Props.t V) * list V) :=
  let '(v_props, queue) := st in
  let neighbor := nw.1 in
  pn ← getitem v_props neighbor;
  if decide (Props.color pn = WHITE) then
    let v_props := <[neighbor := Props.set_color GRAY pn]> v_props in
    pu ← getitem v_props u;
    pn ← getitem v_props neighbor;
    let v_props :=
      <[neighbor := Props.set_distance
                      (num_add (Props.distance pu) 1) pn]> v_props in
    pn ← getitem v_props neighbor;
    let v_props := <[neighbor := Props.set_parent (Some u) pn]> v_props in
    Ret (v_props, queue ++ [neighbor])
  else Ret (v_props, queue).

(** The [while len(queue) > 0] loop of [bfs]. *)
Fixpoint bfs_loop (fuel : nat) (g : Graph) (queue : list V)
    (v_props : gmap V (Props.t V)) : outcome (gmap V (Props.t V)) :=
  match queue with
  | [] => Ret v_props
  | u :: queue =>
    match fuel with
    | 0 => OutOfFuel
    | S fuel' =>
      ns ← getNeighbors g u;
      '(v_props, queue) ← for_each (bfs_visit u) ns (v_props, queue);
      pu ← getitem v_props u;
      bfs_loop fuel' g queue (<[u := Props.set_color BLACK pu]> v_props)
    end
  end.

Definition bfs (fuel : nat) (g : Graph) (source : V)
    : outcome (gmap V (Props.t V)) :=
  v_props ← _buildVProps g (Some source);
  bfs_loop fuel g [source] v_props.

(** Body of the [for neighbor, _ in ...] loop of [dfs_visit]; [visit] is
    the recursive call. *)
Definition dfs_step (visit : V → Z → dfs_table V → outcome (Z * dfs_table V))
    (vertex : V) (st : Z * dfs_table V) (nw : V * Z)
    : outcome (Z * dfs_table V) :=
  let '(time, (v_props, final)) := st in
  let neighbor := nw.1 in
  pn ← getitem v_props neighbor;
  if decide (Props.color pn = WHITE) then
    let v_props := <[neighbor := Props.set_parent (Some vertex) pn]> v_props in
    visit neighbor time (v_props, final)
  else Ret (time, (v_props, final)).

(** [dfs_visit(vertex, time)]; [fuel] bounds the depth of the recursion. *)
Fixpoint dfs_visit (fuel : nat) (g : Graph) (vertex : V) (time : Z)
    (st : dfs_table V) : outcome (Z * dfs_table V) :=
  match fuel with
  | 0 => OutOfFuel
  | S fuel' =>
    let '(v_props, final) := st in
    let time := (time + 1)%Z in
    p ← getitem v_props vertex;
    let v_props := <[vertex := Props.set_distance (Fin time) p]> v_props in
    p ← getitem v_props vertex;
    let v_props := <[vertex := Props.set_color GRAY p]> v_props in
    ns ← getNeighbors g vertex;
    '(time, (v_props, final)) ←
      for_each (dfs_step (dfs_visit fuel' g) vertex) ns
        (time, (v_props, final));
    p ← getitem v_props vertex;
    let v_props := <[vertex := Props.set_color BLACK p]> v_props in
    let time := (time + 1)%Z in
    Ret (time, (v_props, <[vertex := time]> final))
  end.

(** Body of the [for v in self.vertexes] loop of [dfs]. *)
Definition dfs_root (fuel : nat) (g : Graph) (st : Z * dfs_table V) (v : V)
    : outcome (Z * dfs_table V) :=
  let '(time, (v_props, final)) := st in
  p ← getitem v_props v;
  if decide (Props.color p = WHITE) then
    dfs_visit fuel g v time (v_props, final)
  else Ret (time, (v_props, final)).

Definition dfs (fuel : nat) (g : Graph) : outcome (dfs_table V) :=
  v_props ← _buildVProps g None;
  '(_, st) ← for_each (dfs_root fuel g) (vertexes g) (0%Z, (v_props, ∅));
  Ret st.

Context `{PyOrd V}.

(** Body of the [for neighbor, weight in ...] loop of [dijkstraP]. *)
Definition relax (u : V) (in_queue : gmap V bool)
    (st : gmap V (Props.t V) * Heap (num * V)) (nw : V * Z)
    : outcome (gmap V (Props.t V) * Heap (num * V)) :=
  let '(v_props, QS) := st in
  let '(neighbor, weight) := nw in
  pn ← getitem v_props neighbor;
  pu ← getitem v_props u;
  if num_lt (num_add (Props.distance pu) weight) (Props.distance pn) then
    let old_distance := Props.distance pn in
    let v_props :=
      <[neighbor := Props.set_distance
                      (num_add (Props.distance pu) weight) pn]> v_props in
    pn ← getitem v_props neighbor;
    let v_props := <[neighbor := Props.set_parent (Some u) pn]> v_props in
    queued ← getitem in_queue neighbor;
    if (queued : bool) then
      pn ← getitem v_props neighbor;
      let '(_, QS) :=
        GraphHeapPQ.update QS (old_distance, neighbor)
          (Props.distance pn, neighbor) in
      Ret (v_props, QS)
    else Ret (v_props, QS)
  else Ret (v_props, QS).

(** The [while len(QS) > 0] loop of [dijkstraP]. *)
Fixpoint dijkstra_loop (fuel : nat) (g : Graph) (QS : Heap (num * V))
    (in_queue : gmap V bool) (v_props : gmap V (Props.t V))
    : outcome (gmap V (Props.t V)) :=
  if length (data QS) =? 0 then Ret v_props
  else
    match fuel with
    | 0 => OutOfFuel
    | S fuel' =>
      match GraphHeapPQ.dequeue QS with
      | (Ret du, QS) =>
        let u := du.2 in
        let in_queue := <[u := false]> in_queue in
        ns ← getNeighbors g u;
        '(v_props, QS) ← for_each (relax u in_queue) ns (v_props, QS);
        dijkstra_loop fuel' g QS in_queue v_props
      | (Raise e, _) => Raise e
      | (OutOfFuel, _) => OutOfFuel
      end
    end.

Definition dijkstraP (fuel : nat) (g : Graph) (s : V)
    : outcome (gmap V (Props.t V)) :=
  v_props ← _buildVProps g (Some s);
  entries ← for_each (λ acc v, p ← getitem v_props v;
                               Ret (acc ++ [(Props.distance p, v)]))
                     (vertexes g) [];
  let QS := PriorityQueue_init GraphHeapPQ.min_heapify entries false in
  let in_queue := foldl (λ m v, <[v := true]> m) ∅ (vertexes g) in
  dijkstra_loop fuel g QS in_queue v_props.
End Defs.
End WGraph.

(** [row[i]] needs an integer: [as_index v] is the list index a vertex
    denotes when it is one. *)
Class PyIndex (V : Type) := as_index : V → option nat.
#[export] Instance nat_pyindex : PyIndex nat := Some.

(** The scan of one matrix row: [for i, cell in enumerate(row)], keeping
    [decoder[i]] for the cells that mark an edge. *)
Definition scan_row `{Countable V} (marks : Z → bool) (decoder : gmap nat V)
    (cells : list Z) : outcome (list V) :=
  for_each (λ neighbors (ic : nat * Z),
              if marks ic.2 then
                v ← getitem decoder ic.1; Ret (neighbors ++ [v])
              else Ret neighbors)
           (zip (seq 0 (length cells)) cells) [].

(** ** labyrinth_graph.py: the unweighted graph *)
Module LGraph.
Section Defs.
Context {V : Type} `{Countable V}.

Definition relation : Type := V * V.

Record Graph : Type := mkGraph {
  directed : bool;
  view : bool;
  vertexes : list V;
  relations : list relation;
  adjList : gmap V (list V);
  encoder : gmap V nat;
  decoder : gmap nat V;
  adjMat : list (list Z)
}.

Definition _buildAdjMatrix (vertexes : list V) (relations : list relation)
    (encoder : gmap V nat) : outcome (list (list Z)) :=
  let n := length vertexes in
  let adjMat := replicate n (replicate n 0%Z) in
  for_each (λ m (r : relation),
              row ← getitem encoder r.1;
              col ← getitem encoder r.2;
              setcell m row col 1%Z)
           relations adjMat.

Definition _buildAdjList (vertexes : list V) (relations : list relation)
    : outcome (gmap V (list V)) :=
  let adjList := foldl (λ m v, <[v := []]> m) ∅ vertexes in
  for_each (λ m (r : relation),
              l ← getitem m r.1;
              Ret (<[r.1 := l ++ [r.2]]> m))
           relations adjList.

Definition _buildRelation (directed : bool) (e : list relation)
    : list relation :=
  if directed then e
  else elements
         (foldl (λ (s : gset relation) el,
                   {[ (el.2, el.1) ]} ∪ ({[ el ]} ∪ s)) ∅ e).

(** [Graph(vertexes, relations, directed, view)]: [__init__] stores
    [relations] as given; it does not call [_buildRelation]. *)
Definition Graph_init (vertexes : list V) (relations : list relation)
    (directed view : bool) : outcome Graph :=
  adjList ← _buildAdjList vertexes relations;
  let '(encoder, decoder) := _buildEncoding vertexes in
  adjMat ← _buildAdjMatrix vertexes relations encoder;
  Ret (mkGraph directed view vertexes relations adjList encoder decoder
         adjMat).

(** The method [_init_] ("alternative initializer"), which does call
    [_buildRelation]. *)
Definition _init_ (v : list V) (e : list relation) (directed view : bool)
    : outcome Graph :=
  let relations := _buildRelation directed e in
  adjList ← _buildAdjList v relations;
  let '(encoder, decoder) := _buildEncoding v in
  adjMat ← _buildAdjMatrix v relations encoder;
  Ret (mkGraph directed view v relations adjList encoder decoder adjMat).

Definition _buildVProps (g : Graph) (source : option V)
    : gmap V (Props.t V) :=
  let v_props :=
    foldl (λ m v, <[v := Props.mk WHITE Inf None]> m) ∅ (vertexes g) in
  match source with
  | Some s => <[s := Props.mk GRAY (Fin 0) None]> v_props
  | None => v_props
  end.

Definition _getNeighborsAdjList (g : Graph) (vertex : V)
    : outcome (list V) :=
  getitem (adjList g) vertex.

(** [vertex] is the row index here. *)
Definition _getNeighborsMatAdj (g : Graph) (vertex : nat)
    : outcome (list V) :=
  match adjMat g !! vertex with
  | Some cells => scan_row (λ cell, cell =? 1)%Z (decoder g) cells
  | None => Raise IndexError
  end.

Context `{PyIndex V}.

(** With [view] false the vertex itself is passed on as the row index. *)
Definition getNeighbors (g : Graph) (vertex : V) : outcome (list V) :=
  if view g then _getNeighborsAdjList g vertex
  else match as_index vertex with
       | Some row => _getNeighborsMatAdj g row
       | None => Raise TypeError
       end.

(** Body of the [for neighbor in ...] loop of [bfs]. *)
Definition bfs_visit (u : V) (st : gmap V (Props.t V) * list V)
    (neighbor : V) : outcome (gmap V (Props.t V) * list V) :=
  let '(v_props, queue) := st in
  pn ← getitem v_props neighbor;
  if decide (Props.color pn = WHITE) then
    let v_props := <[neighbor := Props.set_color GRAY pn]> v_props in
    pu ← getitem v_props u;
    pn ← getitem v_props neighbor;
    let v_props :=
      <[neighbor := Props.set_distance
                      (num_add (Props.distance pu) 1) pn]> v_props in
    pn ← getitem v_props neighbor;
    let v_props := <[neighbor := Props.set_parent (Some u) pn]> v_props in
    Ret (v_props, queue ++ [neighbor])
  else Ret (v_props, queue).

Fixpoint bfs_loop (fuel : nat) (g : Graph) (queue : list V)
    (v_props : gmap V (Props.t V)) : outcome (gmap V (Props.t V)) :=
  match queue with
  | [] => Ret v_props
  | u :: queue =>
    match fuel with
    | 0 => OutOfFuel
    | S fuel' =>
      ns ← getNeighbors g u;
      '(v_props, queue) ← for_each (bfs_visit u) ns (v_props, queue);
      pu ← getitem v_props u;
      bfs_loop fuel' g queue (<[u := Props.set_color BLACK pu]> v_props)
    end
  end.

Definition bfs (fuel : nat) (g : Graph) (source : V)
    : outcome (gmap V (Props.t V)) :=
  bfs_loop fuel g [source] (_buildVProps g (Some source)).

(** Body of the [for neighbor in ...] loop of [dfs_visit]; [visit] is the
    recursive call. *)
Definition dfs_step (visit : V → Z → dfs_table V → outcome (Z * dfs_table V))
    (vertex : V) (st : Z * dfs_table V) (neighbor : V)
    : outcome (Z * dfs_table V) :=
  let '(time, (v_props, final)) := st in
  pn ← getitem v_props neighbor;
  if decide (Props.color pn = WHITE) then
    let v_props := <[neighbor := Props.set_parent (Some vertex) pn]> v_props in
    visit neighbor time (v_props, final)
  else Ret (time, (v_props, final)).

(** [dfs_visit(vertex, time)]; [fuel] bounds the depth of the recursion. *)
Fixpoint dfs_visit (fuel : nat) (g : Graph) (vertex : V) (time : Z)
    (st : dfs_table V) : outcome (Z * dfs_table V) :=
  match fuel with
  | 0 => OutOfFuel
  | S fuel' =>
    let '(v_props, final) := st in
    let time := (time + 1)%Z in
    p ← getitem v_props vertex;
    let v_props := <[vertex := Props.set_distance (Fin time) p]> v_props in
    p ← getitem v_props vertex;
    let v_props := <[vertex := Props.set_color GRAY p]> v_props in
    ns ← getNeighbors g vertex;
    '(time, (v_props, final)) ←
      for_each (dfs_step (dfs_visit fuel' g) vertex) ns
        (time, (v_props, final));
    p ← getitem v_props vertex;
    let v_props := <[vertex := Props.set_color BLACK p]> v_props in
    let time := (time + 1)%Z in
    Ret (time, (v_props, <[vertex := time]> final))
  end.

(** Body of the [for v in self.vertexes] loop of [dfs]. *)
Definition dfs_root (fuel : nat) (g : Graph) (st : Z * dfs_table V) (v : V)
    : outcome (Z * dfs_table V) :=
  let '(time, (v_props, final)) := st in
  p ← getitem v_props v;
  if decide (Props.color p = WHITE) then
    dfs_visit fuel g v time (v_props, final)
  else Ret (time, (v_props, final)).

Definition dfs (fuel : nat) (g : Graph) : outcome (dfs_table V) :=
  '(_, st) ← for_each (dfs_root fuel g) (vertexes g)
                (0%Z, (_buildVProps g None, ∅));
  Ret st.
End Defs.
End LGraph.

(** A tuple is not a list index. *)
#[export] Instance tuple_pyindex {A B} : PyIndex (A * B) := λ _, None.

(** ** labyrinth_graph.py: from a grid to a graph *)

(** [labyrinth[i][j]] *)
Definition grid_at (labyrinth : list (list Z)) (i j : nat) : outcome Z :=
  match labyrinth !! i with
  | Some row =>
    match row !! j with
    | Some c => Ret c
    | None => Raise IndexError
    end
  | None => Raise IndexError
  end.

(** [inside and labyrinth[i][j] != 0], the second operand evaluated only
    when the first holds. *)
Definition open_at (labyrinth : list (list Z)) (inside : bool) (i j : nat)
    : outcome bool :=
  if inside then c ← grid_at labyrinth i j; Ret (negb (c =? 0)%Z)
  else Ret false.

(** Body of the two nested loops of [convert_to_graph], at cell [(i, j)]. *)
Definition convert_cell (labyrinth : list (list Z)) (rows cols : nat)
    (st : list (nat * nat) * list ((nat * nat) * (nat * nat))) (i j : nat)
    : outcome (list (nat * nat) * list ((nat * nat) * (nat * nat))) :=
  let '(vertexes, relations) := st in
  c ← grid_at labyrinth i j;
  if negb (c =? 0)%Z then
    let vertexes := vertexes ++ [(i, j)] in
    up ← open_at labyrinth (0 <? i) (i - 1) j;
    let relations :=
      if (up : bool) then relations ++ [((i, j), (i - 1, j))] else relations in
    down ← open_at labyrinth (i <? rows - 1) (i + 1) j;
    let relations :=
      if (down : bool) then relations ++ [((i, j), (i + 1, j))] else relations in
    left ← open_at labyrinth (0 <? j) i (j - 1);
    let relations :=
      if (left : bool) then relations ++ [((i, j), (i, j - 1))] else relations in
    right ← open_at labyrinth (j <? cols - 1) i (j + 1);
    let relations :=
      if (right : bool) then relations ++ [((i, j), (i, j + 1))] else relations in
    Ret (vertexes, relations)
  else Ret (vertexes, relations).

(** The cells in the order of the two loops. *)
Definition convert_scan (labyrinth : list (list Z)) (rows cols : nat)
    : outcome (list (nat * nat) * list ((nat * nat) * (nat * nat))) :=
  for_each (λ st i,
              for_each (λ st j, convert_cell labyrinth rows cols st i j)
                (seq 0 cols) st)
    (seq 0 rows) ([], []).

Definition convert_to_graph (labyrinth : list (list Z))
    : outcome (LGraph.Graph (V:=nat * nat)) :=
  let rows := length labyrinth in
  row0 ← match labyrinth !! 0 with
          | Some row => Ret row
          | None => Raise IndexError
          end;
  let cols := length row0 in
  '(vertexes, relations) ← convert_scan labyrinth rows cols;
  LGraph.Graph_init vertexes relations true true.

(** The matrix view of the weighted graph as the spec words it (section 4.3:
    scanning the matrix row and decoding indices to vertices; section 3: a
    cell at the default 0 means no edge).  graph_heap_pq.py has no such
    method: this is the loop of [_getNeighborsMatAdj] of labyrinth_graph.py
    with "cell is not 0" in place of "cell is 1", to be compared with the
    adjacency list the code builds. *)
Definition matrix_neighbors `{Countable V} (g : WGraph.Graph (V:=V))
    (row : nat) : outcome (list V) :=
  match WGraph.adjMat g !! row with
  | Some cells => scan_row (λ cell, negb (cell =? 0)%Z) (WGraph.decoder g) cells
  | None => Raise IndexError
  end.

(** * Specification vocabulary *)

(** ** Heap order *)

Section HeapSpec.
Context {A : Type}.

(** [rel_at r d i j]: both indices are in range and [r d[i] d[j]]. *)
Definition rel_at (r : A → A → bool) (d : list A) (i j : nat) : bool :=
  match d !! i, d !! j with
  | Some a, Some b => r a b
  | _, _ => false
  end.

(** Sift-down for an arbitrary "must go above" relation [r]; [max_heapify]
    and the [min_heapify] of graph_heap_pq.py are its two instances
    (lemmas [max_heapify_fuel_sift] and [min_heapify_fuel_sift]). *)
Fixpoint sift_fuel (r : A → A → bool) (fuel : nat) (d : list A) (index : nat)
    : list A :=
  match fuel with
  | 0 => d
  | S fuel' =>
    let best := index in
    let best :=
      if (left index <? length d) && rel_at r d best (left index)
      then left index else best in
    let best :=
      if (right index <? length d) && rel_at r d best (right index)
      then right index else best in
    if negb (best =? index)
    then sift_fuel r fuel' (swap d best index) best
    else d
  end.

Definition sift (r : A → A → bool) (d : list A) (i : nat) : list A :=
  sift_fuel r (length d) d i.

(** What the two comparisons of one sift step select. *)
Definition sift_best (r : A → A → bool) (d : list A) (index : nat) : nat :=
  let best := index in
  let best :=
    if (left index <? length d) && rel_at r d best (left index)
    then left index else best in
  if (right index <? length d) && rel_at r d best (right index)
  then right index else best.

(** Every node from index [k] on is in order with its two children. *)
Definition heap_from (r : A → A → bool) (k : nat) (d : list A) : Prop :=
  ∀ i, k ≤ i → rel_at r d i (left i) = false ∧ rel_at r d i (right i) = false.

(** What a sift at [i] needs: every node from [k] on other than [i] is in
    order with its children, and the parent of [i] with the children of
    [i]. *)
Definition sift_pre (r : A → A → bool) (k i : nat) (d : list A) : Prop :=
  (∀ j, k ≤ j → j ≠ i →
     rel_at r d j (left j) = false ∧ rel_at r d j (right j) = false) ∧
  (∀ j, k ≤ j → i = left j ∨ i = right j →
     rel_at r d j (left i) = false ∧ rel_at r d j (right i) = false).

(** The heap invariant as the spec words it: every non-root index is in
    order with its parent at [(i - 1) / 2]. *)
Definition heap_ordered (r : A → A → bool) (d : list A) : Prop :=
  ∀ i, 0 < i < length d → rel_at r d (parent i) i = false.

Record strict_weak (r : A → A → bool) : Prop := {
  sw_asym : ∀ x y, r x y = true → r y x = false;
  sw_trans : ∀ x y z, r x y = true → r y z = true → r x z = true;
  sw_negtrans : ∀ x y z, r x y = false → r y z = false → r x z = false
}.
End HeapSpec.

(** [violates cfg p c]: parent [p] and child [c] break the configured order,
    [p < c] in a max-heap and [c < p] in a min-heap. *)
Definition violates `{PyOrd A} (cfg : bool) (p c : A) : bool :=
  if cfg then py_lt p c else py_lt c p.

Definition heap_ok `{PyOrd A} (h : Heap A) : Prop :=
  heap_ordered (violates (config h)) (data h).

(** The list [heapify] leaves in [self.data]. *)
Definition heapify_data `{PyOrd A} (min_heapify : list A → nat → list A)
    (cfg : bool) (d : list A) (index : nat) : list A :=
  if cfg then max_heapify d index else min_heapify d index.

(** The list [build] works on. *)
Definition build_input {A} (h : Heap A) (new_data : list A) : list A :=
  match new_data with [] => data h | _ :: _ => new_data end.

(** [sorted_for cfg out]: no element of [out] has to come before an earlier
    one, that is descending for a max-heap and ascending for a min-heap. *)
Definition sorted_for `{PyOrd A} (cfg : bool) (out : list A) : Prop :=
  StronglySorted (λ a b, violates cfg a b = false) out.

(** ** Sequences of heap and queue calls *)

Inductive heap_op (A : Type) : Type :=
  | OpInsert (x : A)
  | OpDelete (x : A)
  | OpUpdate (old new : A).
Arguments OpInsert {A} x.
Arguments OpDelete {A} x.
Arguments OpUpdate {A} old new.

Definition is_update {A} (op : heap_op A) : bool :=
  match op with OpUpdate _ _ => true | _ => false end.

Section Runs.
Context {A : Type} `{PyOrd A}.
Variable min_heapify : list A → nat → list A.
Variable update : Heap A → A → A → outcome unit * Heap A.

Definition apply_op (h : Heap A) (op : heap_op A) : outcome unit * Heap A :=
  match op with
  | OpInsert x => (Ret tt, insert min_heapify h x)
  | OpDelete x => delete min_heapify h x
  | OpUpdate old new => update h old new
  end.

(** The heap a sequence of calls leaves behind, a caller catching what a
    call raises and going on. *)
Definition run_ops (h : Heap A) (ops : list (heap_op A)) : Heap A :=
  foldl (λ h op, snd (apply_op h op)) h ops.

Definition enqueue_all (q : Heap A) (l : list A) : Heap A :=
  foldl (enqueue min_heapify) q l.

Fixpoint dequeue_n (n : nat) (q : Heap A) : outcome (list A) * Heap A :=
  match n with
  | 0 => (Ret [], q)
  | S n' =>
    match dequeue min_heapify q with
    | (Ret x, q') =>
      match dequeue_n n' q' with
      | (Ret xs, q'') => (Ret (x :: xs), q'')
      | r => r
      end
    | (Raise e, q') => (Raise e, q')
    | (OutOfFuel, q') => (OutOfFuel, q')
    end
  end.
End Runs.

(** ** The two views of a graph *)

(** [adjMat[i][j]], read as 0 outside the matrix. *)
Definition cell (m : list (list Z)) (i j : nat) : Z :=
  default 0%Z (m !! i ≫= (.!! j)).

Definition square (n : nat) (m : list (list Z)) : Prop :=
  length m = n ∧ ∀ i cells, m !! i = Some cells → length cells = n.

(** The loops of [_buildAdjList], [_buildAdjMatrix] and the matrix scan, for
    relations of either shape: [src], [dst] are the endpoints of a relation,
    [ent] its adjacency-list entry and [val] the value written to its cell. *)
Section Views.
Context `{Countable V} {R Ent : Type}.
Variables (src dst : R → V) (ent : R → Ent) (val : R → Z).

Definition adj_step (m : gmap V (list Ent)) (r : R)
    : outcome (gmap V (list Ent)) :=
  l ← getitem m (src r); Ret (<[src r := l ++ [ent r]]> m).

Definition mat_step (encoder : gmap V nat) (m : list (list Z)) (r : R)
    : outcome (list (list Z)) :=
  row ← getitem encoder (src r);
  col ← getitem encoder (dst r);
  setcell m row col (val r).

(** A relation whose endpoints both are vertices. *)
Definition anchored (vs : list V) (r : R) : Prop := src r ∈ vs ∧ dst r ∈ vs.

Definition build_adj (vs : list V) (rels : list R)
    : outcome (gmap V (list Ent)) :=
  for_each adj_step rels (foldl (λ m v, <[v := []]> m) ∅ vs).

Definition build_mat (vs : list V) (rels : list R)
    : outcome (list (list Z)) :=
  for_each (mat_step (_buildEncoding vs).1) rels
    (replicate (length vs) (replicate (length vs) 0%Z)).
End Views.

#[export] Instance anchored_dec `{Countable V} {R} (src dst : R → V) vs r :
  Decision (anchored src dst vs r).
Proof. unfold anchored. apply _. Defined.

Definition scan_step `{Countable V} (marks : Z → bool) (decoder : gmap nat V)
    (neighbors : list V) (ic : nat * Z) : outcome (list V) :=
  if marks ic.2 then v ← getitem decoder ic.1; Ret (neighbors ++ [v])
  else Ret neighbors.

(** ** Traversal tables *)

(** [ancestors v_props v l]: following the parent links from [v] ends at a
    vertex without parent, and [l] lists the vertices met, that one first
    and the parent of [v] last. *)
Inductive ancestors `{Countable V} (v_props : gmap V (Props.t V))
    : V → list V → Prop :=
  | ancestors_root v p :
      v_props !! v = Some p → Props.parent p = None →
      ancestors v_props v []
  | ancestors_step v p pa l :
      v_props !! v = Some p → Props.parent p = Some pa →
      ancestors v_props pa l →
      ancestors v_props v (l ++ [pa]).

(** Every vertex at infinite distance has no parent. *)
Definition inf_no_parent `{Countable V} (v_props : gmap V (Props.t V)) : Prop :=
  ∀ v p, v_props !! v = Some p → Props.distance p = Inf → Props.parent p = None.

Definition finite_at `{Countable V} (v_props : gmap V (Props.t V))
    (vs : list V) : Prop :=
  ∀ u p, u ∈ vs → v_props !! u = Some p → Props.distance p ≠ Inf.

(** State of the [for] loop of [bfs] while [u] is being processed. *)
Definition bfs_inv `{Countable V} (st : gmap V (Props.t V) * list V) (u : V)
    : Prop :=
  inf_no_parent st.1 ∧ finite_at st.1 (u :: st.2).

(** The table of the [bfs] of labyrinth_graph.py while the loop runs, with
    [pending] the vertex being processed and the queue: the pending vertices
    are discovered, every parent is a discovered vertex one hop closer to the
    source, and the source is the one discovered vertex without parent. *)
Definition bfs_tree `{Countable V} (s : V) (v_props : gmap V (Props.t V))
    (pending : list V) : Prop :=
  (∀ u p, u ∈ pending → v_props !! u = Some p →
     Props.color p ≠ WHITE ∧ Props.distance p ≠ Inf) ∧
  (∀ v p pa, v_props !! v = Some p → Props.parent p = Some pa →
     ∃ pp d, v_props !! pa = Some pp ∧ Props.color pp ≠ WHITE ∧
             Props.distance pp = Fin d ∧ (0 ≤ d)%Z ∧
             Props.distance p = Fin (d + 1)) ∧
  (∀ p, v_props !! s = Some p →
     Props.color p ≠ WHITE ∧ Props.distance p = Fin 0 ∧
     Props.parent p = None) ∧
  (∀ v p, v_props !! v = Some p → Props.parent p = None →
     Props.distance p ≠ Inf → v = s).

(** The table of [dijkstraP] while the loop runs, for non-negative weights:
    a parent is never farther than its child, distances are not negative,
    the source keeps distance 0 and no parent and is the only vertex at
    finite distance without parent, and the parent links from every vertex
    end. *)
Definition dijkstra_tree `{Countable V} (s : V) (v_props : gmap V (Props.t V))
    : Prop :=
  (∀ v p pa, v_props !! v = Some p → Props.parent p = Some pa →
     ∃ pp dpa dv, v_props !! pa = Some pp ∧ Props.distance pp = Fin dpa ∧
                  Props.distance p = Fin dv ∧ (dpa ≤ dv)%Z) ∧
  (∀ v p d, v_props !! v = Some p → Props.distance p = Fin d → (0 ≤ d)%Z) ∧
  (∀ p, v_props !! s = Some p →
     Props.distance p = Fin 0 ∧ Props.parent p = None) ∧
  (∀ v p, v_props !! v = Some p → Props.parent p = None →
     Props.distance p ≠ Inf → v = s) ∧
  (∀ v p, v_props !! v = Some p → ∃ l, ancestors v_props v l).

(** Every weight in the adjacency list is non-negative. *)
Definition nonneg_adj `{Countable V} (g : WGraph.Graph (V:=V)) : Prop :=
  ∀ u l, WGraph.adjList g !! u = Some l → Forall (λ nw, (0 ≤ nw.2)%Z) l.

(** [walk rels u v c k]: the edges of [rels] lead from [u] to [v] in [k]
    hops of total weight [c]. *)
Inductive walk {V} (rels : list (V * V * Z)) : V → V → Z → nat → Prop :=
  | walk_nil v : walk rels v v 0%Z 0
  | walk_cons u v x w c k :
      (u, v, w) ∈ rels → walk rels v x c k →
      walk rels u x (w + c)%Z (S k).

Definition distance_of `{Countable V} (tbl : gmap V (Props.t V)) (v : V)
    : option num :=
  Props.distance <$> tbl !! v.

Definition parent_of `{Countable V} (tbl : gmap V (Props.t V)) (v : V)
    : option (option V) :=
  Props.parent <$> tbl !! v.

(** ** Example inputs *)

(** Vertices 0..3 and the edges 0→2, 2→1, 1→3, each of weight 1. *)
Definition chain_edges : list (nat * nat * Z) :=
  [(0, 2, 1%Z); (2, 1, 1%Z); (1, 3, 1%Z)].
Definition chain_graph : outcome (WGraph.Graph (V:=nat)) :=
  WGraph.Graph_init [0; 1; 2; 3] chain_edges true true.

(** Vertices 0 and 1, a loop at 0 and the edge 0→1. *)
Definition loop_edges : list (nat * nat * Z) := [(0, 0, 1%Z); (0, 1, 1%Z)].
Definition loop_graph : outcome (WGraph.Graph (V:=nat)) :=
  WGraph.Graph_init [0; 1] loop_edges true true.

(** Vertices 0, 1, 2 with the one edge 0→1: vertex 2 is out of reach. *)
Definition apart_graph : outcome (LGraph.Graph (V:=nat)) :=
  LGraph.Graph_init [0; 1; 2] [(0, 1)] true true.

(** ** Traversals with the neighbour lookup as a parameter *)

(** The loops of [bfs] and the recursion of [dfs_visit] are the same text in
    the two graph files but for the shape of the neighbour list; here they
    are once more with the lookup of the neighbours of a vertex as a
    parameter.  The functions of the two files are instances (lemmas
    [W_bfs_loop_of], [L_bfs_loop_of], [W_dfs_visit_of], [L_dfs_visit_of]). *)
Section TraversalOf.
Context `{Countable V}.
Variable neighbors : V → outcome (list V).

Definition bfs_visit_of (u : V) (st : gmap V (Props.t V) * list V)
    (neighbor : V) : outcome (gmap V (Props.t V) * list V) :=
  let '(v_props, queue) := st in
  pn ← getitem v_props neighbor;
  if decide (Props.color pn = WHITE) then
    let v_props := <[neighbor := Props.set_color GRAY pn]> v_props in
    pu ← getitem v_props u;
    pn ← getitem v_props neighbor;
    let v_props :=
      <[neighbor := Props.set_distance
                      (num_add (Props.distance pu) 1) pn]> v_props in
    pn ← getitem v_props neighbor;
    let v_props := <[neighbor := Props.set_parent (Some u) pn]> v_props in
    Ret (v_props, queue ++ [neighbor])
  else Ret (v_props, queue).

Fixpoint bfs_loop_of (fuel : nat) (queue : list V)
    (v_props : gmap V (Props.t V)) : outcome (gmap V (Props.t V)) :=
  match queue with
  | [] => Ret v_props
  | u :: queue =>
    match fuel with
    | 0 => OutOfFuel
    | S fuel' =>
      ns ← neighbors u;
      '(v_props, queue) ← for_each (bfs_visit_of u) ns (v_props, queue);
      pu ← getitem v_props u;
      bfs_loop_of fuel' queue (<[u := Props.set_color BLACK pu]> v_props)
    end
  end.

Definition dfs_step_of
    (visit : V → Z → dfs_table V → outcome (Z * dfs_table V))
    (vertex : V) (st : Z * dfs_table V) (neighbor : V)
    : outcome (Z * dfs_table V) :=
  let '(time, (v_props, final)) := st in
  pn ← getitem v_props neighbor;
  if decide (Props.color pn = WHITE) then
    let v_props := <[neighbor := Props.set_parent (Some vertex) pn]> v_props in
    visit neighbor time (v_props, final)
  else Ret (time, (v_props, final)).

Fixpoint dfs_visit_of (fuel : nat) (vertex : V) (time : Z)
    (st : dfs_table V) : outcome (Z * dfs_table V) :=
  match fuel with
  | 0 => OutOfFuel
  | S fuel' =>
    let '(v_props, final) := st in
    let time := (time + 1)%Z in
    p ← getitem v_props vertex;
    let v_props := <[vertex := Props.set_distance (Fin time) p]> v_props in
    p ← getitem v_props vertex;
    let v_props := <[vertex := Props.set_color GRAY p]> v_props in
    ns ← neighbors vertex;
    '(time, (v_props, final)) ←
      for_each (dfs_step_of (dfs_visit_of fuel') vertex) ns
        (time, (v_props, final));
    p ← getitem v_props vertex;
    let v_props := <[vertex := Props.set_color BLACK p]> v_props in
    let time := (time + 1)%Z in
    Ret (time, (v_props, <[vertex := time]> final))
  end.

Definition dfs_root_of (fuel : nat) (st : Z * dfs_table V) (v : V)
    : outcome (Z * dfs_table V) :=
  let '(time, (v_props, final)) := st in
  p ← getitem v_props v;
  if decide (Props.color p = WHITE) then
    dfs_visit_of fuel v time (v_props, final)
  else Ret (time, (v_props, final)).
End TraversalOf.

(** The neighbour lookups of the two files, weights dropped. *)
Definition W_neighbors `{Countable V} (g : WGraph.Graph (V:=V)) (u : V)
    : outcome (list V) :=
  ns ← WGraph.getNeighbors g u; Ret (ns.*1).

(** [hops rels u v k]: the relations lead from [u] to [v] in [k] hops. *)
Inductive hops {V} (rels : list (V * V)) : V → V → nat → Prop :=
  | hops_nil v : hops rels v v 0
  | hops_cons u v x k :
      (u, v) ∈ rels → hops rels v x k → hops rels u x (S k).

(** The endpoints of weighted relations. *)
Definition ends {V} (rels : list (V * V * Z)) : list (V * V) := fst <$> rels.

(** The vertices still white. *)
Definition white_set `{Countable V} (tbl : gmap V (Props.t V)) : gset V :=
  dom (filter (λ kv, Props.color kv.2 = WHITE) tbl).

(** Vertex [v] is in the table at the finite distance [d]. *)
Definition dist_at `{Countable V} (tbl : gmap V (Props.t V)) (v : V) (d : Z)
    : Prop :=
  ∃ p, tbl !! v = Some p ∧ Props.distance p = Fin d.

(** What the loop of [bfs] keeps of the table and of [pending], the vertex
    being processed followed by the queue, on a graph with vertices [vs]
    and relations [rels]: [pending] is in the order of the distances, which
    differ by one at most; no black vertex is farther than a pending one;
    every recorded distance is the length of a walk from [s]; and the
    relations that start at a black vertex end at vertices one hop farther
    at most.  A vertex is white at a finite distance only if it is the
    source and no relation ends at it. *)
Record bfs_opt `{Countable V} (vs : list V) (rels : list (V * V)) (s : V)
    (tbl : gmap V (Props.t V)) (pending : list V) : Prop := {
  bo_keys : ∀ v, is_Some (tbl !! v) ↔ v ∈ vs;
  bo_sound : ∀ v d, dist_at tbl v d → (0 ≤ d)%Z ∧ hops rels s v (Z.to_nat d);
  bo_inf : ∀ v p, tbl !! v = Some p → Props.distance p = Inf →
             Props.color p = WHITE;
  bo_white : ∀ v p, tbl !! v = Some p → Props.color p = WHITE →
               Props.distance p = Inf ∨ (v = s ∧ ∀ x, (x, s) ∉ rels);
  bo_pending : ∀ v p, tbl !! v = Some p → Props.distance p ≠ Inf →
                 Props.color p ≠ BLACK → v ∈ pending;
  bo_finite : ∀ v, v ∈ pending → ∃ d, dist_at tbl v d;
  bo_sorted : ∀ i j x y dx dy, i < j →
                pending !! i = Some x → pending !! j = Some y →
                dist_at tbl x dx → dist_at tbl y dy → (dx ≤ dy)%Z;
  bo_span : ∀ x y dx dy, head pending = Some x → y ∈ pending →
              dist_at tbl x dx → dist_at tbl y dy → (dy ≤ dx + 1)%Z;
  bo_black : ∀ v p d, tbl !! v = Some p → Props.color p = BLACK →
               Props.distance p = Fin d →
               (∀ x dx, x ∈ pending → dist_at tbl x dx → (d ≤ dx)%Z) ∧
               (∀ w, (v, w) ∈ rels → ∃ dw, dist_at tbl w dw ∧ (dw ≤ d + 1)%Z);
  bo_source : dist_at tbl s 0
}.

(** What the loop of [bfs] keeps in any case: the keys of the table are the
    vertices, every recorded distance is the length of a walk from [s], and
    the pending vertices are at finite distances. *)
Record bfs_safe `{Countable V} (vs : list V) (rels : list (V * V)) (s : V)
    (tbl : gmap V (Props.t V)) (pending : list V) : Prop := {
  bs_keys : ∀ v, is_Some (tbl !! v) ↔ v ∈ vs;
  bs_sound : ∀ v d, dist_at tbl v d → (0 ≤ d)%Z ∧ hops rels s v (Z.to_nat d);
  bs_finite : ∀ v, v ∈ pending → ∃ d, dist_at tbl v d
}.

(** The neighbours of [u] seen so far are one hop farther at most. *)
Definition near `{Countable V} (tbl : gmap V (Props.t V)) (u : V)
    (seen : list V) : Prop :=
  ∀ w du, w ∈ seen → dist_at tbl u du →
    ∃ dw, dist_at tbl w dw ∧ (dw ≤ du + 1)%Z.


(** ** Depth-first search *)

(** What [dfs] keeps of its table at time [t], on a graph with vertices
    [vs] and relations [rels]: white vertices are untouched; the others were
    discovered at a time of their own, between 1 and [t]; exactly the black
    ones have a finishing time, later than their discovery; the parent of a
    vertex was discovered before it, by way of a relation, and does not
    finish before it; of two vertices the one discovered first, if it
    has finished, finished before the other was discovered or after the
    other finished; and the relations that start at a finished vertex end
    at vertices discovered before it finished. *)
Record dfs_inv `{Countable V} (vs : list V) (rels : list (V * V))
    (tbl : gmap V (Props.t V)) (fin : gmap V Z) (t : Z) : Prop := {
  di_time : (0 ≤ t)%Z;
  di_keys : ∀ v, is_Some (tbl !! v) ↔ v ∈ vs;
  di_white : ∀ v p, tbl !! v = Some p → Props.color p = WHITE →
               Props.distance p = Inf ∧ Props.parent p = None ∧
               fin !! v = None;
  di_found : ∀ v p, tbl !! v = Some p → Props.color p ≠ WHITE →
               ∃ d, Props.distance p = Fin d ∧ (1 ≤ d ≤ t)%Z;
  di_gray : ∀ v p, tbl !! v = Some p → Props.color p = GRAY →
              fin !! v = None;
  di_black : ∀ v p, tbl !! v = Some p → Props.color p = BLACK →
               ∃ d f, Props.distance p = Fin d ∧ fin !! v = Some f ∧
                      (d < f ≤ t)%Z;
  di_fin : ∀ v f, fin !! v = Some f →
             ∃ p, tbl !! v = Some p ∧ Props.color p = BLACK;
  di_parent : ∀ v p u, tbl !! v = Some p → Props.parent p = Some u →
                (u, v) ∈ rels ∧
                ∃ pu du dv, tbl !! u = Some pu ∧ Props.distance pu = Fin du ∧
                            Props.distance p = Fin dv ∧ (du < dv)%Z ∧
                            ∀ fu, fin !! u = Some fu →
                                  ∃ fv, fin !! v = Some fv ∧ (fv < fu)%Z;
  di_inj : ∀ v v' d, dist_at tbl v d → dist_at tbl v' d → v = v';
  di_nest : ∀ x y dx dy fx, dist_at tbl x dx → dist_at tbl y dy →
              (dx < dy)%Z → fin !! x = Some fx →
              (fx < dy)%Z ∨ ∃ fy, fin !! y = Some fy ∧ (fy < fx)%Z;
  di_edge : ∀ u x fu, fin !! u = Some fu → (u, x) ∈ rels →
              ∃ dx, dist_at tbl x dx ∧ (dx < fu)%Z
}.

(** From one table of [dfs] to a later one: an entry is as it was, or it
    was white and is black. *)
Definition dfs_chg `{Countable V} (tbl : gmap V (Props.t V)) (fin : gmap V Z)
    (tbl' : gmap V (Props.t V)) (fin' : gmap V Z) : Prop :=
  ∀ x, (tbl' !! x = tbl !! x ∧ fin' !! x = fin !! x) ∨
       (∃ p p', tbl !! x = Some p ∧ Props.color p = WHITE ∧
                tbl' !! x = Some p' ∧ Props.color p' = BLACK).

(** The table [dfs] returns: every vertex is black, with a discovery time
    (kept under ['distance']) and a later finishing time between 1 and twice
    the number of distinct vertices; no two vertices were discovered at the
    same time; a parent is joined to its child by a relation, was discovered
    before it and finished after it; the spans from discovery to finish
    of two vertices are disjoint or nested; and a relation ends at a vertex
    discovered before the vertex it starts at finished. *)
Definition dfs_finished `{Countable V} (vs : list V) (rels : list (V * V))
    (st : dfs_table V) : Prop :=
  let '(tbl, fin) := st in
  (∀ v, is_Some (tbl !! v) ↔ v ∈ vs) ∧
  (∀ v p, tbl !! v = Some p →
     Props.color p = BLACK ∧
     ∃ d f, Props.distance p = Fin d ∧ fin !! v = Some f ∧
            (1 ≤ d)%Z ∧ (d < f)%Z ∧
            (f ≤ 2 * Z.of_nat (size (list_to_set vs : gset V)))%Z) ∧
  (∀ v v' d, dist_at tbl v d → dist_at tbl v' d → v = v') ∧
  (∀ v p u, tbl !! v = Some p → Props.parent p = Some u →
     (u, v) ∈ rels ∧
     ∃ du dv fu fv, dist_at tbl u du ∧ dist_at tbl v dv ∧
                    fin !! u = Some fu ∧ fin !! v = Some fv ∧
                    (du < dv)%Z ∧ (fv < fu)%Z) ∧
  (∀ x y dx dy fx fy, dist_at tbl x dx → dist_at tbl y dy →
     fin !! x = Some fx → fin !! y = Some fy → (dx < dy)%Z →
     (fx < dy)%Z ∨ (fy < fx)%Z) ∧
  (∀ u v, (u, v) ∈ rels →
     ∃ dv fu, dist_at tbl v dv ∧ fin !! u = Some fu ∧ (dv < fu)%Z).

(** ** Grids *)

(** The number in the cell [c] of the grid, where there is one. *)
Definition cell_value (labyrinth : list (list Z)) (c : nat * nat)
    : option Z :=
  labyrinth !! c.1 ≫= λ row, row !! c.2.

(** The cell [c] is in the grid and is no wall. *)
Definition open_cell (labyrinth : list (list Z)) (c : nat * nat) : Prop :=
  ∃ x, cell_value labyrinth c = Some x ∧ x ≠ 0%Z.

(** Two cells side by side, in a row or in a column. *)
Definition adjacent (a b : nat * nat) : Prop :=
  (a.1 = b.1 ∧ (a.2 = S b.2 ∨ b.2 = S a.2)) ∨
  (a.2 = b.2 ∧ (a.1 = S b.1 ∨ b.1 = S a.1)).

(** [moves labyrinth a b k]: [k] moves, each from an open cell to an open
    cell beside it, lead from [a] to [b]. *)
Inductive moves (labyrinth : list (list Z))
    : nat * nat → nat * nat → nat → Prop :=
  | moves_nil c : moves labyrinth c c 0
  | moves_cons a b c k :
      open_cell labyrinth a → open_cell labyrinth b → adjacent a b →
      moves labyrinth b c k → moves labyrinth a c (S k).

(** What the loops of [convert_to_graph] keep of their two lists, [covered]
    being the cells already seen. *)
Definition convert_inv (labyrinth : list (list Z))
    (covered : nat * nat → Prop)
    (st : list (nat * nat) * list ((nat * nat) * (nat * nat))) : Prop :=
  (∀ c, c ∈ st.1 ↔ covered c ∧ open_cell labyrinth c) ∧
  (∀ a b, (a, b) ∈ st.2 ↔
     covered a ∧ open_cell labyrinth a ∧ open_cell labyrinth b ∧
     adjacent a b).

(** * Proofs *)

#[export] Instance nat_pyordlaws : PyOrdLaws nat.
Proof.
  split; simpl; intros.
  - apply Nat.eqb_refl.
  - apply Nat.ltb_lt in H. apply Nat.ltb_ge. lia.
  - apply Nat.ltb_lt in H, H0. apply Nat.ltb_lt. lia.
  - apply Nat.ltb_ge in H, H0. apply Nat.ltb_ge. lia.
Qed.

#[export] Instance Z_pyordlaws : PyOrdLaws Z.
Proof.
  split; simpl; intros.
  - apply Z.eqb_refl.
  - apply Z.ltb_lt in H. apply Z.ltb_ge. lia.
  - apply Z.ltb_lt in H, H0. apply Z.ltb_lt. lia.
  - apply Z.ltb_ge in H, H0. apply Z.ltb_ge. lia.
Qed.

Lemma parent_left i : parent (left i) = i.
Proof.
  unfold parent, left. replace (2 * i + 1 - 1) with (i * 2) by lia.
  apply Nat.div_mul. lia.
Qed.

Lemma parent_right i : parent (right i) = i.
Proof.
  unfold parent, right. replace (2 * (i + 1) - 1) with (1 + i * 2) by lia.
  rewrite Nat.div_add by lia. reflexivity.
Qed.

Lemma child_of_parent i : 0 < i → i = left (parent i) ∨ i = right (parent i).
Proof.
  intros Hi. unfold left, right, parent.
  pose proof (Nat.div_mod_eq (i - 1) 2) as E.
  pose proof (Nat.mod_upper_bound (i - 1) 2) as B.
  lia.
Qed.

Section SwapFacts.
Context {A : Type}.
Implicit Types d : list A.

Lemma swap_length d i j : length (swap d i j) = length d.
Proof.
  unfold swap. destruct (d !! i), (d !! j); try done.
  by rewrite !length_insert.
Qed.

Lemma swap_perm d i j : swap d i j ≡ₚ d.
Proof.
  unfold swap. destruct (d !! i) eqn:Ei, (d !! j) eqn:Ej; try done.
  by apply Permutation_insert_swap.
Qed.

Lemma swap_lookup_l d i j a b :
  d !! i = Some a → d !! j = Some b → swap d i j !! i = Some b.
Proof.
  intros Ei Ej. unfold swap. rewrite Ei, Ej.
  destruct (decide (i = j)) as [->|Hne].
  - rewrite list_lookup_insert_eq; [congruence|].
    rewrite length_insert. by eapply lookup_lt_Some.
  - rewrite list_lookup_insert_ne by done.
    rewrite list_lookup_insert_eq; [done|]. by eapply lookup_lt_Some.
Qed.

Lemma swap_lookup_r d i j a b :
  d !! i = Some a → d !! j = Some b → swap d i j !! j = Some a.
Proof.
  intros Ei Ej. unfold swap. rewrite Ei, Ej.
  rewrite list_lookup_insert_eq; [done|].
  rewrite length_insert. by eapply lookup_lt_Some.
Qed.

Lemma swap_lookup_ne d i j k : k ≠ i → k ≠ j → swap d i j !! k = d !! k.
Proof.
  intros Hi Hj. unfold swap. destruct (d !! i), (d !! j); try done.
  by rewrite !list_lookup_insert_ne.
Qed.
End SwapFacts.

Section SiftFacts.
Context {A : Type} (r : A → A → bool) (Hr : strict_weak r).
Implicit Types d : list A.

Lemma sw_irrefl x : r x x = false.
Proof.
  destruct (r x x) eqn:E; [|done].
  pose proof (sw_asym r Hr _ _ E). congruence.
Qed.

Lemma swap_lookup d c i x y p :
  d !! i = Some x → d !! c = Some y →
  swap d c i !! p =
    d !! (if decide (p = i) then c else if decide (p = c) then i else p).
Proof.
  intros Ei Ec. repeat case_decide; subst.
  - rewrite Ec. eapply swap_lookup_r; eauto.
  - rewrite Ei. eapply swap_lookup_l; eauto.
  - by apply swap_lookup_ne.
Qed.

Lemma sift_length fuel : ∀ d i, length (sift_fuel r fuel d i) = length d.
Proof.
  induction fuel as [|fuel IH]; intros d i; simpl; [done|].
  case_match; [|done]. by rewrite IH, swap_length.
Qed.

Lemma sift_perm fuel : ∀ d i, sift_fuel r fuel d i ≡ₚ d.
Proof.
  induction fuel as [|fuel IH]; intros d i; simpl; [done|].
  case_match; [|done]. by rewrite IH, swap_perm.
Qed.

Lemma rel_at_oob_r d i j : length d ≤ j → rel_at r d i j = false.
Proof.
  intros Hj. unfold rel_at. rewrite (lookup_ge_None_2 d j) by lia.
  by destruct (d !! i).
Qed.

Lemma sift_best_stay d i :
  sift_best r d i = i →
  rel_at r d i (left i) = false ∧ rel_at r d i (right i) = false.
Proof.
  unfold sift_best. intros Hb.
  assert (left i ≠ i ∧ right i ≠ i) as [? ?] by (unfold left, right; lia).
  destruct (left i <? length d) eqn:El; simpl in Hb.
  - destruct (rel_at r d i (left i)) eqn:E1; simpl in Hb.
    + destruct ((right i <? length d) && rel_at r d (left i) (right i));
        congruence.
    + split; [done|].
      destruct (right i <? length d) eqn:Er; simpl in Hb.
      * destruct (rel_at r d i (right i)); [congruence|done].
      * apply rel_at_oob_r. by apply Nat.ltb_ge.
  - apply Nat.ltb_ge in El. split; apply rel_at_oob_r;
      unfold left, right in *; lia.
Qed.

Lemma sift_best_move d i :
  sift_best r d i ≠ i →
  let c := sift_best r d i in
  (c = left i ∨ c = right i) ∧ rel_at r d i c = true ∧
  rel_at r d c (left i) = false ∧ rel_at r d c (right i) = false.
Proof.
  unfold sift_best. intros Hb.
  assert (Hself : ∀ j, rel_at r d j j = false).
  { intros j. unfold rel_at. destruct (d !! j); [apply sw_irrefl|done]. }
  destruct (left i <? length d) eqn:El; simpl in *.
  - destruct (rel_at r d i (left i)) eqn:E1; simpl in *.
    + destruct (right i <? length d) eqn:Er; simpl in *.
      * destruct (rel_at r d (left i) (right i)) eqn:E2; simpl in *.
        -- split; [by right|]. unfold rel_at in *.
           destruct (d !! i), (d !! left i), (d !! right i); try done.
           repeat split.
           ++ eapply sw_trans; eauto.
           ++ by apply (sw_asym r Hr).
           ++ apply sw_irrefl.
        -- split; [by left|]. repeat split; auto.
      * split; [by left|]. repeat split; auto.
        apply rel_at_oob_r. by apply Nat.ltb_ge.
    + destruct (right i <? length d) eqn:Er; simpl in *; [|done].
      destruct (rel_at r d i (right i)) eqn:E2; simpl in *; [|done].
      split; [by right|]. repeat split; auto.
      unfold rel_at in *.
      destruct (d !! i), (d !! left i), (d !! right i); try done.
      destruct (r a1 a0) eqn:E3; [|done].
      pose proof (sw_trans r Hr _ _ _ E2 E3). congruence.
  - destruct (right i <? length d) eqn:Er; simpl in *; [|done].
    apply Nat.ltb_ge in El. apply Nat.ltb_lt in Er.
    unfold left, right in *. lia.
Qed.

Lemma rel_at_swap d c i x y p q :
  d !! i = Some x → d !! c = Some y →
  rel_at r (swap d c i) p q =
    rel_at r d
      (if decide (p = i) then c else if decide (p = c) then i else p)
      (if decide (q = i) then c else if decide (q = c) then i else q).
Proof.
  intros Ei Ec. unfold rel_at at 1.
  by rewrite !(swap_lookup d c i x y) by done.
Qed.

Lemma sift_heap fuel : ∀ d i k,
  length d - i ≤ fuel → k ≤ i → sift_pre r k i d →
  heap_from r k (sift_fuel r fuel d i).
Proof.
  induction fuel as [|fuel IH]; intros d i k Hfuel Hk [Hpre1 Hpre2].
  - simpl. intros j Hj. destruct (decide (j = i)) as [->|Hne]; [|auto].
    split; apply rel_at_oob_r; unfold left, right; lia.
  - simpl. fold (sift_best r d i).
    destruct (decide (sift_best r d i = i)) as [Hb|Hb].
    + rewrite Hb, Nat.eqb_refl. simpl.
      intros j Hj. destruct (decide (j = i)) as [->|Hne]; [|auto].
      by apply sift_best_stay.
    + apply Nat.eqb_neq in Hb as Hb'. rewrite Hb'. simpl.
      destruct (sift_best_move d i Hb) as (Hc & Hic & Hcl & Hcr).
      set (c := sift_best r d i) in *.
      assert (∃ x y, d !! i = Some x ∧ d !! c = Some y ∧ r x y = true)
        as (x & y & Ei & Ec & Hxy).
      { unfold rel_at in Hic. destruct (d !! i), (d !! c); try done. eauto. }
      assert (c < length d) by (by eapply lookup_lt_Some).
      assert (i < c) by (unfold left, right in Hc; lia).
      assert (Hci : rel_at r d c i = false).
      { unfold rel_at. rewrite Ec, Ei. by apply (sw_asym r Hr). }
      clearbody c.
      assert (Hinj : ∀ j, c = left j ∨ c = right j → j = i)
        by (intros j; unfold left, right in *; lia).
      apply IH.
      * rewrite swap_length. lia.
      * lia.
      * split.
        -- intros j Hj Hjc.
           rewrite !(rel_at_swap d c i x y) by done.
           assert (left j ≠ j ∧ right j ≠ j ∧ left j ≠ right j)
             as (? & ? & ?) by (unfold left, right; lia).
           destruct (decide (j = i)) as [->|Hji].
           ++ destruct Hc as [->| ->];
                repeat case_decide; try done; auto.
           ++ assert (left j ≠ c) by (intros E; apply Hji, Hinj; auto).
              assert (right j ≠ c) by (intros E; apply Hji, Hinj; auto).
              destruct (Hpre1 j Hj Hji) as [Hl Hr'].
              split; repeat case_decide; try done.
              ** match goal with E : left j = i |- _ =>
                   destruct (Hpre2 j Hj (or_introl (eq_sym E))) end.
                 by destruct Hc as [->| ->].
              ** match goal with E : right j = i |- _ =>
                   destruct (Hpre2 j Hj (or_intror (eq_sym E))) end.
                 by destruct Hc as [->| ->].
        -- intros j Hj Hcj. apply Hinj in Hcj as ->.
           rewrite !(rel_at_swap d c i x y) by done.
           assert (left c ≠ i ∧ left c ≠ c ∧ right c ≠ i ∧ right c ≠ c)
             as (? & ? & ? & ?) by (unfold left, right in *; lia).
           repeat case_decide; try done.
           apply Hpre1; lia.
Qed.
End SiftFacts.

Section OrderFacts.
Context {A : Type} (r : A → A → bool) (Hr : strict_weak r).
Implicit Types d : list A.

Lemma heap_from_ordered d : heap_from r 0 d ↔ heap_ordered r d.
Proof.
  split.
  - intros Hf i [Hi _]. destruct (Hf (parent i)) as [Hl Hrt]; [unfold parent; lia|].
    destruct (child_of_parent i Hi) as [E|E]; rewrite E at 2; done.
  - intros Ho i _.
    assert (∀ c, parent c = i → 0 < c → rel_at r d i c = false) as Hc.
    { intros c <- Hc. destruct (decide (c < length d)).
      - apply Ho. lia.
      - apply rel_at_oob_r. lia. }
    split; apply Hc; rewrite ?parent_left, ?parent_right;
      unfold left, right; lia.
Qed.

Lemma heap_from_leaves d k : length d ≤ 2 * k → heap_from r k d.
Proof.
  intros Hk i Hi. split; apply rel_at_oob_r; unfold left, right; lia.
Qed.

(** The root is extreme: nothing in the list has to go above it. *)
Lemma heap_ordered_root d a :
  heap_ordered r d → d !! 0 = Some a →
  ∀ j b, d !! j = Some b → r a b = false.
Proof.
  intros Ho Ha j. induction (lt_wf j) as [j _ IH]. intros b Hb.
  destruct (decide (j = 0)) as [->|Hj].
  - rewrite Ha in Hb. injection Hb as ->. by apply sw_irrefl.
  - assert (Hlt : j < length d) by (by eapply lookup_lt_Some).
    assert (Hp : parent j < j).
    { unfold parent. pose proof (Nat.div_mod_eq (j - 1) 2). lia. }
    destruct (lookup_lt_is_Some_2 d (parent j)) as [p Hpj]; [lia|].
    eapply (sw_negtrans r Hr a p b).
    + by eapply IH.
    + specialize (Ho j ltac:(lia)). unfold rel_at in Ho.
      by rewrite Hpj, Hb in Ho.
Qed.


Lemma build_loop_heap m : ∀ d,
  heap_from r m d → heap_from r 0 (foldl (sift r) d (rev (seq 0 m))).
Proof.
  induction m as [|m IH]; intros d Hd; [done|].
  rewrite seq_S, rev_unit. simpl. apply IH.
  apply sift_heap; [done|lia|lia|]. split.
  - intros j Hj Hne. apply Hd. lia.
  - intros j Hj Hc. unfold left, right in Hc. lia.
Qed.

Lemma build_loop_perm l : ∀ d, foldl (sift r) d l ≡ₚ d.
Proof.
  induction l as [|i l IH]; intros d; simpl; [done|].
  rewrite IH. apply sift_perm.
Qed.

Lemma build_loop_ordered d :
  heap_ordered r (foldl (sift r) d (build_range (length d))).
Proof.
  apply heap_from_ordered, build_loop_heap, heap_from_leaves.
  pose proof (Nat.div_mod_eq (length d) 2).
  pose proof (Nat.mod_upper_bound (length d) 2). lia.
Qed.
End OrderFacts.

Section Bridge.
Context {A : Type} `{PyOrd A}.

Lemma max_heapify_fuel_sift fuel : ∀ (d : list A) i,
  max_heapify_fuel fuel d i = sift_fuel py_lt fuel d i.
Proof.
  induction fuel as [|fuel IH]; intros d i; [done|].
  simpl. rewrite IH. reflexivity.
Qed.

Lemma lt_at_flip (d : list A) i j :
  lt_at d j i = rel_at (λ a b, py_lt b a) d i j.
Proof. unfold lt_at, rel_at. by destruct (d !! i), (d !! j). Qed.

Lemma min_heapify_fuel_sift fuel : ∀ (d : list A) i,
  GraphHeapPQ.min_heapify_fuel fuel d i =
  sift_fuel (λ a b, py_lt b a) fuel d i.
Proof.
  induction fuel as [|fuel IH]; intros d i; [done|].
  simpl. rewrite IH, !lt_at_flip. reflexivity.
Qed.

Lemma heapify_data_graph cfg (d : list A) i :
  heapify_data GraphHeapPQ.min_heapify cfg d i = sift (violates cfg) d i.
Proof.
  unfold heapify_data, sift, max_heapify, GraphHeapPQ.min_heapify.
  destruct cfg; [apply max_heapify_fuel_sift|apply min_heapify_fuel_sift].
Qed.

Lemma heapify_data_hpq (d : list A) i :
  heapify_data HeapPriorityQueue.min_heapify true d i =
  sift (violates true) d i.
Proof. apply max_heapify_fuel_sift. Qed.

Context `{!PyOrdLaws A}.

Lemma violates_strict_weak cfg : strict_weak (violates (A:=A) cfg).
Proof.
  destruct cfg; split; simpl; intros.
  - by apply py_lt_asym.
  - by eapply py_lt_trans.
  - by eapply py_lt_negtrans.
  - by apply py_lt_asym.
  - by eapply py_lt_trans.
  - by eapply py_lt_negtrans.
Qed.
End Bridge.

Section BuildFacts.
Context {A : Type} `{PyOrdLaws A}.
Variable min_heapify : list A → nat → list A.
Variable cfg : bool.
Hypothesis Himpl : ∀ d i,
  heapify_data min_heapify cfg d i = sift (violates cfg) d i.

Lemma foldl_heapify l : ∀ h, config h = cfg →
  foldl (heapify min_heapify) h l =
  mkHeap (foldl (sift (violates cfg)) (data h) l) cfg.
Proof.
  induction l as [|i l IH]; intros [d c] Hc; simpl in *; subst.
  - done.
  - rewrite <- Himpl. unfold heapify at 2; simpl.
    rewrite IH by (by destruct cfg).
    unfold heapify_data. by destruct cfg.
Qed.

Lemma build_eq h nd : config h = cfg →
  build min_heapify h nd =
  mkHeap (foldl (sift (violates cfg)) (build_input h nd)
            (build_range (length (build_input h nd)))) cfg.
Proof.
  intros Hc. unfold build, build_input.
  destruct nd; by rewrite foldl_heapify.
Qed.

Lemma build_config h nd :
  config h = cfg → config (build min_heapify h nd) = cfg.
Proof. intros Hc. by rewrite build_eq. Qed.

Lemma build_heap_ok h nd :
  config h = cfg → heap_ok (build min_heapify h nd).
Proof.
  intros Hc. rewrite build_eq by done. unfold heap_ok. simpl.
  apply build_loop_ordered, violates_strict_weak.
Qed.

Lemma build_perm h nd :
  config h = cfg → data (build min_heapify h nd) ≡ₚ build_input h nd.
Proof.
  intros Hc. rewrite build_eq by done. simpl. apply build_loop_perm.
Qed.

Lemma Heap_init_ok d :
  heap_ok (Heap_init min_heapify d cfg) ∧
  config (Heap_init min_heapify d cfg) = cfg ∧
  data (Heap_init min_heapify d cfg) ≡ₚ d.
Proof.
  unfold Heap_init. split; [by apply build_heap_ok|].
  split; [by apply build_config|].
  rewrite build_perm by done. by destruct d.
Qed.

Lemma insert_ok h x : config h = cfg →
  heap_ok (insert min_heapify h x) ∧
  config (insert min_heapify h x) = cfg ∧
  data (insert min_heapify h x) ≡ₚ x :: data h.
Proof.
  intros Hc. unfold insert. split; [by apply build_heap_ok|].
  split; [by apply build_config|].
  rewrite build_perm by done. simpl.
  by rewrite Permutation_app_comm.
Qed.

Lemma delete_ok h x : config h = cfg → heap_ok h →
  heap_ok (snd (delete min_heapify h x)) ∧
  config (snd (delete min_heapify h x)) = cfg.
Proof.
  intros Hc Hok. unfold delete.
  destruct (length (data h) =? 0); [done|].
  destruct (negb (contains (data h) x)); [done|]. simpl.
  split; [by apply build_heap_ok|by apply build_config].
Qed.
End BuildFacts.

Section RunFacts.
Context {A : Type} `{PyOrdLaws A}.
Variable min_heapify : list A → nat → list A.
Variable cfg : bool.
Hypothesis Himpl : ∀ d i,
  heapify_data min_heapify cfg d i = sift (violates cfg) d i.

Lemma enqueue_all_ok l : ∀ q, config q = cfg → heap_ok q →
  heap_ok (enqueue_all min_heapify q l) ∧
  config (enqueue_all min_heapify q l) = cfg ∧
  data (enqueue_all min_heapify q l) ≡ₚ data q ++ l.
Proof.
  induction l as [|x l IH]; intros q Hc Hq; simpl.
  - by rewrite app_nil_r.
  - destruct (insert_ok min_heapify cfg Himpl q x Hc) as (Hok & Hc' & Hp).
    destruct (IH _ Hc' Hok) as (? & ? & Hp').
    split; [done|]. split; [done|].
    rewrite Hp'. unfold enqueue. rewrite Hp.
    simpl. apply Permutation_middle.
Qed.

Lemma dequeue_n_sorted n : ∀ q,
  config q = cfg → heap_ok q → length (data q) = n →
  ∃ out, dequeue_n min_heapify n q = (Ret out, mkHeap [] cfg) ∧
         out ≡ₚ data q ∧ sorted_for cfg out.
Proof.
  induction n as [|n IH]; intros [d c] Hc Hq Hn; simpl in *; subst c.
  - destruct d; [|done]. exists []. repeat split; [done|constructor].
  - destruct d as [|x d]; [done|].
    unfold dequeue, delete, peek. simpl.
    rewrite py_eq_refl. simpl.
    set (q' := build min_heapify {| data := d; config := cfg |} []).
    assert (Hok' : heap_ok q') by (by apply (build_heap_ok _ cfg Himpl)).
    assert (Hc' : config q' = cfg) by (by apply (build_config _ cfg Himpl)).
    assert (Hp' : data q' ≡ₚ d) by (by apply (build_perm _ cfg Himpl)).
    destruct (IH q' Hc' Hok') as (out & -> & Hperm & Hs).
    { rewrite Hp'. simpl in Hn. lia. }
    exists (x :: out). split; [done|]. split.
    + by rewrite Hperm, Hp'.
    + constructor; [done|].
      apply Forall_forall. intros b Hb.
      rewrite Hperm, Hp' in Hb.
      apply list_elem_of_lookup in Hb as [j Hj].
      eapply (heap_ordered_root _ (violates_strict_weak cfg) (x :: d) x Hq
                eq_refl (S j)); done.
Qed.

Lemma dequeue_after_enqueue l :
  ∃ out,
    dequeue_n min_heapify (length l)
      (enqueue_all min_heapify (PriorityQueue_init min_heapify [] cfg) l)
    = (Ret out, mkHeap [] cfg) ∧
    out ≡ₚ l ∧ sorted_for cfg out.
Proof.
  destruct (Heap_init_ok min_heapify cfg Himpl []) as (Hok & Hc & Hp).
  destruct (enqueue_all_ok l _ Hc Hok) as (Hok' & Hc' & Hp').
  apply Permutation_nil_r in Hp. unfold PriorityQueue_init in *.
  rewrite Hp in Hp'. simpl in Hp'.
  destruct (dequeue_n_sorted (length l) _ Hc' Hok') as (out & E & Hperm & Hs).
  { by rewrite Hp'. }
  exists out. split; [done|]. split; [by rewrite Hperm|done].
Qed.

Variable update : Heap A → A → A → outcome unit * Heap A.

Lemma run_ops_ok (allowed : heap_op A → Prop) ops :
  (∀ h op, allowed op → config h = cfg → heap_ok h →
     heap_ok (snd (apply_op min_heapify update h op)) ∧
     config (snd (apply_op min_heapify update h op)) = cfg) →
  Forall allowed ops →
  ∀ h, config h = cfg → heap_ok h →
  heap_ok (run_ops min_heapify update h ops).
Proof.
  intros Hstep Hall. induction Hall as [|op ops Hop _ IH]; intros h Hc Hok.
  - done.
  - simpl. destruct (Hstep h op Hop Hc Hok). by apply IH.
Qed.
End RunFacts.

Section MisuseFacts.
Context {A : Type} `{PyOrd A}.

Lemma index_of_None (d : list A) x :
  index_of d x = None ↔ contains d x = false.
Proof.
  induction d as [|y d IH]; simpl; [done|].
  destruct (py_eq y x); simpl; [done|].
  rewrite <- IH. destruct (index_of d x); simpl; split; congruence.
Qed.

Lemma delete_raises mh (h : Heap A) x e :
  fst (delete mh h x) = Raise e ↔
    (data h = [] ∧ e = EmptyHeap) ∨
    (data h ≠ [] ∧ contains (data h) x = false ∧ e = ElementNotFound).
Proof.
  unfold delete. destruct (data h) as [|y d] eqn:Ed.
  - simpl. split; [intros [= <-]; by left|].
    intros [[_ ->]|[? _]]; congruence.
  - change (length (y :: d) =? 0) with false. cbv iota.
    destruct (contains (y :: d) x) eqn:Ec; cbn [negb fst].
    + split; [done|]. intros [[? _]|(_ & ? & _)]; congruence.
    + split; [intros [= <-]; by right|].
      intros [[? _]|(_ & _ & ->)]; congruence.
Qed.

Lemma delete_raises_unchanged mh (h : Heap A) x e :
  fst (delete mh h x) = Raise e → snd (delete mh h x) = h.
Proof.
  unfold delete. destruct (length (data h) =? 0); [done|].
  by destruct (negb (contains (data h) x)).
Qed.
End MisuseFacts.

(** C8, as amended.  [delete] raises [EmptyHeap] exactly when the heap holds
    no element, and [ElementNotFound] exactly when it holds some but none
    equal to the value; [peek] raises exactly when the heap holds no element,
    and what it raises is the interpreter's [IndexError].  A [delete] that
    raises leaves the heap as it was.  The [update] of heap_priority_queue.py
    (delete, then insert) raises as its [delete] does and then leaves the heap
    as it was.  The [update] of graph_heap_pq.py never raises: for a value
    equal to no stored element it catches the [ValueError] and returns with
    the heap unchanged. *)
Theorem heap_misuse_errors {A} `{PyOrd A} (mh : list A → nat → list A)
    (h : Heap A) (x new : A) :
  (∀ e, peek h = Raise e ↔ data h = [] ∧ e = IndexError) ∧
  (∀ e, fst (delete mh h x) = Raise e ↔
     (data h = [] ∧ e = EmptyHeap) ∨
     (data h ≠ [] ∧ contains (data h) x = false ∧ e = ElementNotFound)) ∧
  (∀ e, fst (delete mh h x) = Raise e → snd (delete mh h x) = h) ∧
  (∀ e, fst (HeapPriorityQueue.update h x new) = Raise e ↔
     (data h = [] ∧ e = EmptyHeap) ∨
     (data h ≠ [] ∧ contains (data h) x = false ∧ e = ElementNotFound)) ∧
  (∀ e, fst (HeapPriorityQueue.update h x new) = Raise e →
     snd (HeapPriorityQueue.update h x new) = h) ∧
  fst (GraphHeapPQ.update h x new) = Ret tt ∧
  (contains (data h) x = false → GraphHeapPQ.update h x new = (Ret tt, h)).
Proof.
  split_and!.
  - intros e. unfold peek. destruct (data h); split.
    + by intros [= <-].
    + by intros [_ ->].
    + done.
    + by intros [? _].
  - apply delete_raises.
  - apply delete_raises_unchanged.
  - intros e. rewrite <- (delete_raises HeapPriorityQueue.min_heapify).
    unfold HeapPriorityQueue.update, HeapPriorityQueue.delete.
    by destruct (delete _ h x) as [[[]|e'|] h'].
  - intros e. unfold HeapPriorityQueue.update, HeapPriorityQueue.delete.
    pose proof (delete_raises_unchanged HeapPriorityQueue.min_heapify h x) as Hd.
    destruct (delete _ h x) as [[[]|e'|] h']; simpl in *; [done| |done].
    intros _. by apply (Hd e').
  - unfold GraphHeapPQ.update. by destruct (index_of (data h) x).
  - intros Hc. unfold GraphHeapPQ.update.
    by rewrite (proj2 (index_of_None _ _) Hc).
Qed.

Lemma heap_misuse_errors_witness :
  GraphHeapPQ.update (mkHeap [1%Z] true) 5%Z 7%Z = (Ret tt, mkHeap [1%Z] true).
Proof.
  apply (heap_misuse_errors GraphHeapPQ.min_heapify (mkHeap [1%Z] true) 5%Z 7%Z).
  reflexivity.
Defined.

Lemma heap_misuse_update_counterexample :
  contains (data (mkHeap [1%Z] true)) 5%Z = false ∧
  ¬ ∃ e, fst (GraphHeapPQ.update (mkHeap [1%Z] true) 5%Z 7%Z) = Raise e.
Proof. split; [reflexivity|]. intros [e He]. discriminate He. Qed.

(** C2, as amended.  For elements whose [<] is a strict weak order: after
    any sequence of [insert] and [delete] calls on a heap of graph_heap_pq.py,
    max or min, and after any sequence of [insert], [delete] and [update]
    calls on a max-heap of heap_priority_queue.py, every non-root index [i] is
    in the configured order with its parent at [(i - 1) / 2] (no [parent <
    child] in a max-heap, no [child < parent] in a min-heap).  The theorem
    says nothing of the [update] of graph_heap_pq.py, and the min
    configuration of heap_priority_queue.py, whose [min_heapify] is a
    placeholder, is left out. *)
Theorem heap_invariant_after_ops {A} `{PyOrdLaws A} (init : list A)
    (cfg : bool) (ops_g ops_h : list (heap_op A)) :
  Forall (λ op, is_update op = false) ops_g →
  heap_ok (run_ops GraphHeapPQ.min_heapify GraphHeapPQ.update
             (GraphHeapPQ.Heap_init init cfg) ops_g) ∧
  heap_ok (run_ops HeapPriorityQueue.min_heapify HeapPriorityQueue.update
             (HeapPriorityQueue.Heap_init init true) ops_h).
Proof.
  intros Hops. split.
  - destruct (Heap_init_ok _ cfg (heapify_data_graph cfg) init) as (Hok & Hc & _).
    eapply (run_ops_ok _ cfg); [| exact Hops | exact Hc | exact Hok].
    intros h [x|x|old new] Hop Hcfg Hh; simpl; [| |done].
    + destruct (insert_ok _ cfg (heapify_data_graph cfg) h x Hcfg) as (? & ? & _).
      done.
    + by apply (delete_ok _ cfg (heapify_data_graph cfg)).
  - destruct (Heap_init_ok _ true heapify_data_hpq init) as (Hok & Hc & _).
    eapply (run_ops_ok _ true _ (λ _, True));
      [| by apply Forall_true | exact Hc | exact Hok].
    intros h [x|x|old new] _ Hcfg Hh; simpl.
    + destruct (insert_ok _ true heapify_data_hpq h x Hcfg) as (? & ? & _).
      done.
    + by apply (delete_ok _ true heapify_data_hpq).
    + unfold HeapPriorityQueue.update, HeapPriorityQueue.delete.
      pose proof (delete_ok _ true heapify_data_hpq h old Hcfg Hh) as [Hd1 Hd2].
      destruct (delete _ h old) as [[[]|e'|] h']; simpl in *; try done.
      destruct (insert_ok _ true heapify_data_hpq h' new Hd2) as (? & ? & _).
      done.
Qed.

Lemma heap_invariant_after_ops_witness :
  heap_ok (run_ops GraphHeapPQ.min_heapify GraphHeapPQ.update
             (GraphHeapPQ.Heap_init [3; 1; 2]%Z false)
             [OpInsert 0%Z; OpDelete 3%Z; OpDelete 8%Z]) ∧
  heap_ok (run_ops HeapPriorityQueue.min_heapify HeapPriorityQueue.update
             (HeapPriorityQueue.Heap_init [3; 1; 2]%Z true)
             [OpInsert 5%Z; OpUpdate 1%Z 9%Z; OpDelete 7%Z]).
Proof.
  apply (heap_invariant_after_ops (A:=Z)).
  repeat constructor.
Defined.

Lemma heap_invariant_counterexample :
  ¬ heap_ok (run_ops HeapPriorityQueue.min_heapify HeapPriorityQueue.update
               (HeapPriorityQueue.Heap_init [] false)
               [OpInsert 2%Z; OpInsert 1%Z]).
Proof.
  intros Hok. specialize (Hok 1). vm_compute in Hok.
  discriminate Hok. split; constructor.
Qed.

(** C4, as amended.  For every list [l] of elements whose [<] is a strict
    weak order, enqueuing them in the order of [l] into an empty queue and
    dequeuing [len(l)] times returns a permutation of [l] in sorted order and
    leaves the queue empty: with the queue of graph_heap_pq.py descending for
    [config = True] and ascending for [config = False], with the queue of
    heap_priority_queue.py descending for [config = True].  The min
    configuration of heap_priority_queue.py is left out: its [min_heapify] is
    a placeholder. *)
Theorem dequeue_order {A} `{PyOrdLaws A} (l : list A) (cfg : bool) :
  (∃ out,
     dequeue_n GraphHeapPQ.min_heapify (length l)
       (enqueue_all GraphHeapPQ.min_heapify
          (PriorityQueue_init GraphHeapPQ.min_heapify [] cfg) l)
     = (Ret out, mkHeap [] cfg) ∧
     out ≡ₚ l ∧ sorted_for cfg out) ∧
  (∃ out,
     dequeue_n HeapPriorityQueue.min_heapify (length l)
       (enqueue_all HeapPriorityQueue.min_heapify
          (PriorityQueue_init HeapPriorityQueue.min_heapify [] true) l)
     = (Ret out, mkHeap [] true) ∧
     out ≡ₚ l ∧ sorted_for true out).
Proof.
  split.
  - apply dequeue_after_enqueue, (heapify_data_graph cfg).
  - apply dequeue_after_enqueue, heapify_data_hpq.
Qed.

Lemma dequeue_order_witness :
  ∃ out,
    dequeue_n GraphHeapPQ.min_heapify 3
      (enqueue_all GraphHeapPQ.min_heapify
         (PriorityQueue_init GraphHeapPQ.min_heapify [] false) [3; 1; 2]%Z)
    = (Ret out, mkHeap [] false) ∧
    out ≡ₚ [3; 1; 2]%Z ∧ sorted_for false out.
Proof. exact (proj1 (dequeue_order [3; 1; 2]%Z false)). Defined.

Lemma dequeue_order_counterexample :
  dequeue_n HeapPriorityQueue.min_heapify 2
    (enqueue_all HeapPriorityQueue.min_heapify
       (PriorityQueue_init HeapPriorityQueue.min_heapify [] false) [2; 1]%Z)
  = (Ret [2; 1]%Z, mkHeap [] false) ∧
  ¬ sorted_for false [2; 1]%Z.
Proof.
  split; [reflexivity|]. intros Hs.
  apply StronglySorted_inv in Hs as [_ Hs].
  apply Forall_inv in Hs. discriminate Hs.
Qed.

(** The slip that C2 as amended leaves out and C1 rests on: the [update] of
    graph_heap_pq.py sifts down only, so a key lowered in a min-heap stays
    below its parent. *)
Lemma graph_update_breaks_order :
  heap_ok (GraphHeapPQ.Heap_init [1; 2; 3]%Z false) ∧
  GraphHeapPQ.update (GraphHeapPQ.Heap_init [1; 2; 3]%Z false) 3%Z 0%Z
    = (Ret tt, mkHeap [1; 2; 0]%Z false) ∧
  ¬ heap_ok (mkHeap [1; 2; 0]%Z false).
Proof.
  split_and!.
  - apply (Heap_init_ok _ false (heapify_data_graph false)).
  - reflexivity.
  - intros Hok. specialize (Hok 2). vm_compute in Hok.
    discriminate Hok. split; repeat constructor.
Qed.

Lemma for_each_fmap {A B S} (f : A → B) (body : S → B → outcome S) l : ∀ s,
  for_each body (f <$> l) s = for_each (λ s x, body s (f x)) l s.
Proof.
  induction l as [|x l IH]; intros s; simpl; [done|].
  destruct (body s (f x)); simpl; auto.
Qed.

Lemma for_each_ext {A S} (body1 body2 : S → A → outcome S) l :
  (∀ s x, body1 s x = body2 s x) →
  ∀ s, for_each body1 l s = for_each body2 l s.
Proof.
  intros E. induction l as [|x l IH]; intros s; simpl; [done|].
  rewrite E. destruct (body2 s x); simpl; auto.
Qed.

Section DictFacts.
Context `{Countable K} {A : Type}.

(** [{k: c for k in ks}] built by a loop of assignments. *)
Lemma lookup_fill (c : K → A) ks : ∀ (m : gmap K A) k,
  foldl (λ m k, <[k := c k]> m) m ks !! k =
  if decide (k ∈ ks) then Some (c k) else m !! k.
Proof.
  induction ks as [|k0 ks IH]; intros m k; cbn [foldl].
  - by rewrite decide_False by set_solver.
  - rewrite IH. destruct (decide (k ∈ ks)).
    + by rewrite decide_True by set_solver.
    + destruct (decide (k = k0)) as [->|Hne].
      * rewrite decide_True by set_solver. by rewrite lookup_insert_eq.
      * rewrite decide_False by set_solver. by rewrite lookup_insert_ne.
Qed.

Lemma getitem_Some (m : gmap K A) k a : m !! k = Some a → getitem m k = Ret a.
Proof. unfold getitem. by intros ->. Qed.

Lemma getitem_None (m : gmap K A) k : m !! k = None → getitem m k = Raise KeyError.
Proof. unfold getitem. by intros ->. Qed.

Lemma getitem_Ret (m : gmap K A) k a : getitem m k = Ret a ↔ m !! k = Some a.
Proof. unfold getitem. destruct (m !! k); split; congruence. Qed.
End DictFacts.

Section Encoding.
Context `{Countable V}.
Implicit Types vs : list V.

Lemma enc_fold vs : ∀ enc dec i0,
  ∃ enc' dec',
    foldl enc_step (enc, dec, i0) vs = (enc', dec', i0 + length vs) ∧
    (∀ j, dec' !! j =
          if decide (i0 ≤ j < i0 + length vs) then vs !! (j - i0)
          else dec !! j) ∧
    (∀ v, v ∉ vs → enc' !! v = enc !! v) ∧
    (∀ v, v ∈ vs →
       ∃ i, enc' !! v = Some i ∧ i0 ≤ i < i0 + length vs ∧
            vs !! (i - i0) = Some v).
Proof.
  induction vs as [|v vs IH]; intros enc dec i0; simpl.
  - exists enc, dec. split_and!.
    + f_equal. lia.
    + intros j. by rewrite decide_False by lia.
    + done.
    + intros v Hv. by apply elem_of_nil in Hv.
  - destruct (IH (<[v := i0]> enc) (<[i0 := v]> dec) (i0 + 1))
      as (enc' & dec' & E & Hdec & Hout & Hin).
    exists enc', dec'. split_and!.
    + rewrite E. f_equal. lia.
    + intros j. rewrite Hdec.
      destruct (decide (j = i0)) as [->|Hne].
      * rewrite decide_False by lia. rewrite decide_True by lia.
        rewrite lookup_insert_eq. by rewrite Nat.sub_diag.
      * rewrite lookup_insert_ne by done.
        destruct (decide (i0 + 1 ≤ j < i0 + 1 + length vs)).
        -- rewrite decide_True by lia.
           replace (j - i0) with (S (j - (i0 + 1))) by lia. done.
        -- by rewrite decide_False by lia.
    + intros w Hw. rewrite Hout by set_solver.
      apply lookup_insert_ne. set_solver.
    + intros w Hw. destruct (decide (w ∈ vs)) as [Hws|Hws].
      * destruct (Hin w Hws) as (i & Ei & Hi & Hl).
        exists i. split_and!; [done|lia|lia|].
        replace (i - i0) with (S (i - (i0 + 1))) by lia. done.
      * assert (w = v) as -> by set_solver.
        exists i0. rewrite Hout by done. rewrite lookup_insert_eq.
        split_and!; [done|lia|lia|]. by rewrite Nat.sub_diag.
Qed.

Lemma _buildEncoding_spec vs :
  let enc := (_buildEncoding vs).1 in
  let dec := (_buildEncoding vs).2 in
  (∀ v i, enc !! v = Some i →
     i < length vs ∧ vs !! i = Some v ∧ dec !! i = Some v) ∧
  (∀ v, v ∈ vs ↔ is_Some (enc !! v)) ∧
  (∀ i, i < length vs → dec !! i = vs !! i).
Proof.
  unfold _buildEncoding.
  destruct (enc_fold vs ∅ ∅ 0) as (enc' & dec' & -> & Hdec & Hout & Hin).
  simpl.
  assert (Hd : ∀ i, i < length vs → dec' !! i = vs !! i).
  { intros i Hi. rewrite Hdec. rewrite decide_True by lia.
    by rewrite Nat.sub_0_r. }
  assert (Hmem : ∀ v, v ∈ vs ↔ is_Some (enc' !! v)).
  { intros v. split.
    - intros Hv. destruct (Hin v Hv) as (i & -> & _). eauto.
    - intros [i Hi]. destruct (decide (v ∈ vs)); [done|].
      rewrite Hout in Hi by done. by rewrite lookup_empty in Hi. }
  split_and!; [|done|done].
  intros v i Ei.
  destruct (Hin v) as (i' & Ei' & Hi' & Hl); [apply Hmem; eauto|].
  assert (i' = i) as -> by congruence.
  rewrite Nat.sub_0_r in Hl. split_and!; [lia|done|].
  rewrite Hd by lia. done.
Qed.
End Encoding.

Section MatrixFacts.
Lemma square_zero n : square n (replicate n (replicate n 0%Z)).
Proof.
  split; [by rewrite length_replicate|].
  intros i cells [-> _]%lookup_replicate. by rewrite length_replicate.
Qed.

Lemma cell_zero n i j : cell (replicate n (replicate n 0%Z)) i j = 0%Z.
Proof.
  unfold cell. destruct (replicate n (replicate n 0%Z) !! i) as [cells|] eqn:E;
    simpl; [|done].
  apply lookup_replicate in E as [-> _].
  destruct (replicate n 0%Z !! j) as [c|] eqn:E'; simpl; [|done].
  by apply lookup_replicate in E' as [-> _].
Qed.

Lemma setcell_spec n m row col w :
  square n m → row < n → col < n →
  ∃ m', setcell m row col w = Ret m' ∧ square n m' ∧
        ∀ i j, cell m' i j =
               if decide (i = row ∧ j = col) then w else cell m i j.
Proof.
  intros [Hlen Hrows] Hrow Hcol. unfold setcell.
  destruct (lookup_lt_is_Some_2 m row) as [cells Hc]; [lia|].
  rewrite Hc. pose proof (Hrows _ _ Hc) as Hl.
  rewrite (proj2 (Nat.ltb_lt _ _)) by lia.
  eexists. split; [done|]. split.
  - split; [by rewrite length_insert|].
    intros i cells' Hi. destruct (decide (i = row)) as [->|Hne].
    + rewrite list_lookup_insert_eq in Hi by lia.
      injection Hi as <-. by rewrite length_insert.
    + rewrite list_lookup_insert_ne in Hi by done. eauto.
  - intros i j. unfold cell. destruct (decide (i = row)) as [->|Hne].
    + rewrite list_lookup_insert_eq by lia. simpl.
      destruct (decide (j = col)) as [->|Hne].
      * rewrite decide_True by done.
        by rewrite list_lookup_insert_eq by lia.
      * rewrite decide_False by (intros [_ ?]; done).
        rewrite list_lookup_insert_ne by done. by rewrite Hc.
    + rewrite decide_False by (intros [? _]; done).
      by rewrite list_lookup_insert_ne by done.
Qed.
End MatrixFacts.

Section ViewLoopFacts.
Context `{Countable V} {R Ent : Type}.
Variables (src dst : R → V) (ent : R → Ent) (val : R → Z).
Implicit Types (vs : list V) (rels : list R).

Lemma adj_fold_ok rels : ∀ m,
  Forall (λ r, is_Some (m !! (src r))) rels →
  ∃ m', for_each (adj_step src ent) rels m = Ret m' ∧
    ∀ v, m' !! v =
         (λ l, l ++ (ent <$>
                       filter (λ r, (src r) = v) rels)) <$> (m !! v).
Proof.
  induction rels as [|r rels IH]; intros m Hall.
  - exists m. split; [done|]. intros v. simpl.
    destruct (m !! v); simpl; [|done]. by rewrite app_nil_r.
  - apply Forall_cons in Hall as [[l Hl] Hall].
    assert (Hs : adj_step src ent m r = Ret (<[src r := l ++ [ent r]]> m))
      by (unfold adj_step; by rewrite (getitem_Some _ _ _ Hl)).
    cbn [for_each]. rewrite Hs. simpl.
    destruct (IH (<[src r := l ++ [ent r]]> m)) as (m' & E & Hm').
    { eapply Forall_impl; [exact Hall|]. intros r' [l' Hr']. simpl.
      destruct (decide ((src r) = (src r'))) as [->|Hne].
      - rewrite lookup_insert_eq. eauto.
      - rewrite lookup_insert_ne by done. eauto. }
    exists m'. split; [done|]. intros v. rewrite Hm'.
    rewrite filter_cons. destruct (decide ((src r) = v)) as [<-|Hne].
    + rewrite lookup_insert_eq, Hl. simpl. by rewrite <- app_assoc.
    + by rewrite lookup_insert_ne by done.
Qed.

Lemma adj_fold_fail rels : ∀ m,
  ¬ Forall (λ r, is_Some (m !! (src r))) rels →
  for_each (adj_step src ent) rels m = Raise KeyError.
Proof.
  induction rels as [|r rels IH]; intros m Hall.
  - destruct Hall. constructor.
  - cbn [for_each].
    destruct (m !! (src r)) as [l|] eqn:Hl.
    + assert (Hs : adj_step src ent m r = Ret (<[src r := l ++ [ent r]]> m))
        by (unfold adj_step; by rewrite (getitem_Some _ _ _ Hl)).
      rewrite Hs. simpl. apply IH.
      intros Hall'. apply Hall. constructor; [eauto|].
      eapply Forall_impl; [exact Hall'|]. intros r' [l' Hr']. simpl in *.
      destruct (decide ((src r) = (src r'))) as [E|Hne].
      * rewrite <- E. eauto.
      * rewrite lookup_insert_ne in Hr' by done. eauto.
    + assert (Hs : adj_step src ent m r = Raise KeyError)
        by (unfold adj_step; by rewrite (getitem_None _ _ Hl)).
      by rewrite Hs.
Qed.

Lemma mat_fold_ok (marks : Z → bool) n (enc : gmap V nat) rels : ∀ m,
  (∀ v i, enc !! v = Some i → i < n) →
  square n m →
  Forall (λ r, is_Some (enc !! (src r)) ∧ is_Some (enc !! (dst r))) rels →
  Forall (λ r, marks (val r) = true) rels →
  ∃ m', for_each (mat_step src dst val enc) rels m = Ret m' ∧ square n m' ∧
    ∀ i j, marks (cell m' i j) = true ↔
           marks (cell m i j) = true ∨
           ∃ r, r ∈ rels ∧ enc !! (src r) = Some i ∧ enc !! (dst r) = Some j.
Proof.
  clear ent. (* the matrix does not depend on the list entries *)
  intros m Henc. revert m.
  induction rels as [|r rels IH]; intros m Hsq Hall Hmk.
  - exists m. split; [done|]. split; [done|]. intros i j. split; [auto|].
    intros [?|(r & Hr & _)]; [done|]. by apply elem_of_nil in Hr.
  - apply Forall_cons in Hall as [[[row Hrow] [col Hcol]] Hall].
    apply Forall_cons in Hmk as [Hmr Hmk].
    destruct (setcell_spec n m row col (val r) Hsq) as (m1 & Hs1 & Hsq1 & Hcell);
      [eauto..|].
    assert (Hs : mat_step src dst val enc m r = Ret m1).
    { unfold mat_step.
      by rewrite (getitem_Some _ _ _ Hrow), (getitem_Some _ _ _ Hcol). }
    cbn [for_each]. rewrite Hs.
    simpl. destruct (IH m1 Hsq1 Hall Hmk) as (m' & E & Hsq' & Hm').
    exists m'. split; [done|]. split; [done|].
    intros i j. rewrite Hm', Hcell. split.
    + intros [Hc|(r' & Hr' & ? & ?)].
      * case_decide as Hd.
        -- destruct Hd as [-> ->]. right. exists r. set_solver.
        -- by left.
      * right. exists r'. set_solver.
    + intros [Hc|(r' & Hr' & Ei & Ej)].
      * left. case_decide; [done|done].
      * apply elem_of_cons in Hr' as [->|Hr'].
        -- left. rewrite decide_True; [done|]. split; congruence.
        -- right. eauto.
Qed.

Lemma mat_fold_fail n (enc : gmap V nat) rels : ∀ m,
  (∀ v i, enc !! v = Some i → i < n) →
  square n m →
  ¬ Forall (λ r, is_Some (enc !! (src r)) ∧ is_Some (enc !! (dst r))) rels →
  for_each (mat_step src dst val enc) rels m = Raise KeyError.
Proof.
  intros m Henc. revert m.
  induction rels as [|r rels IH]; intros m Hsq Hall.
  - destruct Hall. constructor.
  - cbn [for_each].
    destruct (enc !! (src r)) as [row|] eqn:Hrow; cycle 1.
    { assert (Hs : mat_step src dst val enc m r = Raise KeyError)
        by (unfold mat_step; by rewrite (getitem_None _ _ Hrow)).
      by rewrite Hs. }
    destruct (enc !! (dst r)) as [col|] eqn:Hcol; cycle 1.
    { assert (Hs : mat_step src dst val enc m r = Raise KeyError).
      { unfold mat_step.
        by rewrite (getitem_Some _ _ _ Hrow), (getitem_None _ _ Hcol). }
      by rewrite Hs. }
    destruct (setcell_spec n m row col (val r) Hsq) as (m1 & Hs1 & Hsq1 & _);
      [eauto..|].
    assert (Hs : mat_step src dst val enc m r = Ret m1).
    { unfold mat_step.
      by rewrite (getitem_Some _ _ _ Hrow), (getitem_Some _ _ _ Hcol). }
    rewrite Hs. simpl. apply IH; [done|]. intros Hall'. apply Hall.
    constructor; [|done]. rewrite Hrow, Hcol. eauto.
Qed.

Lemma scan_fold marks (dec : gmap nat V) cells : ∀ k acc,
  (∀ i, i < length cells → is_Some (dec !! (k + i))) →
  ∃ ns, for_each (scan_step marks dec) (zip (seq k (length cells)) cells) acc
        = Ret ns ∧
    ∀ x, x ∈ ns ↔
         x ∈ acc ∨ ∃ i c, cells !! i = Some c ∧ marks c = true ∧
                          dec !! (k + i) = Some x.
Proof.
  induction cells as [|c cells IH]; intros k acc Hdec; simpl.
  - exists acc. split; [done|]. intros x. split; [auto|].
    intros [?|(i & c & ? & _)]; done.
  - destruct (Hdec 0) as [v Hv]; [simpl; lia|]. rewrite Nat.add_0_r in Hv.
    destruct (IH (S k) (if marks c then acc ++ [v] else acc)) as (ns & E & Hns).
    { intros i Hi. replace (S k + i) with (k + S i) by lia.
      apply Hdec. simpl. lia. }
    exists ns. split.
    { assert (Hs : scan_step marks dec acc (k, c) =
                   Ret (if marks c then acc ++ [v] else acc)).
      { unfold scan_step. simpl.
        destruct (marks c); [by rewrite (getitem_Some _ _ _ Hv)|done]. }
      by rewrite Hs. }
    intros x. rewrite Hns. split.
    + intros [Hx|(i & c' & Hi & Hm & Hd)].
      * destruct (marks c) eqn:Hm; [|by left].
        apply elem_of_app in Hx as [?|Hx]; [by left|].
        apply list_elem_of_singleton in Hx as ->. right.
        exists 0, c. by rewrite Nat.add_0_r.
      * right. exists (S i), c'.
        by replace (k + S i) with (S k + i) by lia.
    + intros [Hx|(i & c' & Hi & Hm & Hd)].
      * left. destruct (marks c); [|done]. set_solver.
      * destruct i as [|i]; simpl in Hi.
        -- injection Hi as ->. left. rewrite Hm.
           rewrite Nat.add_0_r in Hd. set_solver.
        -- right. exists i, c'.
           by replace (S k + i) with (k + S i) by lia.
Qed.

Lemma scan_row_spec marks (dec : gmap nat V) cells :
  (∀ i, i < length cells → is_Some (dec !! i)) →
  ∃ ns, scan_row marks dec cells = Ret ns ∧
    ∀ x, x ∈ ns ↔
         ∃ i c, cells !! i = Some c ∧ marks c = true ∧ dec !! i = Some x.
Proof.
  intros Hdec. destruct (scan_fold marks dec cells 0 []) as (ns & E & Hns).
  { done. }
  exists ns. split; [exact E|]. intros x. rewrite Hns. set_solver.
Qed.
End ViewLoopFacts.

Section ViewFacts.
Context `{Countable V} {R Ent : Type}.
Variables (src dst : R → V) (ent : R → Ent) (val : R → Z).
Implicit Types (vs : list V) (rels : list R).

Lemma build_adj_ok vs rels :
  Forall (λ r, src r ∈ vs) rels →
  ∃ adj, build_adj src ent vs rels = Ret adj ∧
    ∀ v, adj !! v =
         if decide (v ∈ vs)
         then Some (ent <$> filter (λ r, src r = v) rels) else None.
Proof.
  intros Hall. unfold build_adj.
  destruct (adj_fold_ok src ent rels (foldl (λ m v, <[v := []]> m) ∅ vs))
    as (adj & E & Hadj).
  { eapply Forall_impl; [exact Hall|]. intros r Hr. simpl.
    rewrite (lookup_fill (λ _, [])). rewrite decide_True by done. eauto. }
  exists adj. split; [done|]. intros v. rewrite Hadj.
  rewrite (lookup_fill (λ _, [])). by case_decide.
Qed.

Lemma build_adj_fail vs rels :
  ¬ Forall (λ r, src r ∈ vs) rels → build_adj src ent vs rels = Raise KeyError.
Proof.
  intros Hall. apply adj_fold_fail. intros Hall'. apply Hall.
  eapply Forall_impl; [exact Hall'|]. intros r [l Hr]. simpl in *.
  rewrite (lookup_fill (λ _, [])) in Hr. by case_decide.
Qed.

Lemma enc_bound vs v i : (_buildEncoding vs).1 !! v = Some i → i < length vs.
Proof. intros Hi. by apply _buildEncoding_spec in Hi as (? & _). Qed.

Lemma build_mat_ok (marks : Z → bool) vs rels :
  marks 0%Z = false →
  Forall (anchored src dst vs) rels →
  Forall (λ r, marks (val r) = true) rels →
  ∃ mat, build_mat src dst val vs rels = Ret mat ∧ square (length vs) mat ∧
    ∀ i j, marks (cell mat i j) = true ↔
           ∃ r, r ∈ rels ∧ (_buildEncoding vs).1 !! src r = Some i ∧
                (_buildEncoding vs).1 !! dst r = Some j.
Proof.
  intros Hm0 Hall Hmk. unfold build_mat.
  destruct (mat_fold_ok src dst val marks (length vs) (_buildEncoding vs).1
              rels (replicate (length vs) (replicate (length vs) 0%Z)))
    as (mat & E & Hsq & Hmat).
  - apply enc_bound.
  - apply square_zero.
  - eapply Forall_impl; [exact Hall|]. intros r [Hs Hd]. simpl.
    split; by apply _buildEncoding_spec.
  - done.
  - exists mat. split; [done|]. split; [done|]. intros i j.
    rewrite Hmat, cell_zero, Hm0. naive_solver.
Qed.

Lemma build_mat_succeeds vs rels :
  Forall (anchored src dst vs) rels →
  ∃ mat, build_mat src dst val vs rels = Ret mat ∧ square (length vs) mat.
Proof.
  intros Hall. unfold build_mat.
  destruct (mat_fold_ok src dst (λ _, 1%Z) (λ _, true) (length vs)
              (_buildEncoding vs).1 rels
              (replicate (length vs) (replicate (length vs) 0%Z)))
    as (mat & E & Hsq & _).
  - apply enc_bound.
  - apply square_zero.
  - eapply Forall_impl; [exact Hall|]. intros r [Hs Hd]. simpl.
    split; by apply _buildEncoding_spec.
  - by apply Forall_true.
  - clear E Hsq mat.
    destruct (mat_fold_ok src dst val (λ _, true) (length vs)
              (_buildEncoding vs).1 rels
              (replicate (length vs) (replicate (length vs) 0%Z)))
      as (mat & E & Hsq & _).
    + apply enc_bound.
    + apply square_zero.
    + eapply Forall_impl; [exact Hall|]. intros r [Hs Hd]. simpl.
      split; by apply _buildEncoding_spec.
    + by apply Forall_true.
    + eauto.
Qed.

Lemma build_mat_fail vs rels :
  ¬ Forall (anchored src dst vs) rels → build_mat src dst val vs rels = Raise KeyError.
Proof.
  intros Hall. eapply mat_fold_fail.
  - apply enc_bound.
  - apply square_zero.
  - intros Hall'. apply Hall.
    eapply Forall_impl; [exact Hall'|]. intros r [Hs Hd]. simpl in *.
    split; by apply _buildEncoding_spec.
Qed.

(** The two views agree on the neighbours of a vertex. *)
Lemma views_agree (marks : Z → bool) vs rels adj mat v :
  marks 0%Z = false →
  Forall (anchored src dst vs) rels →
  Forall (λ r, marks (val r) = true) rels →
  build_adj src ent vs rels = Ret adj →
  build_mat src dst val vs rels = Ret mat →
  v ∈ vs →
  ∃ row cells entries ns,
    (_buildEncoding vs).1 !! v = Some row ∧
    mat !! row = Some cells ∧
    adj !! v = Some entries ∧
    scan_row marks (_buildEncoding vs).2 cells = Ret ns ∧
    entries = ent <$> filter (λ r, src r = v) rels ∧
    ∀ x, x ∈ ns ↔ ∃ r, r ∈ rels ∧ src r = v ∧ dst r = x.
Proof.
  intros Hm0 Hall Hmk Eadj Emat Hv.
  destruct (build_adj_ok vs rels) as (adj' & Eadj' & Hadj).
  { eapply Forall_impl; [exact Hall|]. by intros r [? _]. }
  destruct (build_mat_ok marks vs rels Hm0 Hall Hmk)
    as (mat' & Emat' & [Hlen Hrows] & Hmat).
  assert (adj' = adj) as -> by congruence.
  assert (mat' = mat) as -> by congruence.
  destruct (_buildEncoding_spec vs) as (Henc & Hmem & Hdec).
  destruct (proj1 (Hmem v) Hv) as [row Hrow].
  destruct (Henc _ _ Hrow) as (Hlt & Hvs & _).
  destruct (lookup_lt_is_Some_2 mat row) as [cells Hcells]; [lia|].
  pose proof (Hrows _ _ Hcells) as Hcl.
  destruct (scan_row_spec marks (_buildEncoding vs).2 cells)
    as (ns & Ens & Hns).
  { intros i Hi. rewrite Hdec by lia. apply lookup_lt_is_Some_2. lia. }
  exists row, cells, (ent <$> filter (λ r, src r = v) rels), ns.
  split_and!; [done|done| |done|done|].
  { rewrite Hadj. by rewrite decide_True. }
  intros x. rewrite Hns. split.
  - intros (j & c & Hj & Hc & Hd).
    assert (Hcell : cell mat row j = c).
    { unfold cell. rewrite Hcells. simpl. by rewrite Hj. }
    rewrite <- Hcell in Hc. apply Hmat in Hc as (r & Hr & Es & Ed).
    exists r. split; [done|].
    destruct (Henc _ _ Es) as (_ & Hs & _).
    destruct (Henc _ _ Ed) as (_ & _ & Hd').
    split; congruence.
  - intros (r & Hr & <- & <-).
    apply Forall_forall with (x := r) in Hall as [_ Hdst]; [|done].
    destruct (proj1 (Hmem (dst r)) Hdst) as [j Hj].
    destruct (Henc _ _ Hj) as (Hjlt & _ & Hdj).
    destruct (lookup_lt_is_Some_2 cells j) as [c Hc]; [lia|].
    exists j, c. split_and!; [done| |done].
    assert (Hcell : cell mat row j = c).
    { unfold cell. rewrite Hcells. simpl. by rewrite Hc. }
    rewrite <- Hcell. apply Hmat. eauto.
Qed.
End ViewFacts.

Section GraphFacts.
Context `{Countable V}.
Implicit Types (vs : list V).

#[local] Abbreviation wsrc := (λ r : V * V * Z, r.1.1).
#[local] Abbreviation wdst := (λ r : V * V * Z, r.1.2).
#[local] Abbreviation went := (λ r : V * V * Z, (r.1.2, r.2)).
#[local] Abbreviation wval := (λ r : V * V * Z, r.2).
#[local] Abbreviation lsrc := (λ r : V * V, r.1).
#[local] Abbreviation ldst := (λ r : V * V, r.2).
#[local] Abbreviation lval := (λ _ : V * V, 1%Z).

Lemma W_sym_fold (e : list (V * V * Z)) : ∀ (s : gset (V * V * Z)) r,
  r ∈ foldl (λ (s : gset (V * V * Z)) el,
               {[ (el.1.2, el.1.1, el.2) ]} ∪ ({[ el ]} ∪ s)) s e ↔
  r ∈ s ∨ r ∈ e ∨ (r.1.2, r.1.1, r.2) ∈ e.
Proof.
  induction e as [|el e IH]; intros s r; simpl.
  - set_solver.
  - rewrite IH. destruct r as [[a b] w], el as [[a' b'] w']. simpl.
    rewrite !elem_of_cons. set_solver.
Qed.

Lemma W_buildRelation_elem directed (e : list (V * V * Z)) r :
  r ∈ WGraph._buildRelation directed e ↔
  r ∈ e ∨ (directed = false ∧ (r.1.2, r.1.1, r.2) ∈ e).
Proof.
  unfold WGraph._buildRelation. destruct directed.
  - naive_solver.
  - rewrite elem_of_elements, W_sym_fold. set_solver.
Qed.

Lemma W_buildRelation_Forall (P : V * V * Z → Prop) directed e :
  (∀ r, P r → P (r.1.2, r.1.1, r.2)) →
  Forall P (WGraph._buildRelation directed e) ↔ Forall P e.
Proof.
  intros Hsym. rewrite !Forall_forall. split.
  - intros HP r Hr. apply HP, W_buildRelation_elem. by left.
  - intros HP r [Hr|[_ Hr]]%W_buildRelation_elem; [by apply HP|].
    apply HP, Hsym in Hr. by destruct r as [[a b] w].
Qed.

Lemma W_init_unfold vs e directed view :
  WGraph.Graph_init vs e directed view =
  let rels := WGraph._buildRelation directed e in
  adj ← build_adj wsrc went vs rels;
  mat ← build_mat wsrc wdst wval vs rels;
  Ret (WGraph.mkGraph directed view vs rels adj (_buildEncoding vs).1
         (_buildEncoding vs).2 mat (WGraph._buildWeight rels)).
Proof.
  unfold WGraph.Graph_init, build_mat. cbv zeta.
  destruct (_buildEncoding vs) as [enc dec]. reflexivity.
Qed.

Lemma L_init_unfold vs rels directed view :
  LGraph.Graph_init vs rels directed view =
  adj ← build_adj lsrc ldst vs rels;
  mat ← build_mat lsrc ldst lval vs rels;
  Ret (LGraph.mkGraph directed view vs rels adj (_buildEncoding vs).1
         (_buildEncoding vs).2 mat).
Proof.
  unfold LGraph.Graph_init, build_mat.
  destruct (_buildEncoding vs) as [enc dec]. reflexivity.
Qed.

Lemma anchored_src {R} (src dst : R → V) vs rels :
  Forall (anchored src dst vs) rels → Forall (λ r, src r ∈ vs) rels.
Proof. intros Hall. eapply Forall_impl; [exact Hall|]. by intros r [? _]. Qed.

Lemma W_init_Ret vs e directed view :
  (∃ g, WGraph.Graph_init vs e directed view = Ret g) ↔
  Forall (anchored wsrc wdst vs) e.
Proof.
  rewrite W_init_unfold. cbv zeta.
  rewrite <- (W_buildRelation_Forall _ directed e)
    by (intros r [? ?]; by split).
  set (rels := WGraph._buildRelation directed e).
  destruct (decide (Forall (anchored wsrc wdst vs) rels)) as [Hall|Hall].
  - split; [done|]. intros _.
    destruct (build_adj_ok wsrc went vs rels (anchored_src _ _ _ _ Hall))
      as (adj & -> & _).
    destruct (build_mat_succeeds wsrc wdst wval vs rels Hall)
      as (mat & -> & _).
    simpl. eauto.
  - split; [|done]. intros [g Hg]. exfalso.
    destruct (decide (Forall (λ r, wsrc r ∈ vs) rels)) as [Hs|Hs].
    + destruct (build_adj_ok wsrc went vs rels Hs) as (adj & E & _).
      rewrite E in Hg. simpl in Hg.
      by rewrite (build_mat_fail wsrc wdst wval vs rels Hall) in Hg.
    + by rewrite (build_adj_fail wsrc went vs rels Hs) in Hg.
Qed.

Lemma W_init_Raise vs e directed view :
  ¬ Forall (anchored wsrc wdst vs) e →
  WGraph.Graph_init vs e directed view = Raise KeyError.
Proof.
  rewrite W_init_unfold. cbv zeta.
  rewrite <- (W_buildRelation_Forall _ directed e)
    by (intros r [? ?]; by split).
  set (rels := WGraph._buildRelation directed e). intros Hall.
  destruct (decide (Forall (λ r, wsrc r ∈ vs) rels)) as [Hs|Hs].
  - destruct (build_adj_ok wsrc went vs rels Hs) as (adj & -> & _).
    simpl. by rewrite (build_mat_fail wsrc wdst wval vs rels Hall).
  - by rewrite (build_adj_fail wsrc went vs rels Hs).
Qed.

Lemma L_init_Ret vs rels directed view :
  (∃ g, LGraph.Graph_init vs rels directed view = Ret g) ↔
  Forall (anchored lsrc ldst vs) rels.
Proof.
  rewrite L_init_unfold.
  destruct (decide (Forall (anchored lsrc ldst vs) rels)) as [Hall|Hall].
  - split; [done|]. intros _.
    destruct (build_adj_ok lsrc ldst vs rels (anchored_src _ _ _ _ Hall))
      as (adj & -> & _).
    destruct (build_mat_succeeds lsrc ldst lval vs rels Hall)
      as (mat & -> & _).
    simpl. eauto.
  - split; [|done]. intros [g Hg]. exfalso.
    destruct (decide (Forall (λ r, lsrc r ∈ vs) rels)) as [Hs|Hs].
    + destruct (build_adj_ok lsrc ldst vs rels Hs) as (adj & E & _).
      rewrite E in Hg. simpl in Hg.
      by rewrite (build_mat_fail lsrc ldst lval vs rels Hall) in Hg.
    + by rewrite (build_adj_fail lsrc ldst vs rels Hs) in Hg.
Qed.

Lemma L_init_Raise vs rels directed view :
  ¬ Forall (anchored lsrc ldst vs) rels →
  LGraph.Graph_init vs rels directed view = Raise KeyError.
Proof.
  rewrite L_init_unfold. intros Hall.
  destruct (decide (Forall (λ r, lsrc r ∈ vs) rels)) as [Hs|Hs].
  - destruct (build_adj_ok lsrc ldst vs rels Hs) as (adj & -> & _).
    simpl. by rewrite (build_mat_fail lsrc ldst lval vs rels Hall).
  - by rewrite (build_adj_fail lsrc ldst vs rels Hs).
Qed.

Lemma L_views_agree vs rels directed view g v :
  LGraph.Graph_init vs rels directed view = Ret g → v ∈ vs →
  ∃ row nl nm,
    LGraph.encoder g !! v = Some row ∧
    LGraph._getNeighborsAdjList g v = Ret nl ∧
    LGraph._getNeighborsMatAdj g row = Ret nm ∧
    ∀ x, x ∈ nl ↔ x ∈ nm.
Proof.
  intros Hg Hv.
  assert (Hall : Forall (anchored lsrc ldst vs) rels)
    by (apply (L_init_Ret vs rels directed view); eauto).
  rewrite L_init_unfold in Hg.
  destruct (build_adj lsrc ldst vs rels) as [adj| |] eqn:Eadj; try done.
  destruct (build_mat lsrc ldst lval vs rels) as [mat| |] eqn:Emat; try done.
  simpl in Hg. injection Hg as <-.
  destruct (views_agree lsrc ldst ldst lval (λ c, c =? 1)%Z vs rels adj mat v)
    as (row & cells & nl & nm & Hrow & Hcells & Hadj & Hscan & -> & Hnm);
    try done.
  { by apply Forall_true. }
  exists row, (ldst <$> filter (λ r, lsrc r = v) rels), nm.
  unfold LGraph._getNeighborsAdjList, LGraph._getNeighborsMatAdj. simpl.
  rewrite Hcells. split_and!; [done|by apply getitem_Some|done|].
  intros x. rewrite Hnm, list_elem_of_fmap.
  setoid_rewrite list_elem_of_filter. naive_solver.
Qed.

Lemma W_views_agree vs e directed view g v :
  WGraph.Graph_init vs e directed view = Ret g →
  Forall (λ r, r.2 ≠ 0%Z) e → v ∈ vs →
  ∃ row nl nm,
    WGraph.encoder g !! v = Some row ∧
    WGraph._getNeighborsAdjList g v = Ret nl ∧
    matrix_neighbors g row = Ret nm ∧
    ∀ x, x ∈ nl.*1 ↔ x ∈ nm.
Proof.
  intros Hg Hnz Hv.
  assert (Hall : Forall (anchored wsrc wdst vs) e)
    by (apply (W_init_Ret vs e directed view); eauto).
  rewrite W_init_unfold in Hg. cbv zeta in Hg.
  apply (W_buildRelation_Forall _ directed e) in Hall;
    [|intros r [? ?]; by split].
  apply (W_buildRelation_Forall (λ r, r.2 ≠ 0%Z) directed e) in Hnz; [|done].
  set (rels := WGraph._buildRelation directed e) in *.
  destruct (build_adj wsrc went vs rels) as [adj| |] eqn:Eadj; try done.
  destruct (build_mat wsrc wdst wval vs rels) as [mat| |] eqn:Emat; try done.
  simpl in Hg. injection Hg as <-.
  destruct (views_agree wsrc wdst went wval (λ c, negb (c =? 0))%Z
              vs rels adj mat v)
    as (row & cells & nl & nm & Hrow & Hcells & Hadj & Hscan & -> & Hnm);
    try done.
  { eapply Forall_impl; [exact Hnz|]. intros r Hr. simpl.
    by apply negb_true_iff, Z.eqb_neq. }
  exists row, (went <$> filter (λ r, wsrc r = v) rels), nm.
  unfold WGraph._getNeighborsAdjList, matrix_neighbors. simpl.
  rewrite Hcells. split_and!; [done|by apply getitem_Some|done|].
  intros x. rewrite Hnm, <- list_fmap_compose, list_elem_of_fmap.
  setoid_rewrite list_elem_of_filter. naive_solver.
Qed.
End GraphFacts.

Lemma for_each_inv {A S} (I : S → Prop) (body : S → A → outcome S) l :
  (∀ s x s', x ∈ l → body s x = Ret s' → I s → I s') →
  ∀ s s', for_each body l s = Ret s' → I s → I s'.
Proof.
  induction l as [|x l IH]; intros Hbody s s' E Hs; simpl in E.
  - by injection E as <-.
  - destruct (body s x) as [s1| |] eqn:Eb; simpl in E; try done.
    eapply IH; [|exact E|].
    + intros. eapply Hbody; [|done..]. by right.
    + eapply Hbody; [|done..]. by left.
Qed.

Section PathFacts.
Context `{Countable V}.
Implicit Types (v_props : gmap V (Props.t V)).

Lemma getPath_loop_ancestors v_props v l :
  ancestors v_props v l →
  ∀ fuel acc, length l ≤ fuel →
  getPath_loop fuel v_props v acc = Ret (l ++ acc).
Proof.
  induction 1 as [v p Hp Hn|v p pa l Hp Hpa _ IH]; intros fuel acc Hf.
  - destruct fuel; simpl; rewrite (getitem_Some _ _ _ Hp); simpl;
      by rewrite Hn.
  - rewrite length_app in Hf. simpl in Hf.
    destruct fuel as [|fuel]; [lia|]. simpl.
    rewrite (getitem_Some _ _ _ Hp). simpl. rewrite Hpa.
    rewrite IH by lia. by rewrite <- app_assoc.
Qed.

Lemma getPath_loop_Ret fuel : ∀ v_props v acc path,
  getPath_loop fuel v_props v acc = Ret path →
  ∃ l, path = l ++ acc ∧ ancestors v_props v l.
Proof.
  induction fuel as [|fuel IH]; intros v_props v acc path E; simpl in E.
  - destruct (v_props !! v) as [p|] eqn:Hp;
      [rewrite (getitem_Some _ _ _ Hp) in E
      |by rewrite (getitem_None _ _ Hp) in E].
    simpl in E. destruct (Props.parent p) eqn:Hpa; [done|].
    injection E as <-. exists []. split; [done|]. by econstructor.
  - destruct (v_props !! v) as [p|] eqn:Hp;
      [rewrite (getitem_Some _ _ _ Hp) in E
      |by rewrite (getitem_None _ _ Hp) in E].
    simpl in E. destruct (Props.parent p) as [pa|] eqn:Hpa.
    + apply IH in E as (l & -> & Hl). exists (l ++ [pa]).
      split; [by rewrite <- app_assoc|]. by econstructor.
    + injection E as <-. exists []. split; [done|]. by econstructor.
Qed.

(** [getPath] raises nothing but the [KeyError] of a vertex missing from
    the table. *)
Lemma getPath_loop_Raise fuel : ∀ v_props v acc e,
  getPath_loop fuel v_props v acc = Raise e → e = KeyError.
Proof.
  induction fuel as [|fuel IH]; intros v_props v acc e E; simpl in E.
  - destruct (v_props !! v) as [p|] eqn:Hp;
      [rewrite (getitem_Some _ _ _ Hp) in E
      |rewrite (getitem_None _ _ Hp) in E; simpl in E; congruence].
    simpl in E. by destruct (Props.parent p).
  - destruct (v_props !! v) as [p|] eqn:Hp;
      [rewrite (getitem_Some _ _ _ Hp) in E
      |rewrite (getitem_None _ _ Hp) in E; simpl in E; congruence].
    simpl in E. destruct (Props.parent p); [by eapply IH|done].
Qed.

Lemma inf_no_parent_getPath v_props v p fuel :
  inf_no_parent v_props →
  v_props !! v = Some p → Props.distance p = Inf →
  getPath fuel v v_props = Ret [v].
Proof.
  intros Hinv Hp Hd. unfold getPath.
  rewrite (getPath_loop_ancestors v_props v []); [done| |simpl; lia].
  econstructor; [done|]. by eapply Hinv.
Qed.

(** *** The traversals keep [inf_no_parent] *)

Lemma bfs_inv_discover v_props queue u n pn d :
  bfs_inv (v_props, queue) u →
  v_props !! n = Some pn →
  bfs_inv (<[n := Props.mk GRAY (Fin d) (Some u)]> v_props, queue ++ [n]) u.
Proof.
  intros [Hinf Hfin] Hn. split; simpl in *.
  - intros v p Hv Hd. destruct (decide (n = v)) as [->|Hne].
    + rewrite lookup_insert_eq in Hv. injection Hv as <-. done.
    + rewrite lookup_insert_ne in Hv by done. eauto.
  - intros v p Hv Hp. destruct (decide (n = v)) as [->|Hne].
    + rewrite lookup_insert_eq in Hp. injection Hp as <-. done.
    + rewrite lookup_insert_ne in Hp by done.
      eapply Hfin; [|done]. set_solver.
Qed.

Lemma bfs_inv_blacken v_props queue u pu :
  bfs_inv (v_props, queue) u →
  v_props !! u = Some pu →
  inf_no_parent (<[u := Props.set_color BLACK pu]> v_props) ∧
  finite_at (<[u := Props.set_color BLACK pu]> v_props) queue.
Proof.
  intros [Hinf Hfin] Hu. split; simpl in *.
  - intros v p Hv Hd. destruct (decide (u = v)) as [->|Hne].
    + rewrite lookup_insert_eq in Hv. injection Hv as <-. simpl in *.
      by eapply Hinf.
    + rewrite lookup_insert_ne in Hv by done. eauto.
  - intros v p Hv Hp. destruct (decide (u = v)) as [->|Hne].
    + rewrite lookup_insert_eq in Hp. injection Hp as <-. simpl.
      eapply Hfin; [|done]. set_solver.
    + rewrite lookup_insert_ne in Hp by done.
      eapply Hfin; [|done]. set_solver.
Qed.

End PathFacts.

Section TraversalFacts.
Context `{Countable V}.
Implicit Types (v_props : gmap V (Props.t V)) (u n source s : V).

Lemma getitem_insert_eq {A} (m : gmap V A) k a :
  getitem (<[k := a]> m) k = Ret a.
Proof. apply getitem_Some, lookup_insert_eq. Qed.

Lemma getitem_insert_ne {A} (m : gmap V A) k k' a :
  k ≠ k' → getitem (<[k := a]> m) k' = getitem m k'.
Proof. intros. unfold getitem. by rewrite lookup_insert_ne. Qed.

Lemma inf_no_parent_insert v_props n p :
  inf_no_parent v_props →
  (Props.distance p = Inf → Props.parent p = None) →
  inf_no_parent (<[n := p]> v_props).
Proof.
  intros Hinv Hp v q Hv Hd. destruct (decide (n = v)) as [->|Hne].
  - rewrite lookup_insert_eq in Hv. injection Hv as <-. auto.
  - rewrite lookup_insert_ne in Hv by done. eauto.
Qed.

Lemma inf_no_parent_init (vs : list V) :
  inf_no_parent (foldl (λ m v, <[v := Props.mk WHITE Inf None]> m) ∅ vs).
Proof.
  intros v p Hv _.
  rewrite (lookup_fill (λ _, Props.mk WHITE Inf None)) in Hv.
  case_decide; [by injection Hv as <-|by rewrite lookup_empty in Hv].
Qed.

(** One pass of the body of the [for] loop of [bfs], for the code of
    either file: [k] is what follows the three assignments. *)
Lemma bfs_discover_inv {T} v_props queue u n pn
    (k : gmap V (Props.t V) → outcome T) r :
  bfs_inv (v_props, queue) u →
  v_props !! n = Some pn →
  (let v_props := <[n := Props.set_color GRAY pn]> v_props in
   pu ← getitem v_props u;
   pn ← getitem v_props n;
   let v_props :=
     <[n := Props.set_distance (num_add (Props.distance pu) 1) pn]> v_props in
   pn ← getitem v_props n;
   k (<[n := Props.set_parent (Some u) pn]> v_props)) = Ret r →
  ∃ v_props', k v_props' = Ret r ∧ bfs_inv (v_props', queue ++ [n]) u.
Proof.
  intros Hinv Hn E. cbv zeta in E.
  destruct (getitem (<[n := Props.set_color GRAY pn]> v_props) u)
    as [pu| |] eqn:Hu; simpl in E; try done.
  assert (Hpu : Props.distance pu ≠ Inf).
  { destruct Hinv as [_ Hfin]. simpl in Hfin.
    destruct (decide (n = u)) as [->|Hne].
    - rewrite getitem_insert_eq in Hu. injection Hu as <-. simpl.
      eapply Hfin; [|done]. set_solver.
    - rewrite getitem_insert_ne in Hu by done.
      apply getitem_Ret in Hu. eapply Hfin; [|done]. set_solver. }
  repeat (rewrite getitem_insert_eq in E; simpl in E).
  rewrite !insert_insert_eq in E.
  eexists. split; [exact E|].
  destruct (Props.distance pu) as [d|] eqn:Hd; [|done]. simpl.
  by eapply bfs_inv_discover.
Qed.

Lemma W_bfs_visit_inv u st nw st' :
  WGraph.bfs_visit u st nw = Ret st' → bfs_inv st u → bfs_inv st' u.
Proof.
  destruct st as [v_props queue]. unfold WGraph.bfs_visit.
  destruct (getitem v_props nw.1) as [pn| |] eqn:Hn; simpl; try done.
  apply getitem_Ret in Hn. case_decide.
  - intros E Hinv.
    destruct (bfs_discover_inv v_props queue u nw.1 pn
                (λ m, Ret (m, queue ++ [nw.1])) st' Hinv Hn E)
      as (m & [= <-] & ?). done.
  - by intros [= <-].
Qed.

Lemma L_bfs_visit_inv u st n st' :
  LGraph.bfs_visit u st n = Ret st' → bfs_inv st u → bfs_inv st' u.
Proof.
  destruct st as [v_props queue]. unfold LGraph.bfs_visit.
  destruct (getitem v_props n) as [pn| |] eqn:Hn; simpl; try done.
  apply getitem_Ret in Hn. case_decide.
  - intros E Hinv.
    destruct (bfs_discover_inv v_props queue u n pn
                (λ m, Ret (m, queue ++ [n])) st' Hinv Hn E)
      as (m & [= <-] & ?). done.
  - by intros [= <-].
Qed.

Lemma W_bfs_loop_inv fuel g : ∀ queue v_props tbl,
  WGraph.bfs_loop fuel g queue v_props = Ret tbl →
  inf_no_parent v_props → finite_at v_props queue →
  inf_no_parent tbl.
Proof.
  induction fuel as [|fuel IH]; intros [|u queue] v_props tbl E Hinf Hfin;
    simpl in E; try done; try (by injection E as <-).
  destruct (WGraph.getNeighbors g u) as [ns| |]; simpl in E; try done.
  destruct (for_each (WGraph.bfs_visit u) ns (v_props, queue))
    as [[v_props' queue']| |] eqn:Ef; simpl in E; try done.
  destruct (getitem v_props' u) as [pu| |] eqn:Hu; simpl in E; try done.
  apply getitem_Ret in Hu.
  assert (Hinv' : bfs_inv (v_props', queue') u).
  { eapply (for_each_inv (λ st, bfs_inv st u)); [|exact Ef|by split].
    intros s x s' _. apply W_bfs_visit_inv. }
  destruct (bfs_inv_blacken _ _ _ _ Hinv' Hu). by eapply IH.
Qed.

Context `{PyIndex V}.

Lemma L_bfs_loop_inv fuel g : ∀ queue v_props tbl,
  LGraph.bfs_loop fuel g queue v_props = Ret tbl →
  inf_no_parent v_props → finite_at v_props queue →
  inf_no_parent tbl.
Proof.
  induction fuel as [|fuel IH]; intros [|u queue] v_props tbl E Hinf Hfin;
    simpl in E; try done; try (by injection E as <-).
  destruct (LGraph.getNeighbors g u) as [ns| |]; simpl in E; try done.
  destruct (for_each (LGraph.bfs_visit u) ns (v_props, queue))
    as [[v_props' queue']| |] eqn:Ef; simpl in E; try done.
  destruct (getitem v_props' u) as [pu| |] eqn:Hu; simpl in E; try done.
  apply getitem_Ret in Hu.
  assert (Hinv' : bfs_inv (v_props', queue') u).
  { eapply (for_each_inv (λ st, bfs_inv st u)); [|exact Ef|by split].
    intros s x s' _. apply L_bfs_visit_inv. }
  destruct (bfs_inv_blacken _ _ _ _ Hinv' Hu). by eapply IH.
Qed.

Lemma L_bfs_inf_no_parent fuel g source tbl :
  LGraph.bfs fuel g source = Ret tbl → inf_no_parent tbl.
Proof.
  unfold LGraph.bfs, LGraph._buildVProps. intros E.
  eapply L_bfs_loop_inv; [exact E| |].
  - apply inf_no_parent_insert; [apply inf_no_parent_init|done].
  - intros u p ->%list_elem_of_singleton.
    rewrite lookup_insert_eq. by intros [= <-].
Qed.

Lemma W_bfs_inf_no_parent fuel g source tbl :
  WGraph.bfs fuel g source = Ret tbl → inf_no_parent tbl.
Proof.
  unfold WGraph.bfs, WGraph._buildVProps. intros E.
  destruct (getitem _ source) as [p| |] eqn:Hp; simpl in E; try done.
  eapply W_bfs_loop_inv; [exact E| |].
  - apply inf_no_parent_insert; [apply inf_no_parent_init|done].
  - intros u q ->%list_elem_of_singleton.
    rewrite lookup_insert_eq. by intros [= <-].
Qed.

Context `{PyOrd V}.

Lemma W_relax_inv u in_queue st nw st' :
  WGraph.relax u in_queue st nw = Ret st' →
  inf_no_parent st.1 → inf_no_parent st'.1.
Proof.
  destruct st as [v_props QS], nw as [n w]. unfold WGraph.relax.
  destruct (getitem v_props n) as [pn| |]; simpl; try done.
  destruct (getitem v_props u) as [pu| |]; simpl; try done.
  destruct (num_lt _ _) eqn:Hlt; [|by intros [= <-]].
  repeat (rewrite getitem_insert_eq; simpl).
  rewrite !insert_insert_eq.
  assert (Hfin : num_add (Props.distance pu) w ≠ Inf).
  { intros E. by rewrite E in Hlt. }
  intros E Hinf.
  assert (st'.1 = <[n := Props.set_parent (Some u)
                     (Props.set_distance (num_add (Props.distance pu) w) pn)]>
                    v_props) as ->.
  { destruct (getitem in_queue n) as [[]| |]; simpl in E; try done.
    - destruct (GraphHeapPQ.update _ _ _). by injection E as <-.
    - by injection E as <-. }
  by apply inf_no_parent_insert.
Qed.

Lemma W_dijkstra_loop_inv fuel g : ∀ QS in_queue v_props tbl,
  WGraph.dijkstra_loop fuel g QS in_queue v_props = Ret tbl →
  inf_no_parent v_props → inf_no_parent tbl.
Proof.
  induction fuel as [|fuel IH]; intros QS in_queue v_props tbl E Hinf;
    simpl in E.
  - destruct (length (data QS) =? 0); [by injection E as <-|done].
  - destruct (length (data QS) =? 0); [by injection E as <-|].
    destruct (GraphHeapPQ.dequeue QS) as [[du| |] QS']; try done.
    destruct (WGraph.getNeighbors g du.2) as [ns| |]; simpl in E; try done.
    destruct (for_each _ ns (v_props, QS')) as [[v_props' QS'']| |] eqn:Ef;
      simpl in E; try done.
    eapply IH; [exact E|].
    eapply (for_each_inv (λ st, inf_no_parent st.1)) in Ef; [done| |done].
    intros s x s' _. apply W_relax_inv.
Qed.

Lemma W_dijkstraP_inf_no_parent fuel g s tbl :
  WGraph.dijkstraP fuel g s = Ret tbl → inf_no_parent tbl.
Proof.
  unfold WGraph.dijkstraP, WGraph._buildVProps. intros E.
  destruct (getitem _ s) as [p| |] eqn:Hp; simpl in E; try done.
  destruct (for_each _ (WGraph.vertexes g) []) as [entries| |];
    simpl in E; try done.
  eapply W_dijkstra_loop_inv; [exact E|].
  apply inf_no_parent_insert; [apply inf_no_parent_init|done].
Qed.
End TraversalFacts.

Section TreeFacts.
Context `{Countable V}.
Implicit Types (v_props : gmap V (Props.t V)) (u n s v : V).

Lemma bfs_tree_nonneg s v_props pending v p d :
  bfs_tree s v_props pending →
  v_props !! v = Some p → Props.distance p = Fin d → (0 ≤ d)%Z.
Proof.
  intros (_ & K2 & K3 & K4) Hv Hd.
  destruct (Props.parent p) as [pa|] eqn:Hpa.
  - destruct (K2 _ _ _ Hv Hpa) as (pp & d' & _ & _ & _ & ? & Hd').
    rewrite Hd in Hd'. injection Hd' as ->. lia.
  - assert (v = s) as -> by (eapply K4; [done..|by rewrite Hd]).
    destruct (K3 _ Hv) as (_ & Hd' & _). rewrite Hd in Hd'.
    by injection Hd' as ->.
Qed.

(** The three assignments to [v_props[neighbor]] amount to one. *)
Lemma bfs_discover_step {T} v_props u n pn
    (k : gmap V (Props.t V) → outcome T) r :
  v_props !! n = Some pn →
  (let v_props := <[n := Props.set_color GRAY pn]> v_props in
   pu ← getitem v_props u;
   pn ← getitem v_props n;
   let v_props :=
     <[n := Props.set_distance (num_add (Props.distance pu) 1) pn]> v_props in
   pn ← getitem v_props n;
   k (<[n := Props.set_parent (Some u) pn]> v_props)) = Ret r →
  ∃ pu, (<[n := Props.set_color GRAY pn]> v_props) !! u = Some pu ∧
        k (<[n := Props.mk GRAY (num_add (Props.distance pu) 1) (Some u)]>
             v_props) = Ret r.
Proof.
  intros Hn E. cbv zeta in E.
  destruct (getitem (<[n := Props.set_color GRAY pn]> v_props) u)
    as [pu| |] eqn:Hu; simpl in E; try done.
  repeat (rewrite getitem_insert_eq in E; simpl in E).
  rewrite !insert_insert_eq in E.
  exists pu. split; [by apply getitem_Ret|exact E].
Qed.

Lemma bfs_tree_discover s v_props queue u n pn pu :
  bfs_tree s v_props (u :: queue) →
  v_props !! n = Some pn → Props.color pn = WHITE →
  v_props !! u = Some pu →
  bfs_tree s (<[n := Props.mk GRAY (num_add (Props.distance pu) 1) (Some u)]>
                v_props) (u :: queue ++ [n]).
Proof.
  intros K Hn Hw Hu. pose proof K as (K1 & K2 & K3 & K4).
  destruct (K1 u pu) as [Hcu Hdu]; [by left|done|].
  destruct (Props.distance pu) as [d|] eqn:Hd; [|done].
  pose proof (bfs_tree_nonneg _ _ _ _ _ _ K Hu Hd) as Hd0.
  assert (Hnu : n ≠ u) by (intros ->; congruence).
  assert (Hns : n ≠ s).
  { intros ->. destruct (K3 _ Hn) as (? & _). done. }
  simpl. split_and!.
  - intros x p Hx Hp. destruct (decide (n = x)) as [->|Hne].
    + rewrite lookup_insert_eq in Hp. by injection Hp as <-.
    + rewrite lookup_insert_ne in Hp by done.
      eapply K1; [|done]. set_solver.
  - intros v p pa Hv Hpa. destruct (decide (n = v)) as [->|Hne].
    + rewrite lookup_insert_eq in Hv. injection Hv as <-.
      simpl in Hpa. injection Hpa as <-.
      exists pu, d. rewrite lookup_insert_ne by done. done.
    + rewrite lookup_insert_ne in Hv by done.
      destruct (K2 _ _ _ Hv Hpa) as (pp & d' & Hpp & Hc & ?).
      exists pp, d'. split; [|done].
      rewrite lookup_insert_ne; [done|]. intros ->. congruence.
  - intros p Hp. rewrite lookup_insert_ne in Hp by done. eauto.
  - intros v p Hv Hpa Hdv. destruct (decide (n = v)) as [->|Hne].
    + rewrite lookup_insert_eq in Hv. by injection Hv as <-.
    + rewrite lookup_insert_ne in Hv by done. eauto.
Qed.

Lemma lookup_blacken v_props u pu x p :
  v_props !! u = Some pu →
  <[u := Props.set_color BLACK pu]> v_props !! x = Some p →
  ∃ p0, v_props !! x = Some p0 ∧
        Props.distance p = Props.distance p0 ∧
        Props.parent p = Props.parent p0 ∧
        (Props.color p0 ≠ WHITE → Props.color p ≠ WHITE).
Proof.
  intros Hu Hp. destruct (decide (u = x)) as [->|Hne].
  - rewrite lookup_insert_eq in Hp. injection Hp as <-. exists pu. done.
  - rewrite lookup_insert_ne in Hp by done. exists p. done.
Qed.

Lemma lookup_blacken_rev v_props u pu x p0 :
  v_props !! u = Some pu → v_props !! x = Some p0 →
  ∃ p, <[u := Props.set_color BLACK pu]> v_props !! x = Some p ∧
       Props.distance p = Props.distance p0 ∧
       Props.parent p = Props.parent p0 ∧
       (Props.color p0 ≠ WHITE → Props.color p ≠ WHITE).
Proof.
  intros Hu Hp. destruct (decide (u = x)) as [->|Hne].
  - rewrite lookup_insert_eq. eexists. split; [done|].
    assert (p0 = pu) as -> by congruence. done.
  - rewrite lookup_insert_ne by done. exists p0. done.
Qed.

Lemma bfs_tree_blacken s v_props queue u pu :
  bfs_tree s v_props (u :: queue) →
  v_props !! u = Some pu →
  bfs_tree s (<[u := Props.set_color BLACK pu]> v_props) queue.
Proof.
  intros (K1 & K2 & K3 & K4) Hu. split_and!.
  - intros x p Hx Hp.
    destruct (lookup_blacken _ _ _ _ _ Hu Hp) as (p0 & Hp0 & Hd & _ & Hc).
    destruct (K1 x p0) as [? ?]; [by right|done|].
    rewrite Hd. auto.
  - intros v p pa Hv Hpa.
    destruct (lookup_blacken _ _ _ _ _ Hu Hv) as (p0 & Hp0 & Hd & Hpar & _).
    rewrite Hpar in Hpa.
    destruct (K2 _ _ _ Hp0 Hpa) as (pp0 & d & Hpp0 & Hc0 & Hd0 & ? & Hdv).
    destruct (lookup_blacken_rev _ _ _ _ _ Hu Hpp0)
      as (pp & Hpp & Hdpp & _ & Hcpp).
    exists pp, d. rewrite Hdpp, Hd. auto.
  - intros p Hp.
    destruct (lookup_blacken _ _ _ _ _ Hu Hp) as (p0 & Hp0 & Hd & Hpar & Hc).
    destruct (K3 _ Hp0) as (? & ? & ?). rewrite Hd, Hpar. auto.
  - intros v p Hv Hpa Hdv.
    destruct (lookup_blacken _ _ _ _ _ Hu Hv) as (p0 & Hp0 & Hd & Hpar & _).
    rewrite Hpar in Hpa. rewrite Hd in Hdv. eauto.
Qed.

Lemma bfs_tree_init s (vs : list V) :
  bfs_tree s (<[s := Props.mk GRAY (Fin 0) None]>
                (foldl (λ m v, <[v := Props.mk WHITE Inf None]> m)
                   (∅ : gmap V (Props.t V)) vs)) [s].
Proof.
  assert (Hlk : ∀ x (p : Props.t V),
            <[s := Props.mk GRAY (Fin 0) None]>
              (foldl (λ m v, <[v := Props.mk WHITE Inf None]> m)
                   (∅ : gmap V (Props.t V)) vs) !! x
            = Some p →
            (x = s ∧ p = Props.mk (V:=V) GRAY (Fin 0) None) ∨
            p = Props.mk (V:=V) WHITE Inf None).
  { intros x p Hp. destruct (decide (s = x)) as [->|Hne].
    - rewrite lookup_insert_eq in Hp. injection Hp as <-. by left.
    - rewrite lookup_insert_ne in Hp by done.
      rewrite (lookup_fill (λ _, Props.mk WHITE Inf None)) in Hp.
      case_decide; [injection Hp as <-; by right|].
      by rewrite lookup_empty in Hp. }
  split_and!.
  - intros u p ->%list_elem_of_singleton Hp.
    rewrite lookup_insert_eq in Hp. by injection Hp as <-.
  - intros v p pa Hv Hpa. by destruct (Hlk _ _ Hv) as [[_ ->]| ->].
  - intros p Hp. rewrite lookup_insert_eq in Hp. by injection Hp as <-.
  - intros v p Hv _ Hd. by destruct (Hlk _ _ Hv) as [[-> _]| ->].
Qed.

(** In a finished table every vertex at finite distance [d] has a chain of
    [d] parent links, and the chain starts at the source. *)
Lemma bfs_tree_ancestors s v_props k : ∀ v p d,
  bfs_tree s v_props [] →
  v_props !! v = Some p → Props.distance p = Fin d → Z.to_nat d = k →
  ∃ l, ancestors v_props v l ∧ length l = k ∧ head (l ++ [v]) = Some s.
Proof.
  induction k as [|k IH]; intros v p d K Hv Hd Hk;
    pose proof K as (_ & K2 & K3 & K4);
    pose proof (bfs_tree_nonneg _ _ _ _ _ _ K Hv Hd) as Hd0;
    destruct (Props.parent p) as [pa|] eqn:Hpa.
  - destruct (K2 _ _ _ Hv Hpa) as (pp & d' & _ & _ & _ & ? & Hd').
    rewrite Hd in Hd'. injection Hd' as ->. lia.
  - assert (v = s) as -> by (eapply K4; [done..|by rewrite Hd]).
    exists []. split_and!; [by econstructor|done|done].
  - destruct (K2 _ _ _ Hv Hpa) as (pp & d' & Hpp & _ & Hdpp & ? & Hd').
    rewrite Hd in Hd'. injection Hd' as ->.
    destruct (IH pa pp d' K Hpp Hdpp) as (l & Hl & Hlen & Hhd); [lia|].
    exists (l ++ [pa]). split_and!.
    + by econstructor.
    + rewrite length_app. simpl. lia.
    + rewrite <- app_assoc. destruct l; simpl in *; done.
  - assert (v = s) as -> by (eapply K4; [done..|by rewrite Hd]).
    destruct (K3 _ Hv) as (_ & Hd' & _). rewrite Hd in Hd'.
    injection Hd' as ->. done.
Qed.

Lemma L_bfs_visit_tree s u st n st' :
  LGraph.bfs_visit u st n = Ret st' →
  bfs_tree s st.1 (u :: st.2) → bfs_tree s st'.1 (u :: st'.2).
Proof.
  destruct st as [v_props queue]. unfold LGraph.bfs_visit.
  destruct (getitem v_props n) as [pn| |] eqn:Hn; simpl; try done.
  apply getitem_Ret in Hn. case_decide as Hw.
  - intros E K.
    destruct (bfs_discover_step v_props u n pn
                (λ m, Ret (m, queue ++ [n])) st' Hn E) as (pu & Hu & [= <-]).
    simpl. destruct (decide (n = u)) as [->|Hne].
    + destruct K as (K1 & _). destruct (K1 u pn); [by left|done|done].
    + rewrite lookup_insert_ne in Hu by done.
      by eapply bfs_tree_discover.
  - by intros [= <-].
Qed.

Context `{PyIndex V}.

Lemma L_bfs_loop_tree s fuel g : ∀ queue v_props tbl,
  LGraph.bfs_loop fuel g queue v_props = Ret tbl →
  bfs_tree s v_props queue → bfs_tree s tbl [].
Proof.
  induction fuel as [|fuel IH]; intros [|u queue] v_props tbl E K;
    simpl in E; try done; try (by injection E as <-).
  destruct (LGraph.getNeighbors g u) as [ns| |]; simpl in E; try done.
  destruct (for_each (LGraph.bfs_visit u) ns (v_props, queue))
    as [[v_props' queue']| |] eqn:Ef; simpl in E; try done.
  destruct (getitem v_props' u) as [pu| |] eqn:Hu; simpl in E; try done.
  apply getitem_Ret in Hu.
  eapply IH; [exact E|]. eapply bfs_tree_blacken; [|done].
  eapply (for_each_inv (λ st, bfs_tree s st.1 (u :: st.2))) in Ef; [done| |done].
  intros st x st' _. apply L_bfs_visit_tree.
Qed.

Lemma L_bfs_path fuel g s tbl v p d :
  LGraph.bfs fuel g s = Ret tbl →
  tbl !! v = Some p → Props.distance p = Fin d →
  ∃ l, getPath (Z.to_nat d) v tbl = Ret (l ++ [v]) ∧
       head (l ++ [v]) = Some s ∧ length l = Z.to_nat d ∧
       ancestors tbl v l.
Proof.
  intros E Hv Hd.
  assert (K : bfs_tree s tbl []).
  { eapply L_bfs_loop_tree; [exact E|]. apply bfs_tree_init. }
  destruct (bfs_tree_ancestors s tbl _ v p d K Hv Hd eq_refl)
    as (l & Hl & Hlen & Hhd).
  exists l. split_and!; try done.
  apply getPath_loop_ancestors; [done|lia].
Qed.
End TreeFacts.

Section DijkstraFacts.
Context `{Countable V}.
Implicit Types (v_props : gmap V (Props.t V)) (u n s v : V).

Lemma ancestors_closer v_props v l :
  (∀ v p pa, v_props !! v = Some p → Props.parent p = Some pa →
     ∃ pp dpa dv, v_props !! pa = Some pp ∧ Props.distance pp = Fin dpa ∧
                  Props.distance p = Fin dv ∧ (dpa ≤ dv)%Z) →
  ancestors v_props v l →
  ∀ p d, v_props !! v = Some p → Props.distance p = Fin d →
  ∀ x, x ∈ l → ∃ px dx, v_props !! x = Some px ∧
                        Props.distance px = Fin dx ∧ (dx ≤ d)%Z.
Proof.
  intros D1. induction 1 as [v p Hp Hn|v p pa l Hp Hpa _ IH];
    intros p' d Hp' Hd x Hx.
  - by apply elem_of_nil in Hx.
  - assert (p' = p) as -> by congruence.
    destruct (D1 _ _ _ Hp Hpa) as (pp & dpa & dv & Hpp & Hdpa & Hdv & Hle).
    rewrite Hd in Hdv. injection Hdv as <-.
    apply elem_of_app in Hx as [Hx|Hx].
    + destruct (IH _ _ Hpp Hdpa x Hx) as (px & dx & ? & ? & ?).
      exists px, dx. split_and!; [done..|lia].
    + apply list_elem_of_singleton in Hx as ->. eauto.
Qed.

Lemma ancestors_frame v_props v_props' v l :
  ancestors v_props v l →
  (∀ x, x ∈ l ++ [v] → v_props' !! x = v_props !! x) →
  ancestors v_props' v l.
Proof.
  induction 1 as [v p Hp Hn|v p pa l Hp Hpa _ IH]; intros Hsame.
  - eapply ancestors_root; [|done]. rewrite Hsame; [done|]. set_solver.
  - eapply ancestors_step; [|done|].
    + rewrite Hsame; [done|]. set_solver.
    + apply IH. intros x Hx. apply Hsame. set_solver.
Qed.

Lemma ancestors_repoint v_props v_props' n v l :
  (∀ x, x ≠ n → v_props' !! x = v_props !! x) →
  (∃ ln, ancestors v_props' n ln) →
  ancestors v_props v l → ∃ l', ancestors v_props' v l'.
Proof.
  intros Hsame Hn. induction 1 as [v p Hp Hpn|v p pa l Hp Hpa _ [l' IH]].
  - destruct (decide (v = n)) as [->|Hne]; [done|].
    exists []. eapply ancestors_root; [|done]. by rewrite Hsame.
  - destruct (decide (v = n)) as [->|Hne]; [done|].
    exists (l' ++ [pa]). eapply ancestors_step; [|done..]. by rewrite Hsame.
Qed.

Lemma ancestors_from_source s v_props v l :
  dijkstra_tree s v_props → ancestors v_props v l →
  ∀ p, v_props !! v = Some p → Props.distance p ≠ Inf →
  head (l ++ [v]) = Some s.
Proof.
  intros (D1 & _ & _ & D4 & _).
  induction 1 as [v p Hp Hn|v p pa l Hp Hpa _ IH]; intros p' Hp' Hd.
  - assert (p' = p) as -> by congruence. simpl. f_equal. by eapply D4.
  - destruct (D1 _ _ _ Hp Hpa) as (pp & dpa & dv & Hpp & Hdpa & _).
    specialize (IH pp Hpp). rewrite Hdpa in IH. specialize (IH ltac:(done)).
    rewrite <- app_assoc. destruct l; simpl in *; done.
Qed.

(** One relaxation keeps the tree. *)
Lemma dijkstra_tree_relax s v_props u n pu pn du w :
  dijkstra_tree s v_props →
  v_props !! u = Some pu → v_props !! n = Some pn →
  Props.distance pu = Fin du → (0 ≤ w)%Z →
  num_lt (Fin (du + w)) (Props.distance pn) = true →
  dijkstra_tree s
    (<[n := Props.mk (Props.color pn) (Fin (du + w)) (Some u)]> v_props).
Proof.
  intros K Hu Hn Hdu Hw Hlt. pose proof K as (D1 & D2 & D3 & D4 & D5).
  pose proof (D2 _ _ _ Hu Hdu) as Hdu0.
  assert (Hnu : n ≠ u).
  { intros ->. assert (pn = pu) as -> by congruence.
    rewrite Hdu in Hlt. simpl in Hlt. apply Z.ltb_lt in Hlt. lia. }
  assert (Hns : n ≠ s).
  { intros ->. destruct (D3 _ Hn) as [Hd _]. rewrite Hd in Hlt.
    simpl in Hlt. apply Z.ltb_lt in Hlt. lia. }
  destruct (D5 _ _ Hu) as [lu Hlu].
  assert (Hfar : ∀ x, x ∈ lu ++ [u] → x ≠ n).
  { intros x Hx ->. apply elem_of_app in Hx as [Hx|Hx].
    - destruct (ancestors_closer _ _ _ D1 Hlu _ _ Hu Hdu n Hx)
        as (px & dx & Hpx & Hdx & Hle).
      assert (px = pn) as -> by congruence.
      rewrite Hdx in Hlt. simpl in Hlt. apply Z.ltb_lt in Hlt. lia.
    - apply list_elem_of_singleton in Hx. done. }
  set (v_props' :=
         <[n := Props.mk (Props.color pn) (Fin (du + w)) (Some u)]> v_props).
  assert (Hsame : ∀ x, x ≠ n → v_props' !! x = v_props !! x).
  { intros x Hx. unfold v_props'. by rewrite lookup_insert_ne. }
  assert (Hnew : v_props' !! n =
                 Some (Props.mk (Props.color pn) (Fin (du + w)) (Some u))).
  { unfold v_props'. by rewrite lookup_insert_eq. }
  assert (Hlu' : ancestors v_props' u lu).
  { eapply ancestors_frame; [done|]. intros x Hx. apply Hsame. auto. }
  assert (Hln' : ancestors v_props' n (lu ++ [u])).
  { eapply ancestors_step; [exact Hnew|done|done]. }
  split_and!.
  - intros v p pa Hv Hpa. destruct (decide (v = n)) as [->|Hne].
    + rewrite Hnew in Hv. injection Hv as <-. simpl in Hpa.
      injection Hpa as <-. exists pu, du, (du + w)%Z.
      rewrite Hsame by done. split_and!; [done..|lia].
    + rewrite Hsame in Hv by done.
      destruct (D1 _ _ _ Hv Hpa) as (pp & dpa & dv & Hpp & Hdpa & Hdv & Hle).
      destruct (decide (pa = n)) as [->|Hpn].
      * assert (pp = pn) as -> by congruence.
        rewrite Hdpa in Hlt. simpl in Hlt. apply Z.ltb_lt in Hlt.
        eexists _, (du + w)%Z, dv. rewrite Hnew.
        split_and!; [done..|lia].
      * exists pp, dpa, dv. by rewrite Hsame.
  - intros v p d Hv Hd. destruct (decide (v = n)) as [->|Hne].
    + rewrite Hnew in Hv. injection Hv as <-. simpl in Hd.
      injection Hd as <-. lia.
    + rewrite Hsame in Hv by done. eauto.
  - intros p Hp. rewrite Hsame in Hp by done. eauto.
  - intros v p Hv Hpa Hd. destruct (decide (v = n)) as [->|Hne].
    + rewrite Hnew in Hv. by injection Hv as <-.
    + rewrite Hsame in Hv by done. eauto.
  - intros v p Hv. destruct (decide (v = n)) as [->|Hne]; [eauto|].
    rewrite Hsame in Hv by done. destruct (D5 _ _ Hv) as [l Hl].
    eapply ancestors_repoint; [exact Hsame|eauto|exact Hl].
Qed.

Lemma dijkstra_tree_init s (vs : list V) :
  dijkstra_tree s
    (<[s := Props.set_distance (Fin 0) (Props.mk WHITE Inf None)]>
       (foldl (λ m v, <[v := Props.mk WHITE Inf None]> m)
          (∅ : gmap V (Props.t V)) vs)).
Proof.
  set (tbl := <[s := _]> _).
  assert (Hlk : ∀ x q, tbl !! x = Some q →
            Props.parent q = None ∧
            ((x = s ∧ Props.distance q = Fin 0) ∨ Props.distance q = Inf)).
  { intros x q Hq. unfold tbl in Hq. destruct (decide (s = x)) as [->|Hne].
    - rewrite lookup_insert_eq in Hq. injection Hq as <-. auto.
    - rewrite lookup_insert_ne in Hq by done.
      rewrite (lookup_fill (λ _, Props.mk WHITE Inf None)) in Hq.
      case_decide; [injection Hq as <-; auto|].
      by rewrite lookup_empty in Hq. }
  split_and!.
  - intros v q pa Hv Hpa. destruct (Hlk _ _ Hv) as [Hn _]. congruence.
  - intros v q d Hv Hd.
    destruct (Hlk _ _ Hv) as [_ [[_ Hd']|Hd']]; rewrite Hd in Hd'; [|done].
    injection Hd' as ->. done.
  - intros q Hq. destruct (Hlk _ _ Hq) as [Hn [[_ Hd]|Hd]]; [done|].
    unfold tbl in Hq. rewrite lookup_insert_eq in Hq.
    injection Hq as <-. done.
  - intros v q Hv _ Hd. by destruct (Hlk _ _ Hv) as [_ [[-> _]|?]].
  - intros v q Hv. destruct (Hlk _ _ Hv) as [Hn _].
    exists []. by econstructor.
Qed.

Context `{PyOrd V}.

Lemma W_relax_tree s u in_queue st nw st' :
  WGraph.relax u in_queue st nw = Ret st' → (0 ≤ nw.2)%Z →
  dijkstra_tree s st.1 → dijkstra_tree s st'.1.
Proof.
  destruct st as [v_props QS], nw as [n w]. unfold WGraph.relax. simpl.
  destruct (getitem v_props n) as [pn| |] eqn:Hn; simpl; try done.
  destruct (getitem v_props u) as [pu| |] eqn:Hu; simpl; try done.
  apply getitem_Ret in Hn, Hu.
  destruct (num_lt _ _) eqn:Hlt; [|by intros [= <-]].
  repeat (rewrite getitem_insert_eq; simpl).
  rewrite !insert_insert_eq.
  destruct (Props.distance pu) as [du|] eqn:Hdu; [|done]. simpl in *.
  intros E Hw K.
  assert (st'.1 = <[n := Props.mk (Props.color pn) (Fin (du + w)) (Some u)]>
                    v_props) as ->.
  { destruct (getitem in_queue n) as [[]| |]; simpl in E; try done.
    - destruct (GraphHeapPQ.update _ _ _). by injection E as <-.
    - by injection E as <-. }
  by eapply dijkstra_tree_relax.
Qed.

Lemma W_dijkstra_loop_tree s fuel g : ∀ QS in_queue v_props tbl,
  WGraph.dijkstra_loop fuel g QS in_queue v_props = Ret tbl →
  nonneg_adj g → dijkstra_tree s v_props → dijkstra_tree s tbl.
Proof.
  induction fuel as [|fuel IH]; intros QS in_queue v_props tbl E Hg K;
    simpl in E.
  - destruct (length (data QS) =? 0); [by injection E as <-|done].
  - destruct (length (data QS) =? 0); [by injection E as <-|].
    destruct (GraphHeapPQ.dequeue QS) as [[du| |] QS']; try done.
    destruct (WGraph.getNeighbors g du.2) as [ns| |] eqn:Hns;
      simpl in E; try done.
    destruct (for_each _ ns (v_props, QS')) as [[v_props' QS'']| |] eqn:Ef;
      simpl in E; try done.
    eapply IH; [exact E|done|].
    apply getitem_Ret in Hns. apply Hg in Hns.
    eapply (for_each_inv (λ st, dijkstra_tree s st.1)) in Ef; [done| |done].
    intros st x st' Hx Er. eapply W_relax_tree; [exact Er|].
    by eapply Forall_forall in Hns.
Qed.

Lemma W_dijkstraP_tree fuel g s tbl :
  WGraph.dijkstraP fuel g s = Ret tbl → nonneg_adj g → dijkstra_tree s tbl.
Proof.
  unfold WGraph.dijkstraP, WGraph._buildVProps. intros E Hg.
  destruct (getitem _ s) as [p| |] eqn:Hp; simpl in E; try done.
  destruct (for_each _ (WGraph.vertexes g) []) as [entries| |];
    simpl in E; try done.
  eapply W_dijkstra_loop_tree; [exact E|done|].
  apply getitem_Ret in Hp.
  rewrite (lookup_fill (λ _, Props.mk WHITE Inf None)) in Hp.
  case_decide; [|by rewrite lookup_empty in Hp]. injection Hp as <-.
  by apply dijkstra_tree_init.
Qed.

Lemma W_dijkstraP_path fuel g s tbl v p :
  WGraph.dijkstraP fuel g s = Ret tbl → nonneg_adj g →
  tbl !! v = Some p → Props.distance p ≠ Inf →
  ∃ l, ancestors tbl v l ∧ head (l ++ [v]) = Some s ∧
       getPath (length l) v tbl = Ret (l ++ [v]).
Proof.
  intros E Hg Hv Hd.
  pose proof (W_dijkstraP_tree _ _ _ _ E Hg) as K.
  pose proof K as (_ & _ & _ & _ & D5).
  destruct (D5 _ _ Hv) as [l Hl]. exists l. split_and!; [done| |].
  - by eapply ancestors_from_source.
  - by apply getPath_loop_ancestors.
Qed.
End DijkstraFacts.

Section MoreGraphFacts.
Context `{Countable V}.
Implicit Types (vs : list V).

#[local] Abbreviation wsrc := (λ r : V * V * Z, r.1.1).
#[local] Abbreviation wdst := (λ r : V * V * Z, r.1.2).
#[local] Abbreviation went := (λ r : V * V * Z, (r.1.2, r.2)).
#[local] Abbreviation wval := (λ r : V * V * Z, r.2).

Lemma W_init_adjList vs e directed view g :
  WGraph.Graph_init vs e directed view = Ret g →
  ∀ v, WGraph.adjList g !! v =
       if decide (v ∈ vs)
       then Some (went <$> filter (λ r, wsrc r = v)
                             (WGraph._buildRelation directed e))
       else None.
Proof.
  intros Hg.
  assert (Hall : Forall (anchored wsrc wdst vs) e)
    by (apply (W_init_Ret vs e directed view); eauto).
  apply (W_buildRelation_Forall _ directed e) in Hall;
    [|intros r [? ?]; by split].
  rewrite W_init_unfold in Hg. cbv zeta in Hg.
  destruct (build_adj_ok wsrc went vs (WGraph._buildRelation directed e)
              (anchored_src _ _ _ _ Hall)) as (adj & Eadj & Hadj).
  rewrite Eadj in Hg. simpl in Hg.
  destruct (build_mat wsrc wdst wval vs _) as [mat| |]; try done.
  simpl in Hg. by injection Hg as <-.
Qed.

Lemma W_init_nonneg vs e directed view g :
  WGraph.Graph_init vs e directed view = Ret g →
  Forall (λ r, (0 ≤ r.2)%Z) e → nonneg_adj g.
Proof.
  intros Hg Hnn u l Hl.
  rewrite (W_init_adjList _ _ _ _ _ Hg) in Hl.
  case_decide; [|done]. injection Hl as <-.
  apply (W_buildRelation_Forall (λ r, (0 ≤ r.2)%Z) directed e) in Hnn;
    [|done].
  apply Forall_fmap, Forall_forall. intros r [_ Hr]%list_elem_of_filter.
  simpl. by eapply Forall_forall in Hnn.
Qed.

(** The constructor of graph_heap_pq.py does put both directions of every
    relation of an undirected graph in the adjacency list. *)
Lemma W_undirected_adjList vs e view g u v w :
  WGraph.Graph_init vs e false view = Ret g → (u, v, w) ∈ e →
  ∃ lu lv, WGraph.adjList g !! u = Some lu ∧ (v, w) ∈ lu ∧
           WGraph.adjList g !! v = Some lv ∧ (u, w) ∈ lv.
Proof.
  intros Hg He.
  assert (Hall : Forall (anchored wsrc wdst vs) e)
    by (apply (W_init_Ret vs e false view); eauto).
  eapply Forall_forall in Hall as [Hu Hv]; [|exact He]. simpl in *.
  pose proof (W_init_adjList _ _ _ _ _ Hg) as Hadj.
  eexists _, _. rewrite !Hadj, !decide_True by done.
  split_and!; [done| |done|].
  - apply list_elem_of_fmap. exists (u, v, w). split; [done|].
    apply list_elem_of_filter. split; [done|].
    apply W_buildRelation_elem. by left.
  - apply list_elem_of_fmap. exists (v, u, w). split; [done|].
    apply list_elem_of_filter. split; [done|].
    apply W_buildRelation_elem. right. done.
Qed.
End MoreGraphFacts.

(** C1, on the failing input.  On the graph with vertices 0..3 and the
    edges 0→2, 2→1, 1→3 of weight 1 (all weights non-negative) vertex 3 is
    reached from 0 by a path of weight 3, yet for every iteration budget that
    lets the loop end [dijkstraP(0)] returns a table in which the distance of
    vertex 3 is infinity. *)
Theorem dijkstraP_misses_reachable_vertex :
  Forall (λ r, (0 ≤ r.2)%Z) chain_edges ∧
  walk chain_edges 0 3 3%Z 3 ∧
  ∀ fuel,
    (g ← chain_graph; tbl ← WGraph.dijkstraP (5 + fuel) g 0;
     Ret (distance_of tbl 3)) = Ret (Some Inf).
Proof.
  split; [repeat constructor; done|]. split.
  - apply (walk_cons _ 0 2 3 1%Z 2%Z 2); [set_solver|].
    apply (walk_cons _ 2 1 3 1%Z 1%Z 1); [set_solver|].
    apply (walk_cons _ 1 3 3 1%Z 0%Z 0); [set_solver|]. constructor.
  - intros fuel. vm_compute. reflexivity.
Qed.

(** C3, on the failing input.  On the graph of graph_heap_pq.py with
    vertices 0, 1, a loop at 0 and the edge 0→1, vertex 0 is 0 hops and
    vertex 1 is 1 hop from 0, yet [bfs(0)] records distance 1 for vertex 0
    and distance 2 for vertex 1. *)
Theorem bfs_self_loop_distance :
  walk loop_edges 0 0 0%Z 0 ∧ walk loop_edges 0 1 1%Z 1 ∧
  ∀ fuel,
    (g ← loop_graph; tbl ← WGraph.bfs (4 + fuel) g 0;
     Ret (distance_of tbl 0, distance_of tbl 1))
    = Ret (Some (Fin 1), Some (Fin 2)).
Proof.
  split; [constructor|]. split.
  - apply (walk_cons _ 0 1 1 1%Z 0%Z 0); [set_solver|]. constructor.
  - intros fuel. vm_compute. reflexivity.
Qed.

Lemma self_parent_diverges `{Countable V} (tbl : gmap V (Props.t V)) v p :
  tbl !! v = Some p → Props.parent p = Some v →
  ∀ fuel acc, getPath_loop fuel tbl v acc = OutOfFuel.
Proof.
  intros Hp Hpa. induction fuel as [|fuel IH]; intros acc; simpl;
    rewrite (getitem_Some _ _ _ Hp); simpl; rewrite Hpa; [done|apply IH].
Qed.

(** C10, on the failing input.  In the table that the [bfs(0)] of
    graph_heap_pq.py returns for the graph with a loop at 0, vertex 0 is its
    own parent, and [getPath] on vertex 0 does not end: it uses up every
    iteration budget. *)
Theorem getPath_diverges_on_bfs_table :
  ∀ fuel fuel',
    (g ← loop_graph; tbl ← WGraph.bfs (4 + fuel) g 0; getPath fuel' 0 tbl)
    = OutOfFuel.
Proof.
  intros fuel fuel'.
  assert (∃ tbl p, (g ← loop_graph; WGraph.bfs (4 + fuel) g 0) = Ret tbl ∧
                   tbl !! 0 = Some p ∧ Props.parent p = Some 0)
    as (tbl & p & E & Hp & Hpa).
  { eexists _, _. split; [vm_compute; reflexivity|].
    split; vm_compute; reflexivity. }
  destruct loop_graph as [g| |]; simpl in *; try done.
  rewrite E. simpl. by eapply self_parent_diverges.
Qed.

(** C6, on the failing input.  [Graph([0, 1], [(0, 1)], directed=False)] of
    labyrinth_graph.py holds the relation (0, 1) in both views and its
    reverse (1, 0) in neither; the method [_init_], which calls
    [_buildRelation], holds both. *)
Theorem undirected_constructor_keeps_one_direction :
  ∃ g g',
    LGraph.Graph_init [0; 1] [(0, 1)] false true = Ret g ∧
    LGraph.adjList g !! 0 = Some [1] ∧
    LGraph.adjList g !! 1 = Some [] ∧
    cell (LGraph.adjMat g) 0 1 = 1%Z ∧
    cell (LGraph.adjMat g) 1 0 = 0%Z ∧
    LGraph._init_ [0; 1] [(0, 1)] false true = Ret g' ∧
    LGraph.adjList g' !! 1 = Some [0] ∧
    cell (LGraph.adjMat g') 1 0 = 1%Z.
Proof.
  eexists _, _. split_and!; vm_compute; reflexivity.
Qed.

(** C5, as amended.  For every vertex [v] of a constructed graph the
    neighbours listed for [v] in the adjacency list and those found by
    scanning row [encoder[v]] of the adjacency matrix and decoding the
    columns are the same set: in the unweighted graph of labyrinth_graph.py
    with the cells equal to 1 as marks, and in the weighted graph of
    graph_heap_pq.py with the non-zero cells as marks provided no relation
    has weight 0. *)
Theorem matrix_list_agreement `{Countable V} (vs : list V)
    (rels : list (V * V)) (e : list (V * V * Z)) (directed view : bool)
    (v : V) :
  v ∈ vs →
  (∀ g, LGraph.Graph_init vs rels directed view = Ret g →
     ∃ row nl nm,
       LGraph.encoder g !! v = Some row ∧
       LGraph._getNeighborsAdjList g v = Ret nl ∧
       LGraph._getNeighborsMatAdj g row = Ret nm ∧
       ∀ x, x ∈ nl ↔ x ∈ nm) ∧
  (∀ g, WGraph.Graph_init vs e directed view = Ret g →
     Forall (λ r, r.2 ≠ 0%Z) e →
     ∃ row nl nm,
       WGraph.encoder g !! v = Some row ∧
       WGraph._getNeighborsAdjList g v = Ret nl ∧
       matrix_neighbors g row = Ret nm ∧
       ∀ x, x ∈ nl.*1 ↔ x ∈ nm).
Proof.
  intros Hv. split.
  - intros g Hg. by eapply L_views_agree.
  - intros g Hg Hnz. by eapply W_views_agree.
Qed.

Lemma matrix_list_agreement_witness :
  (∃ g row nl nm,
     LGraph.Graph_init [0; 1; 2] [(0, 1); (0, 2); (2, 0)] true true = Ret g ∧
     LGraph.encoder g !! 0 = Some row ∧
     LGraph._getNeighborsAdjList g 0 = Ret nl ∧
     LGraph._getNeighborsMatAdj g row = Ret nm ∧
     ∀ x, x ∈ nl ↔ x ∈ nm) ∧
  (∃ g row nl nm,
     WGraph.Graph_init [0; 1; 2] [(0, 1, 5%Z); (2, 0, (-1)%Z)] false true
       = Ret g ∧
     WGraph.encoder g !! 0 = Some row ∧
     WGraph._getNeighborsAdjList g 0 = Ret nl ∧
     matrix_neighbors g row = Ret nm ∧
     ∀ x, x ∈ nl.*1 ↔ x ∈ nm).
Proof.
  assert (Hv : 0 ∈ [0; 1; 2]) by (by left).
  destruct (matrix_list_agreement [0; 1; 2] [(0, 1); (0, 2); (2, 0)]
              [(0, 1, 5%Z); (2, 0, (-1)%Z)] true true 0 Hv) as [HL _].
  destruct (matrix_list_agreement [0; 1; 2] [(0, 1); (0, 2); (2, 0)]
              [(0, 1, 5%Z); (2, 0, (-1)%Z)] false true 0 Hv) as [_ HW].
  split.
  - destruct (LGraph.Graph_init [0; 1; 2] [(0, 1); (0, 2); (2, 0)] true true)
      as [g| |] eqn:E; [|by vm_compute in E..].
    destruct (HL g eq_refl) as (row & nl & nm & ?). by exists g, row, nl, nm.
  - destruct (WGraph.Graph_init [0; 1; 2] [(0, 1, 5%Z); (2, 0, (-1)%Z)]
                false true) as [g| |] eqn:E; [|by vm_compute in E..].
    destruct (HW g eq_refl) as (row & nl & nm & ?).
    { repeat constructor; done. }
    by exists g, row, nl, nm.
Defined.

Lemma matrix_list_agreement_counterexample :
  ∃ g, WGraph.Graph_init [0; 1] [(0, 1, 0%Z)] true true = Ret g ∧
       WGraph.encoder g !! 0 = Some 0 ∧
       WGraph._getNeighborsAdjList g 0 = Ret [(1, 0%Z)] ∧
       matrix_neighbors g 0 = Ret [].
Proof. eexists. split_and!; vm_compute; reflexivity. Qed.

(** C7, as amended.  Construction of either graph succeeds exactly when
    both endpoints of every supplied relation are in the vertex sequence, and
    otherwise raises a [KeyError]; whether the vertex sequence repeats a
    vertex plays no part. *)
Theorem construction_errors `{Countable V} (vs : list V)
    (e : list (V * V * Z)) (rels : list (V * V)) (directed view : bool) :
  ((∃ g, WGraph.Graph_init vs e directed view = Ret g) ↔
     Forall (λ r, r.1.1 ∈ vs ∧ r.1.2 ∈ vs) e) ∧
  (WGraph.Graph_init vs e directed view = Raise KeyError ↔
     ¬ Forall (λ r, r.1.1 ∈ vs ∧ r.1.2 ∈ vs) e) ∧
  ((∃ g, LGraph.Graph_init vs rels directed view = Ret g) ↔
     Forall (λ r, r.1 ∈ vs ∧ r.2 ∈ vs) rels) ∧
  (LGraph.Graph_init vs rels directed view = Raise KeyError ↔
     ¬ Forall (λ r, r.1 ∈ vs ∧ r.2 ∈ vs) rels).
Proof.
  split_and!.
  - apply W_init_Ret.
  - split; [|apply W_init_Raise].
    intros E Hall. apply (W_init_Ret vs e directed view) in Hall as [g Hg].
    congruence.
  - apply L_init_Ret.
  - split; [|apply L_init_Raise].
    intros E Hall. apply (L_init_Ret vs rels directed view) in Hall as [g Hg].
    congruence.
Qed.

Lemma construction_errors_witness :
  (∃ g, WGraph.Graph_init [0; 0; 1] [(0, 1, 2%Z)] true true = Ret g) ∧
  LGraph.Graph_init [0; 1] [(0, 2)] true true = Raise KeyError.
Proof.
  destruct (construction_errors [0; 0; 1] [(0, 1, 2%Z)] [] true true)
    as (HW & _).
  destruct (construction_errors [0; 1] [] [(0, 2)] true true)
    as (_ & _ & _ & HL).
  split.
  - apply HW. repeat constructor; set_solver.
  - apply HL. intros Hall. apply Forall_inv in Hall as [_ Hall].
    simpl in Hall. set_solver.
Defined.

Lemma construction_duplicates_counterexample :
  ¬ NoDup [0; 0; 1] ∧
  (∃ g, WGraph.Graph_init [0; 0; 1] [(0, 1, 2%Z)] true true = Ret g) ∧
  (∃ g, LGraph.Graph_init [0; 0; 1] [(0, 1)] true true = Ret g).
Proof.
  split_and!.
  - intros Hnd. apply NoDup_cons in Hnd as [Hnd _]. set_solver.
  - eexists. vm_compute. reflexivity.
  - eexists. vm_compute. reflexivity.
Qed.

(** C9, as amended.  [getPath] has no failure for an unreachable target; the
    only exception it can raise is the [KeyError] of a vertex missing from the
    table.  When the parent links from the target end at a vertex without
    parent it returns the vertices of that chain in order, that vertex first
    and the target last, and whatever it returns is such a chain.  For a
    table returned by [bfs] (either file) or [dijkstraP] and a target whose
    recorded distance is infinity it returns the one-element path
    [[target]].  For a table returned by the [bfs] of labyrinth_graph.py and
    a target at finite distance [d] it returns a sequence of [d + 1] vertices
    from the source to the target; for a table returned by [dijkstraP] on a
    constructed graph with non-negative weights and a target at finite
    distance it returns a sequence from the source to the target. *)
Theorem getPath_result `{Countable V} `{!PyIndex V} `{!PyOrd V}
    (tbl : gmap V (Props.t V)) (target : V) :
  (∀ fuel e, getPath fuel target tbl = Raise e → e = KeyError) ∧
  (∀ fuel l, ancestors tbl target l → length l ≤ fuel →
     getPath fuel target tbl = Ret (l ++ [target])) ∧
  (∀ fuel path, getPath fuel target tbl = Ret path →
     ∃ l, path = l ++ [target] ∧ ancestors tbl target l) ∧
  (∀ fuel0 p,
     (∃ g s, LGraph.bfs fuel0 g s = Ret tbl) ∨
     (∃ g s, WGraph.bfs fuel0 g s = Ret tbl) ∨
     (∃ g s, WGraph.dijkstraP fuel0 g s = Ret tbl) →
     tbl !! target = Some p → Props.distance p = Inf →
     ∀ fuel, getPath fuel target tbl = Ret [target]) ∧
  (∀ fuel0 g s p d,
     LGraph.bfs fuel0 g s = Ret tbl →
     tbl !! target = Some p → Props.distance p = Fin d →
     ∃ l, getPath (Z.to_nat d) target tbl = Ret (l ++ [target]) ∧
          head (l ++ [target]) = Some s ∧ length l = Z.to_nat d) ∧
  (∀ fuel0 vs e directed view g s p,
     WGraph.Graph_init vs e directed view = Ret g →
     Forall (λ r, (0 ≤ r.2)%Z) e →
     WGraph.dijkstraP fuel0 g s = Ret tbl →
     tbl !! target = Some p → Props.distance p ≠ Inf →
     ∃ l, getPath (length l) target tbl = Ret (l ++ [target]) ∧
          head (l ++ [target]) = Some s).
Proof.
  split_and!.
  - intros fuel e. apply getPath_loop_Raise.
  - intros fuel l Hl Hf. by apply getPath_loop_ancestors.
  - intros fuel path. apply getPath_loop_Ret.
  - intros fuel0 p Htbl Hp Hd fuel.
    eapply inf_no_parent_getPath; [|done..].
    destruct Htbl as [(g & s & E)|[(g & s & E)|(g & s & E)]].
    + by eapply L_bfs_inf_no_parent.
    + by eapply W_bfs_inf_no_parent.
    + by eapply W_dijkstraP_inf_no_parent.
  - intros fuel0 g s p d E Hp Hd.
    destruct (L_bfs_path _ _ _ _ _ _ _ E Hp Hd) as (l & ? & ? & ? & _).
    eauto.
  - intros fuel0 vs e directed view g s p Hg Hnn E Hp Hd.
    destruct (W_dijkstraP_path fuel0 g s tbl target p E) as (l & _ & ? & ?);
      [by eapply W_init_nonneg|done..|].
    eauto.
Qed.

Lemma getPath_result_witness :
  (∃ g tbl,
     apart_graph = Ret g ∧ LGraph.bfs 5 g 0 = Ret tbl ∧
     distance_of tbl 2 = Some Inf ∧
     getPath 0 2 tbl = Ret [2] ∧
     getPath 1 1 tbl = Ret ([0] ++ [1]) ∧
     ∃ l, getPath (Z.to_nat 1) 1 tbl = Ret (l ++ [1]) ∧
          head (l ++ [1]) = Some 0 ∧ length l = Z.to_nat 1) ∧
  (∃ g tbl,
     chain_graph = Ret g ∧ WGraph.dijkstraP 5 g 0 = Ret tbl ∧
     distance_of tbl 1 = Some (Fin 2) ∧
     ∃ l, getPath (length l) 1 tbl = Ret (l ++ [1]) ∧
          head (l ++ [1]) = Some 0).
Proof.
  split.
  - destruct apart_graph as [g| |] eqn:Eg; [|by vm_compute in Eg..].
    destruct (LGraph.bfs 5 g 0) as [tbl| |] eqn:Et;
      [|vm_compute in Eg; injection Eg as <-; by vm_compute in Et..].
    assert (H2 : tbl !! 2 = Some (Props.mk WHITE Inf None)).
    { vm_compute in Eg. injection Eg as <-. vm_compute in Et.
      injection Et as <-. reflexivity. }
    assert (H1 : tbl !! 1 = Some (Props.mk BLACK (Fin 1) (Some 0))).
    { vm_compute in Eg. injection Eg as <-. vm_compute in Et.
      injection Et as <-. reflexivity. }
    assert (H0 : tbl !! 0 = Some (Props.mk BLACK (Fin 0) None)).
    { vm_compute in Eg. injection Eg as <-. vm_compute in Et.
      injection Et as <-. reflexivity. }
    exists g, tbl.
    split_and!; [done|done|by unfold distance_of; rewrite H2| | |].
    + destruct (getPath_result tbl 2) as (_ & _ & _ & Hinf & _).
      eapply (Hinf 5); [|exact H2|done]. left. by exists g, 0.
    + destruct (getPath_result tbl 1) as (_ & Hanc & _).
      apply Hanc; [|simpl; lia].
      apply (ancestors_step tbl 1 _ 0 [] H1 eq_refl).
      by apply (ancestors_root tbl 0 _ H0).
    + destruct (getPath_result tbl 1) as (_ & _ & _ & _ & Hbfs & _).
      by apply (Hbfs 5 g 0 _ 1%Z Et H1).
  - unfold chain_graph.
    destruct (WGraph.Graph_init [0; 1; 2; 3] chain_edges true true)
      as [g| |] eqn:Eg; [|by vm_compute in Eg..].
    destruct (WGraph.dijkstraP 5 g 0) as [tbl| |] eqn:Et;
      [|vm_compute in Eg; injection Eg as <-; by vm_compute in Et..].
    assert (H1 : tbl !! 1 = Some (Props.mk WHITE (Fin 2) (Some 2))).
    { vm_compute in Eg. injection Eg as <-. vm_compute in Et.
      injection Et as <-. reflexivity. }
    exists g, tbl.
    split_and!; [done|done|by unfold distance_of; rewrite H1|].
    destruct (getPath_result tbl 1) as (_ & _ & _ & _ & _ & Hdij).
    eapply (Hdij 5 _ _ _ _ g 0 _ Eg); [|exact Et|exact H1|done].
    repeat constructor; done.
Defined.

Lemma getPath_unreachable_counterexample :
  (g ← apart_graph; tbl ← LGraph.bfs 5 g 0;
   path ← getPath 5 2 tbl; Ret (distance_of tbl 2, path))
  = Ret (Some Inf, [2]).
Proof. vm_compute. reflexivity. Qed.

(** * Further properties of the heap and the queue *)

Section HeapSortFacts.
Context {A : Type} `{PyOrdLaws A}.
Variable min_heapify : list A → nat → list A.
Variable cfg : bool.
Hypothesis Himpl : ∀ d i,
  heapify_data min_heapify cfg d i = sift (violates cfg) d i.

(** Deleting the root of an ordered heap leaves an ordered heap with the
    other elements. *)
Lemma delete_root x d :
  delete min_heapify (mkHeap (x :: d) cfg) x =
    (Ret tt, build min_heapify (mkHeap d cfg) []) ∧
  heap_ok (build min_heapify (mkHeap d cfg) []) ∧
  config (build min_heapify (mkHeap d cfg) []) = cfg ∧
  data (build min_heapify (mkHeap d cfg) []) ≡ₚ d.
Proof.
  split_and!.
  - unfold delete. simpl. by rewrite py_eq_refl.
  - by apply (build_heap_ok _ cfg Himpl).
  - by apply (build_config _ cfg Himpl).
  - by apply (build_perm _ cfg Himpl).
Qed.

Lemma root_extreme x d b :
  heap_ok (mkHeap (x :: d) cfg) → b ∈ x :: d → violates cfg x b = false.
Proof.
  intros Hq Hb. apply list_elem_of_lookup in Hb as [j Hj].
  eapply (heap_ordered_root _ (violates_strict_weak cfg) (x :: d) x Hq
            eq_refl j); done.
Qed.
End HeapSortFacts.

Section GraphHeapSort.
Context {A : Type} `{PyOrdLaws A}.

Lemma graph_heapSort_loop cfg n : ∀ (h : Heap A) result fuel,
  config h = cfg → heap_ok h → length (data h) = n → n ≤ fuel →
  ∃ out, GraphHeapPQ.heapSort_loop fuel h result = Ret (result ++ out) ∧
         out ≡ₚ data h ∧ sorted_for cfg out.
Proof.
  induction n as [|n IH]; intros [d c] result fuel Hc Hq Hn Hf;
    simpl in *; subst c.
  - destruct d; [|done]. exists []. destruct fuel; simpl;
      rewrite app_nil_r; repeat split; constructor.
  - destruct d as [|x d]; [done|]. destruct fuel as [|fuel]; [lia|].
    destruct (delete_root GraphHeapPQ.min_heapify cfg
                (heapify_data_graph cfg) x d) as (Ed & Hok & Hc & Hp).
    simpl. unfold GraphHeapPQ.delete. rewrite Ed.
    destruct (IH _ (result ++ [x]) fuel Hc Hok) as (out & -> & Hperm & Hs).
    { rewrite Hp. simpl in Hn. lia. }
    { lia. }
    exists (x :: out). split; [by rewrite <- app_assoc|]. split.
    + by rewrite Hperm, Hp.
    + constructor; [done|]. apply Forall_forall. intros b Hb.
      eapply (root_extreme cfg); [done|]. right. by rewrite <- Hp, <- Hperm.
Qed.

Lemma hpq_heapSort_loop n : ∀ (q : Heap A) result fuel,
  config q = true → heap_ok q → length (data q) = n → n ≤ fuel →
  ∃ out, HeapPriorityQueue.heapSort_loop fuel q result
           = Ret (rev out ++ result) ∧
         out ≡ₚ data q ∧ sorted_for true out.
Proof.
  induction n as [|n IH]; intros [d c] result fuel Hc Hq Hn Hf;
    simpl in *; subst c.
  - destruct d; [|done]. exists []. destruct fuel; simpl;
      repeat split; constructor.
  - destruct d as [|x d]; [done|]. destruct fuel as [|fuel]; [lia|].
    destruct (delete_root HeapPriorityQueue.min_heapify true
                heapify_data_hpq x d) as (Ed & Hok & Hc & Hp).
    simpl. unfold HeapPriorityQueue.dequeue, dequeue. simpl. rewrite Ed.
    destruct (IH _ (x :: result) fuel Hc Hok) as (out & -> & Hperm & Hs).
    { rewrite Hp. simpl in Hn. lia. }
    { lia. }
    exists (x :: out). split; [simpl; by rewrite <- app_assoc|]. split.
    + by rewrite Hperm, Hp.
    + constructor; [done|]. apply Forall_forall. intros b Hb.
      eapply (root_extreme true); [done|]. right. by rewrite <- Hp, <- Hperm.
Qed.

(** Reading a descending list backwards gives an ascending one. *)
Lemma sorted_for_rev (out : list A) :
  sorted_for true out → sorted_for false (rev out).
Proof.
  unfold sorted_for. induction 1 as [|x out _ IH Hx]; simpl; [constructor|].
  apply StronglySorted_app. split_and!.
  - intros a b Ha ->%list_elem_of_singleton. simpl.
    eapply Forall_forall in Hx; [exact Hx|].
    apply list_elem_of_In, in_rev. by apply list_elem_of_In.
  - done.
  - repeat constructor.
Qed.
End GraphHeapSort.

(** X1.  [heapSort] of graph_heap_pq.py returns, for every list of elements
    whose [<] is a strict weak order and whichever the configuration, after
    [len(lst)] iterations: the result is a rearrangement of [lst], running
    downwards for [config=True] and upwards for [config=False]. *)
Theorem graph_heapSort_sorts {A} `{PyOrdLaws A} (lst : list A) (cfg : bool)
    (fuel : nat) :
  ∃ out, GraphHeapPQ.heapSort (length lst + fuel) lst cfg = Ret out ∧
         out ≡ₚ lst ∧
         StronglySorted
           (λ a b, (if cfg then py_lt a b else py_lt b a) = false) out.
Proof.
  destruct (Heap_init_ok GraphHeapPQ.min_heapify cfg
              (heapify_data_graph cfg) lst) as (Hok & Hc & Hp).
  destruct (graph_heapSort_loop cfg (length lst) _ [] (length lst + fuel)
              Hc Hok) as (out & E & Hperm & Hs).
  { by rewrite Hp. }
  { lia. }
  exists out. split; [exact E|]. split; [by rewrite Hperm|exact Hs].
Qed.

Lemma graph_heapSort_sorts_witness :
  ∃ out, GraphHeapPQ.heapSort (3 + 0) [2; 3; 1] false = Ret out ∧
         out ≡ₚ [2; 3; 1] ∧
         StronglySorted (λ a b, py_lt b a = false) out.
Proof. exact (graph_heapSort_sorts [2; 3; 1] false 0). Defined.

(** X2.  [heapSort] of heap_priority_queue.py returns, for every list of
    elements whose [<] is a strict weak order, after [len(lst)] iterations:
    the result is a rearrangement of [lst] in ascending order (no element is
    less than one before it). *)
Theorem hpq_heapSort_ascending {A} `{PyOrdLaws A} (lst : list A)
    (fuel : nat) :
  ∃ out, HeapPriorityQueue.heapSort (length lst + fuel) lst = Ret out ∧
         out ≡ₚ lst ∧ StronglySorted (λ a b, py_lt b a = false) out.
Proof.
  destruct (Heap_init_ok HeapPriorityQueue.min_heapify true
              heapify_data_hpq lst) as (Hok & Hc & Hp).
  destruct (hpq_heapSort_loop (length lst) _ [] (length lst + fuel)
              Hc Hok) as (out & E & Hperm & Hs).
  { by rewrite Hp. }
  { lia. }
  exists (rev out). split; [by rewrite app_nil_r in E|].
  split; [by rewrite <- Permutation_rev, Hperm|by apply sorted_for_rev].
Qed.

Lemma hpq_heapSort_ascending_witness :
  ∃ out, HeapPriorityQueue.heapSort (3 + 0) [2; 3; 1] = Ret out ∧
         out ≡ₚ [2; 3; 1] ∧ StronglySorted (λ a b, py_lt b a = false) out.
Proof. exact (hpq_heapSort_ascending [2; 3; 1] 0). Defined.

Section UpdateFacts.
Context {A : Type} (r : A → A → bool) (Hr : strict_weak r).


End UpdateFacts.





Section ContentFacts.
Context {A : Type} `{PyOrd A}.
Variable min_heapify : list A → nat → list A.
Hypothesis Hperm : ∀ d i, min_heapify d i ≡ₚ d.

Lemma heapify_keeps (h : Heap A) i :
  data (heapify min_heapify h i) ≡ₚ data h ∧
  config (heapify min_heapify h i) = config h.
Proof.
  unfold heapify. destruct (config h) eqn:Ec; simpl; [|by rewrite Hperm].
  split; [|done]. unfold max_heapify. rewrite max_heapify_fuel_sift.
  apply sift_perm.
Qed.

Lemma foldl_heapify_keeps l : ∀ h : Heap A,
  data (foldl (heapify min_heapify) h l) ≡ₚ data h ∧
  config (foldl (heapify min_heapify) h l) = config h.
Proof.
  induction l as [|i l IH]; intros h; simpl; [done|].
  destruct (IH (heapify min_heapify h i)) as [-> ->].
  apply heapify_keeps.
Qed.

Lemma build_keeps (h : Heap A) nd :
  data (build min_heapify h nd) ≡ₚ build_input h nd ∧
  config (build min_heapify h nd) = config h.
Proof.
  unfold build, build_input.
  destruct nd; [apply foldl_heapify_keeps|].
  apply (foldl_heapify_keeps _ (mkHeap _ _)).
Qed.

Lemma remove_first_perm (d : list A) x :
  contains d x = true →
  ∃ y, y ∈ d ∧ py_eq y x = true ∧ d ≡ₚ y :: remove_first d x.
Proof.
  induction d as [|z d IH]; simpl; [done|].
  destruct (py_eq z x) eqn:E; simpl.
  - intros _. exists z. split_and!; [by left|done|done].
  - intros Hc. destruct (IH Hc) as (y & Hy & Hyx & Hp).
    exists y. split_and!; [by right|done|].
    rewrite Hp at 1. apply Permutation_swap.
Qed.

Lemma heap_contents (h : Heap A) (d : list A) (cfg : bool) (x : A) :
  (data (Heap_init min_heapify d cfg) ≡ₚ d ∧
   config (Heap_init min_heapify d cfg) = cfg) ∧
  (data (insert min_heapify h x) ≡ₚ data h ++ [x] ∧
   config (insert min_heapify h x) = config h) ∧
  (∀ h', delete min_heapify h x = (Ret tt, h') →
     config h' = config h ∧
     ∃ y, y ∈ data h ∧ py_eq y x = true ∧ data h ≡ₚ y :: data h').
Proof.
  split_and!.
  - unfold Heap_init. destruct (build_keeps (mkHeap [] cfg) d) as [-> _].
    by destruct d.
  - apply (build_keeps (mkHeap [] cfg) d).
  - unfold insert. by destruct (build_keeps (mkHeap (data h ++ [x]) (config h)) [])
      as [-> _].
  - apply (build_keeps (mkHeap (data h ++ [x]) (config h)) []).
  - intros h'. unfold delete.
    destruct (length (data h) =? 0); [done|].
    destruct (contains (data h) x) eqn:Ec; [|done]. simpl.
    intros [= <-].
    destruct (build_keeps (mkHeap (remove_first (data h) x) (config h)) [])
      as [Hp Hc].
    split; [exact Hc|].
    destruct (remove_first_perm _ _ Ec) as (y & Hy & Hyx & Hpy).
    exists y. split_and!; [done..|]. by rewrite Hp.
Qed.
End ContentFacts.

Lemma graph_min_heapify_perm {A} `{PyOrd A} (d : list A) i :
  GraphHeapPQ.min_heapify d i ≡ₚ d.
Proof.
  unfold GraphHeapPQ.min_heapify. rewrite min_heapify_fuel_sift.
  apply sift_perm.
Qed.

(** X5.  The heap operations of both files neither lose nor invent
    elements, whatever the configuration and whatever [<] and [==] do: a
    heap built from a list holds a rearrangement of it, [insert] adds the one
    new element, and a [delete] that returns removes one stored element equal
    to its argument.  None of them changes the configuration. *)
Theorem heap_operations_keep_elements {A} `{PyOrd A}
    (mh : list A → nat → list A) (h : Heap A) (d : list A) (cfg : bool)
    (x : A) :
  mh = GraphHeapPQ.min_heapify ∨ mh = HeapPriorityQueue.min_heapify →
  (data (Heap_init mh d cfg) ≡ₚ d ∧ config (Heap_init mh d cfg) = cfg) ∧
  (data (insert mh h x) ≡ₚ data h ++ [x] ∧
   config (insert mh h x) = config h) ∧
  (∀ h', delete mh h x = (Ret tt, h') →
     config h' = config h ∧
     ∃ y, y ∈ data h ∧ py_eq y x = true ∧ data h ≡ₚ y :: data h').
Proof.
  intros [-> | ->]; apply heap_contents.
  - apply graph_min_heapify_perm.
  - done.
Qed.

Lemma heap_operations_keep_elements_witness :
  (data (Heap_init HeapPriorityQueue.min_heapify [2; 3; 1] false)
     ≡ₚ [2; 3; 1] ∧
   config (Heap_init HeapPriorityQueue.min_heapify [2; 3; 1] false) = false) ∧
  (data (insert HeapPriorityQueue.min_heapify (mkHeap [5; 4] true) 7)
     ≡ₚ [5; 4] ++ [7] ∧
   config (insert HeapPriorityQueue.min_heapify (mkHeap [5; 4] true) 7)
     = true) ∧
  (∀ h', delete HeapPriorityQueue.min_heapify (mkHeap [5; 4] true) 7
         = (Ret tt, h') →
     config h' = true ∧
     ∃ y, y ∈ [5; 4] ∧ py_eq y 7 = true ∧ [5; 4] ≡ₚ y :: data h').
Proof.
  apply (heap_operations_keep_elements HeapPriorityQueue.min_heapify
           (mkHeap [5; 4] true) [2; 3; 1] false 7).
  by right.
Defined.





(** * Further properties of graph construction *)

Section EncodingMore.
Context `{Countable V}.
Implicit Types (vs : list V).

Lemma _buildEncoding_snoc vs x :
  _buildEncoding (vs ++ [x]) =
  (<[x := length vs]> (_buildEncoding vs).1,
   <[length vs := x]> (_buildEncoding vs).2).
Proof.
  unfold _buildEncoding. rewrite foldl_app. simpl.
  by destruct (enc_fold vs ∅ ∅ 0) as (enc & dec & -> & _).
Qed.

(** [encoder[v]] is the last position of [v] in the vertex list. *)
Lemma encoder_last vs : ∀ v i,
  (_buildEncoding vs).1 !! v = Some i →
  vs !! i = Some v ∧ ∀ j, vs !! j = Some v → j ≤ i.
Proof.
  induction vs as [|x vs IH] using rev_ind; intros v i.
  - unfold _buildEncoding. simpl. by rewrite lookup_empty.
  - rewrite _buildEncoding_snoc. simpl.
    destruct (decide (x = v)) as [->|Hne].
    + rewrite lookup_insert_eq. intros [= <-]. split.
      * by rewrite lookup_app_r, Nat.sub_diag.
      * intros j Hj. apply lookup_lt_Some in Hj.
        rewrite length_app in Hj. simpl in Hj. lia.
    + rewrite lookup_insert_ne by done. intros Hi.
      destruct (IH _ _ Hi) as [Hv Hlast]. split.
      * by apply lookup_app_l_Some.
      * intros j Hj. apply lookup_app_Some in Hj as [Hj|[_ Hj]]; [auto|].
        apply list_lookup_singleton_Some in Hj as [_ ?]. done.
Qed.

Lemma decoder_lookup vs i : (_buildEncoding vs).2 !! i = vs !! i.
Proof.
  unfold _buildEncoding.
  destruct (enc_fold vs ∅ ∅ 0) as (enc & dec & -> & Hdec & _). simpl.
  rewrite Hdec. case_decide as Hi.
  - by rewrite Nat.sub_0_r.
  - rewrite lookup_empty. symmetry. apply lookup_ge_None. lia.
Qed.
End EncodingMore.

(** X8.  [_buildEncoding] (both files): [decoder[i]] is the vertex at
    position [i]; [encoder] has exactly the vertices as keys and maps each to
    its last position, so decoding an encoded vertex gives it back and no two
    vertices share an index; when no vertex is repeated, encoding a decoded
    index gives it back as well. *)
Theorem encoding_round_trip `{Countable V} (vs : list V) :
  (∀ i, (_buildEncoding vs).2 !! i = vs !! i) ∧
  (∀ v, v ∈ vs ↔ is_Some ((_buildEncoding vs).1 !! v)) ∧
  (∀ v i, (_buildEncoding vs).1 !! v = Some i →
     (_buildEncoding vs).2 !! i = Some v ∧ ∀ j, vs !! j = Some v → j ≤ i) ∧
  (∀ v v' i, (_buildEncoding vs).1 !! v = Some i →
     (_buildEncoding vs).1 !! v' = Some i → v = v') ∧
  (NoDup vs → ∀ i v, (_buildEncoding vs).2 !! i = Some v →
     (_buildEncoding vs).1 !! v = Some i).
Proof.
  split_and!.
  - apply decoder_lookup.
  - apply _buildEncoding_spec.
  - intros v i Hi. destruct (encoder_last _ _ _ Hi) as [Hv Hlast].
    by rewrite decoder_lookup.
  - intros v v' i Hv Hv'. apply encoder_last in Hv as [Hv _].
    apply encoder_last in Hv' as [Hv' _]. congruence.
  - intros Hnd i v Hi. rewrite decoder_lookup in Hi.
    assert (Hin : v ∈ vs) by (by eapply list_elem_of_lookup_2).
    apply _buildEncoding_spec in Hin as [i' Hi'].
    destruct (encoder_last _ _ _ Hi') as [Hv' _].
    by rewrite (NoDup_lookup vs i i' v Hnd Hi Hv').
Qed.

Lemma encoding_round_trip_witness :
  (_buildEncoding [7; 5; 9]).1 !! 5 = Some 1.
Proof.
  destruct (encoding_round_trip [7; 5; 9]) as (_ & _ & _ & _ & Hnd).
  apply Hnd; [|reflexivity].
  apply NoDup_ListNoDup. repeat constructor; simpl; lia.
Defined.

Section WeightFacts.
Context `{Countable V}.

#[local] Abbreviation wsrc := (λ r : V * V * Z, r.1.1).
#[local] Abbreviation wdst := (λ r : V * V * Z, r.1.2).
#[local] Abbreviation went := (λ r : V * V * Z, (r.1.2, r.2)).
#[local] Abbreviation wval := (λ r : V * V * Z, r.2).



End WeightFacts.



Section LGraphMore.
Context `{Countable V}.
Implicit Types (vs : list V).

#[local] Abbreviation lsrc := (λ r : V * V, r.1).
#[local] Abbreviation ldst := (λ r : V * V, r.2).
#[local] Abbreviation lval := (λ _ : V * V, 1%Z).

Lemma L_sym_fold (e : list (V * V)) : ∀ (s : gset (V * V)) r,
  r ∈ foldl (λ (s : gset (V * V)) el, {[ (el.2, el.1) ]} ∪ ({[ el ]} ∪ s)) s e ↔
  r ∈ s ∨ r ∈ e ∨ (r.2, r.1) ∈ e.
Proof.
  induction e as [|el e IH]; intros s r; simpl.
  - set_solver.
  - rewrite IH. destruct r as [a b], el as [a' b']. simpl.
    rewrite !elem_of_cons. set_solver.
Qed.

Lemma L_buildRelation_elem directed (e : list (V * V)) r :
  r ∈ LGraph._buildRelation directed e ↔
  r ∈ e ∨ (directed = false ∧ (r.2, r.1) ∈ e).
Proof.
  unfold LGraph._buildRelation. destruct directed.
  - naive_solver.
  - rewrite elem_of_elements, L_sym_fold. set_solver.
Qed.

Lemma L_init__eq vs e directed view :
  LGraph._init_ vs e directed view =
  LGraph.Graph_init vs (LGraph._buildRelation directed e) directed view.
Proof. reflexivity. Qed.

Lemma L_init_parts vs rels directed view g :
  LGraph.Graph_init vs rels directed view = Ret g →
  Forall (anchored lsrc ldst vs) rels ∧
  build_adj lsrc ldst vs rels = Ret (LGraph.adjList g) ∧
  build_mat lsrc ldst lval vs rels = Ret (LGraph.adjMat g) ∧
  LGraph.encoder g = (_buildEncoding vs).1 ∧
  LGraph.decoder g = (_buildEncoding vs).2 ∧
  LGraph.vertexes g = vs ∧ LGraph.relations g = rels ∧
  LGraph.view g = view ∧ LGraph.directed g = directed.
Proof.
  intros Hg.
  assert (Hall : Forall (anchored lsrc ldst vs) rels)
    by (apply (L_init_Ret vs rels directed view); eauto).
  rewrite L_init_unfold in Hg.
  destruct (build_adj lsrc ldst vs rels) as [adj| |]; try done.
  destruct (build_mat lsrc ldst lval vs rels) as [mat| |]; try done.
  simpl in Hg. injection Hg as <-. done.
Qed.

Lemma L_init_adjList vs rels directed view g :
  LGraph.Graph_init vs rels directed view = Ret g →
  ∀ v, LGraph.adjList g !! v =
       if decide (v ∈ vs)
       then Some (ldst <$> filter (λ r, lsrc r = v) rels) else None.
Proof.
  intros Hg. destruct (L_init_parts _ _ _ _ _ Hg) as (Hall & Eadj & _).
  destruct (build_adj_ok lsrc ldst vs rels (anchored_src _ _ _ _ Hall))
    as (adj & Eadj' & Hadj).
  rewrite Eadj in Eadj'. by injection Eadj' as ->.
Qed.

Lemma L_init_marks vs rels directed view g :
  LGraph.Graph_init vs rels directed view = Ret g →
  square (length vs) (LGraph.adjMat g) ∧
  ∀ i j, cell (LGraph.adjMat g) i j = 1%Z ↔
         ∃ r, r ∈ rels ∧ (_buildEncoding vs).1 !! r.1 = Some i ∧
              (_buildEncoding vs).1 !! r.2 = Some j.
Proof.
  intros Hg. destruct (L_init_parts _ _ _ _ _ Hg) as (Hall & _ & Emat & _).
  destruct (build_mat_ok lsrc ldst ldst lval (λ c, c =? 1)%Z vs rels)
    as (mat & Emat' & Hsq & Hm); [done|done|by apply Forall_true|].
  rewrite Emat in Emat'. injection Emat' as <-. split; [done|].
  intros i j. rewrite <- Hm. symmetry. apply Z.eqb_eq.
Qed.
End LGraphMore.

Section WGraphMore.
Context `{Countable V}.
Implicit Types (vs : list V).

Lemma W_init_parts vs e directed view g :
  WGraph.Graph_init vs e directed view = Ret g →
  WGraph.vertexes g = vs ∧
  WGraph.relations g = WGraph._buildRelation directed e ∧
  WGraph.encoder g = (_buildEncoding vs).1 ∧
  WGraph.decoder g = (_buildEncoding vs).2 ∧
  WGraph.view g = view ∧ WGraph.directed g = directed ∧
  Forall (λ r, r.1.1 ∈ vs ∧ r.1.2 ∈ vs) (WGraph._buildRelation directed e).
Proof.
  intros Hg.
  assert (Hall : Forall (anchored (λ r : V * V * Z, r.1.1)
                           (λ r : V * V * Z, r.1.2) vs) e)
    by (apply (W_init_Ret vs e directed view); eauto).
  apply (W_buildRelation_Forall _ directed e) in Hall;
    [|intros r [? ?]; by split].
  rewrite W_init_unfold in Hg. cbv zeta in Hg.
  destruct (build_adj _ _ vs _) as [adj| |]; try done. simpl in Hg.
  destruct (build_mat _ _ _ vs _) as [mat| |]; try done. simpl in Hg.
  injection Hg as <-. done.
Qed.
End WGraphMore.


(** X11.  Undirected graphs.  The constructor of graph_heap_pq.py and the
    method [_init_] of labyrinth_graph.py, called with [directed=False], list
    [v] among the neighbours of [u] exactly when the relation between the two
    was supplied in one direction or the other (with that weight, in the
    weighted graph); so the adjacency list is symmetric.  In
    labyrinth_graph.py the cells of the matrix that hold 1 are symmetric as
    well. *)
Theorem undirected_views_symmetric `{Countable V} (vs : list V)
    (e : list (V * V * Z)) (rels : list (V * V)) (view : bool) :
  (∀ g, WGraph.Graph_init vs e false view = Ret g →
     ∀ u v w, (v, w) ∈ default [] (WGraph.adjList g !! u) ↔
              (u, v, w) ∈ e ∨ (v, u, w) ∈ e) ∧
  (∀ g, LGraph._init_ vs rels false view = Ret g →
     (∀ u v, v ∈ default [] (LGraph.adjList g !! u) ↔
             (u, v) ∈ rels ∨ (v, u) ∈ rels) ∧
     (∀ i j, cell (LGraph.adjMat g) i j = 1%Z ↔
             cell (LGraph.adjMat g) j i = 1%Z)).
Proof.
  split.
  - intros g Hg u v w.
    destruct (W_init_parts _ _ _ _ _ Hg) as (_ & _ & _ & _ & _ & _ & Hall).
    rewrite (W_init_adjList _ _ _ _ _ Hg).
    assert (Hrel : ∀ a b c, (a, b, c) ∈ WGraph._buildRelation false e ↔
                            (a, b, c) ∈ e ∨ (b, a, c) ∈ e).
    { intros a b c. rewrite W_buildRelation_elem. simpl. naive_solver. }
    case_decide as Hu; simpl.
    + rewrite list_elem_of_fmap. setoid_rewrite list_elem_of_filter.
      rewrite <- Hrel. split.
      * intros ([[a b] c] & [= -> ->] & Ha & Hr). simpl in Ha. by subst.
      * intros Hr. by exists (u, v, w).
    + split; [by intros ?%elem_of_nil|]. intros Hr%Hrel.
      eapply Forall_forall in Hall as [? _]; [|exact Hr]. done.
  - intros g Hg. rewrite L_init__eq in Hg.
    destruct (L_init_parts _ _ _ _ _ Hg) as (Hall & _).
    assert (Hrel : ∀ a b, (a, b) ∈ LGraph._buildRelation false rels ↔
                          (a, b) ∈ rels ∨ (b, a) ∈ rels).
    { intros a b. rewrite L_buildRelation_elem. simpl. naive_solver. }
    split.
    + intros u v. rewrite (L_init_adjList _ _ _ _ _ Hg).
      case_decide as Hu; simpl.
      * rewrite list_elem_of_fmap. setoid_rewrite list_elem_of_filter.
        rewrite <- Hrel. split.
        -- intros ([a b] & -> & Ha & Hr). simpl in Ha. by subst.
        -- intros Hr. by exists (u, v).
      * split; [by intros ?%elem_of_nil|]. intros Hr%Hrel.
        eapply Forall_forall in Hall as [? _]; [|exact Hr]. done.
    + destruct (L_init_marks _ _ _ _ _ Hg) as [_ Hm].
      assert (∀ i j, cell (LGraph.adjMat g) i j = 1%Z →
                     cell (LGraph.adjMat g) j i = 1%Z) as Hsym.
      { intros i j. rewrite !Hm. intros ([a b] & Hr & Ha & Hb).
        exists (b, a). split; [|done]. apply Hrel. apply Hrel in Hr. tauto. }
      intros i j. split; apply Hsym.
Qed.



(** * Breadth-first search *)

(** A [for] loop whose body never raises ends, and keeps an invariant that
    may mention the elements already processed. *)
Lemma for_each_total {A S} (I : list A → S → Prop)
    (body : S → A → outcome S) l :
  (∀ done x s, I done s → x ∈ l →
     ∃ s', body s x = Ret s' ∧ I (done ++ [x]) s') →
  ∀ s, I [] s → ∃ s', for_each body l s = Ret s' ∧ I l s'.
Proof.
  intros Hbody.
  assert (∀ todo done s, (∀ x, x ∈ todo → x ∈ l) → I done s →
            ∃ s', for_each body todo s = Ret s' ∧ I (done ++ todo) s') as Hgen.
  { induction todo as [|x todo IH]; intros done s Hsub Hs; simpl.
    - exists s. by rewrite app_nil_r.
    - destruct (Hbody done x s Hs) as (s1 & -> & Hs1); [apply Hsub; by left|].
      simpl. destruct (IH (done ++ [x]) s1) as (s' & E & Hs').
      { intros y Hy. apply Hsub. by right. }
      { done. }
      exists s'. split; [done|]. by rewrite <- app_assoc in Hs'. }
  intros s Hs. by apply (Hgen l [] s).
Qed.

Lemma for_each_prefix {A S} (I : list A → S → Prop)
    (body : S → A → outcome S) l :
  (∀ done x s s', I done s → x ∈ l → body s x = Ret s' → I (done ++ [x]) s') →
  ∀ s s', I [] s → for_each body l s = Ret s' → I l s'.
Proof.
  intros Hbody.
  assert (∀ todo done s s', (∀ x, x ∈ todo → x ∈ l) → I done s →
            for_each body todo s = Ret s' → I (done ++ todo) s') as Hgen.
  { induction todo as [|x todo IH]; intros done s s' Hsub Hs E; simpl in E.
    - injection E as <-. by rewrite app_nil_r.
    - destruct (body s x) as [s1| |] eqn:Eb; simpl in E; try done.
      replace (done ++ x :: todo) with ((done ++ [x]) ++ todo)
        by (by rewrite <- app_assoc).
      eapply IH; [|eapply Hbody; [exact Hs| |exact Eb]|exact E].
      + intros y Hy. apply Hsub. by right.
      + apply Hsub. by left. }
  intros s s' Hs E. by apply (Hgen l [] s s').
Qed.

Section BfsBridge.
Context `{Countable V}.

Lemma W_bfs_loop_of fuel g : ∀ queue (v_props : gmap V (Props.t V)),
  WGraph.bfs_loop fuel g queue v_props =
  bfs_loop_of (W_neighbors g) fuel queue v_props.
Proof.
  induction fuel as [|fuel IH]; intros [|u queue] v_props; simpl; try done.
  unfold W_neighbors.
  destruct (WGraph.getNeighbors g u) as [ns| |]; simpl; try done.
  rewrite for_each_fmap.
  change (for_each (λ s x, bfs_visit_of u s x.1) ns)
    with (for_each (WGraph.bfs_visit u) ns).
  destruct (for_each (WGraph.bfs_visit u) ns (v_props, queue))
    as [[v_props' queue']| |]; simpl; try done.
  destruct (getitem v_props' u); simpl; try done.
Qed.

Context `{!PyIndex V}.

Lemma L_bfs_loop_of fuel g : ∀ queue (v_props : gmap V (Props.t V)),
  LGraph.bfs_loop fuel g queue v_props =
  bfs_loop_of (LGraph.getNeighbors g) fuel queue v_props.
Proof.
  induction fuel as [|fuel IH]; intros [|u queue] v_props; simpl; try done.
  destruct (LGraph.getNeighbors g u) as [ns| |]; simpl; try done.
  change (for_each (bfs_visit_of u) ns)
    with (for_each (LGraph.bfs_visit u) ns).
  destruct (for_each (LGraph.bfs_visit u) ns (v_props, queue))
    as [[v_props' queue']| |]; simpl; try done.
  destruct (getitem v_props' u); simpl; try done.
Qed.
End BfsBridge.

Section WhiteSet.
Context `{Countable V}.
Implicit Types (tbl : gmap V (Props.t V)).

Lemma elem_of_white_set tbl v :
  v ∈ white_set tbl ↔ ∃ p, tbl !! v = Some p ∧ Props.color p = WHITE.
Proof.
  unfold white_set. rewrite elem_of_dom. unfold is_Some.
  setoid_rewrite map_lookup_filter_Some. naive_solver.
Qed.

Lemma white_set_discover tbl n pn p :
  tbl !! n = Some pn → Props.color pn = WHITE → Props.color p ≠ WHITE →
  size (white_set (<[n := p]> tbl)) + 1 = size (white_set tbl).
Proof.
  intros Hn Hw Hp.
  assert (white_set (<[n := p]> tbl) = white_set tbl ∖ {[n]}) as ->.
  { apply set_eq. intros v.
    rewrite elem_of_difference, !elem_of_white_set, elem_of_singleton.
    destruct (decide (v = n)) as [->|Hne].
    - rewrite lookup_insert_eq. naive_solver.
    - rewrite lookup_insert_ne by done. naive_solver. }
  rewrite size_difference, size_singleton.
  - assert (size (white_set tbl) ≠ 0); [|lia].
    apply size_non_empty_iff. intros E.
    assert (n ∈ white_set tbl) by (apply elem_of_white_set; eauto).
    set_solver.
  - apply singleton_subseteq_l, elem_of_white_set. eauto.
Qed.

Lemma white_set_blacken tbl u pu :
  tbl !! u = Some pu →
  size (white_set (<[u := Props.set_color BLACK pu]> tbl)) ≤
  size (white_set tbl).
Proof.
  intros Hu. apply subseteq_size. intros v. rewrite !elem_of_white_set.
  destruct (decide (v = u)) as [->|Hne].
  - rewrite lookup_insert_eq. by intros (p & [= <-] & ?).
  - by rewrite lookup_insert_ne.
Qed.

Lemma size_list_to_set_le (l : list V) :
  size (list_to_set l : gset V) ≤ length l.
Proof.
  induction l as [|x l IH]; simpl; [done|].
  rewrite size_union_alt, size_singleton.
  assert (size (list_to_set l ∖ {[x]} : gset V) ≤ size (list_to_set l : gset V))
    by (apply subseteq_size; set_solver).
  lia.
Qed.

Lemma white_set_init (vs : list V) :
  size (white_set (foldl (λ m v, <[v := Props.mk WHITE Inf None]> m)
                     (∅ : gmap V (Props.t V)) vs)) ≤ length vs.
Proof.
  etrans; [|apply size_list_to_set_le].
  apply subseteq_size. intros v. rewrite elem_of_white_set.
  intros (p & Hp & _).
  rewrite (lookup_fill (λ _, Props.mk WHITE Inf None)) in Hp.
  case_decide; [by apply elem_of_list_to_set|by rewrite lookup_empty in Hp].
Qed.
End WhiteSet.

Section HopsFacts.
Context {V : Type}.
Implicit Types (rels : list (V * V)).

Lemma hops_snoc rels u v w k :
  hops rels u v k → (v, w) ∈ rels → hops rels u w (S k).
Proof.
  induction 1 as [v|u v x k Huv _ IH]; intros Hw.
  - eapply hops_cons; [done|constructor].
  - eapply hops_cons; [done|]. by apply IH.
Qed.

Lemma hops_last rels u w k :
  hops rels u w (S k) → ∃ v, hops rels u v k ∧ (v, w) ∈ rels.
Proof.
  revert u. induction k as [|k IH]; intros u Hh.
  - inversion Hh as [|? v ? ? Huv Hv]; subst. inversion Hv; subst.
    exists u. split; [constructor|done].
  - inversion Hh as [|? v ? ? Huv Hv]; subst.
    destruct (IH _ Hv) as (x & Hx & Hxw). exists x. split; [|done].
    by eapply hops_cons.
Qed.

Lemma hops_walk (rels : list (V * V * Z)) u v k :
  hops (ends rels) u v k ↔ ∃ c, walk rels u v c k.
Proof.
  split.
  - induction 1 as [v|u v x k Huv _ [c IH]].
    + exists 0%Z. constructor.
    + apply list_elem_of_fmap in Huv as ([[a b] w] & [= -> ->] & Hr).
      exists (w + c)%Z. by econstructor.
  - intros [c Hw]. induction Hw as [v|u v x w c k Huv _ IH].
    + constructor.
    + eapply hops_cons; [|exact IH].
      apply list_elem_of_fmap. by exists (u, v, w).
Qed.
End HopsFacts.

Section BfsSteps.
Context `{Countable V}.
Implicit Types (tbl : gmap V (Props.t V)) (u n s v : V).

Lemma bfs_visit_of_white u tbl queue n pn pu :
  tbl !! n = Some pn → Props.color pn = WHITE → tbl !! u = Some pu →
  bfs_visit_of u (tbl, queue) n =
  Ret (<[n := Props.mk GRAY (num_add (Props.distance pu) 1) (Some u)]> tbl,
       queue ++ [n]).
Proof.
  intros Hn Hw Hu. unfold bfs_visit_of.
  rewrite (getitem_Some _ _ _ Hn). simpl. rewrite decide_True by done.
  destruct (decide (n = u)) as [->|Hne].
  - assert (pn = pu) as -> by congruence.
    repeat (rewrite getitem_insert_eq; simpl).
    by rewrite !insert_insert_eq.
  - rewrite (getitem_insert_ne _ n u) by done.
    rewrite (getitem_Some _ _ _ Hu). simpl.
    repeat (rewrite getitem_insert_eq; simpl).
    by rewrite !insert_insert_eq.
Qed.

Lemma bfs_visit_of_other u tbl queue n pn :
  tbl !! n = Some pn → Props.color pn ≠ WHITE →
  bfs_visit_of u (tbl, queue) n = Ret (tbl, queue).
Proof.
  intros Hn Hw. unfold bfs_visit_of.
  rewrite (getitem_Some _ _ _ Hn). simpl. by rewrite decide_False.
Qed.

Lemma dist_at_insert tbl n p v d :
  dist_at (<[n := p]> tbl) v d ↔
  (v = n ∧ Props.distance p = Fin d) ∨ (v ≠ n ∧ dist_at tbl v d).
Proof.
  unfold dist_at. destruct (decide (v = n)) as [->|Hne].
  - rewrite lookup_insert_eq. naive_solver.
  - rewrite lookup_insert_ne by done. naive_solver.
Qed.

Lemma dist_at_recolor tbl u pu c v d :
  tbl !! u = Some pu →
  dist_at (<[u := Props.set_color c pu]> tbl) v d ↔ dist_at tbl v d.
Proof.
  intros Hu. rewrite dist_at_insert. unfold dist_at. simpl.
  destruct (decide (v = u)) as [->|Hne]; naive_solver.
Qed.

Lemma dist_at_fun tbl v d d' : dist_at tbl v d → dist_at tbl v d' → d = d'.
Proof. intros (p & Hp & Hd) (p' & Hp' & Hd'). congruence. Qed.

End BfsSteps.

Section BfsGeneric.
Context `{Countable V}.
Variables (vs : list V) (rels : list (V * V)).
Variable neighbors : V → outcome (list V).
Hypothesis Hnb : ∀ u, u ∈ vs →
  ∃ ns, neighbors u = Ret ns ∧ ∀ x, x ∈ ns ↔ (u, x) ∈ rels.
Hypothesis Hanch : ∀ u x, (u, x) ∈ rels → u ∈ vs ∧ x ∈ vs.
Implicit Types (tbl : gmap V (Props.t V)) (u n s v : V).

(** *** The loop ends *)

Lemma bfs_safe_visit s u tbl queue n :
  bfs_safe vs rels s tbl (u :: queue) → (u, n) ∈ rels →
  ∃ st', bfs_visit_of u (tbl, queue) n = Ret st' ∧
         bfs_safe vs rels s st'.1 (u :: st'.2) ∧
         length st'.2 + size (white_set st'.1)
           = length queue + size (white_set tbl).
Proof.
  intros [K1 K2 K3] Hr. destruct (Hanch _ _ Hr) as [Hu Hn].
  apply K1 in Hn as [pn Hn].
  destruct (K3 u) as (du & pu & Hpu & Hdu); [by left|].
  destruct (decide (Props.color pn = WHITE)) as [Hw|Hw].
  - rewrite (bfs_visit_of_white _ _ _ _ _ _ Hn Hw Hpu), Hdu. simpl.
    eexists. split; [done|]. simpl. split; [split|].
    + intros v. rewrite <- K1. destruct (decide (v = n)) as [->|Hne].
      * rewrite lookup_insert_eq, Hn. by split.
      * by rewrite lookup_insert_ne.
    + intros v d [[-> Hd]|[Hne Hd]]%dist_at_insert; [|by apply K2].
      simpl in Hd. injection Hd as <-.
      destruct (K2 u du) as [Hdu0 Hwalk]; [by exists pu|].
      split; [lia|].
      replace (Z.to_nat (du + 1)) with (S (Z.to_nat du)) by lia.
      by eapply hops_snoc.
    + intros v Hv. destruct (decide (v = n)) as [->|Hne].
      * exists (du + 1)%Z. apply dist_at_insert. by left.
      * destruct (K3 v) as [d Hd]; [set_solver|].
        exists d. apply dist_at_insert. by right.
    + rewrite length_app. simpl.
      pose proof (white_set_discover tbl n pn
                    (Props.mk GRAY (Fin (du + 1)) (Some u)) Hn Hw) as E.
      simpl in E. specialize (E ltac:(done)). lia.
  - rewrite (bfs_visit_of_other _ _ _ _ _ Hn Hw).
    eexists. split; [done|]. simpl. split; [by split|done].
Qed.

Lemma bfs_safe_blacken s u tbl queue pu :
  bfs_safe vs rels s tbl (u :: queue) → tbl !! u = Some pu →
  bfs_safe vs rels s (<[u := Props.set_color BLACK pu]> tbl) queue.
Proof.
  intros [K1 K2 K3] Hu. split.
  - intros v. rewrite <- K1. destruct (decide (v = u)) as [->|Hne].
    + rewrite lookup_insert_eq, Hu. by split.
    + by rewrite lookup_insert_ne.
  - intros v d Hd%dist_at_recolor; [|done]. by apply K2.
  - intros v Hv. destruct (K3 v) as [d Hd]; [by right|].
    exists d. by apply dist_at_recolor.
Qed.

Lemma bfs_loop_of_returns s fuel : ∀ queue tbl,
  bfs_safe vs rels s tbl queue →
  length queue + size (white_set tbl) ≤ fuel →
  ∃ tbl', bfs_loop_of neighbors fuel queue tbl = Ret tbl' ∧
          bfs_safe vs rels s tbl' [].
Proof.
  induction fuel as [|fuel IH]; intros [|u queue] tbl K Hf; simpl in *;
    try (by eexists); try lia.
  assert (Hu : u ∈ vs).
  { destruct K as [K1 _ K3]. destruct (K3 u) as (d & p & Hp & _); [by left|].
    apply K1. eauto. }
  destruct (Hnb u Hu) as (ns & -> & Hns). simpl.
  destruct (for_each_total
              (λ _ st, bfs_safe vs rels s st.1 (u :: st.2) ∧
                       length st.2 + size (white_set st.1)
                         = length queue + size (white_set tbl))
              (bfs_visit_of u) ns) with (s := (tbl, queue))
    as ([tbl1 queue1] & -> & K1 & Hm); [|by split|].
  { intros _ n [tbl0 queue0] [K0 Hm0] Hn. simpl in *.
    destruct (bfs_safe_visit s u tbl0 queue0 n K0) as (st' & E & K' & Hm');
      [by apply Hns|].
    exists st'. split; [done|]. split; [done|lia]. }
  simpl in *.
  destruct (bs_finite _ _ _ _ _ K1 u) as (du & pu & Hpu & _); [by left|].
  rewrite (getitem_Some _ _ _ Hpu). simpl.
  apply IH; [by apply bfs_safe_blacken|].
  pose proof (white_set_blacken tbl1 u pu Hpu). lia.
Qed.
End BfsGeneric.

Section BfsOptimal.
Context `{Countable V}.
Variables (vs : list V) (rels : list (V * V)).
Variable neighbors : V → outcome (list V).
Hypothesis Hnb : ∀ u, u ∈ vs →
  ∃ ns, neighbors u = Ret ns ∧ ∀ x, x ∈ ns ↔ (u, x) ∈ rels.
Hypothesis Hanch : ∀ u x, (u, x) ∈ rels → u ∈ vs ∧ x ∈ vs.
Implicit Types (tbl : gmap V (Props.t V)) (u n s v : V).

Lemma bfs_opt_discover s u tbl queue seen n pn pu du :
  bfs_opt vs rels s tbl (u :: queue) → near tbl u seen →
  (u, n) ∈ rels →
  tbl !! n = Some pn → Props.color pn = WHITE →
  tbl !! u = Some pu → Props.distance pu = Fin du →
  let tbl' := <[n := Props.mk GRAY (Fin (du + 1)) (Some u)]> tbl in
  bfs_opt vs rels s tbl' (u :: queue ++ [n]) ∧ near tbl' u (seen ++ [n]).
Proof.
  intros K Hseen Hr Hn Hw Hu Hdu tbl'.
  assert (Hinf : Props.distance pn = Inf).
  { destruct (bo_white _ _ _ _ _ K _ _ Hn Hw) as [?|[-> Hno]]; [done|].
    by destruct (Hno u). }
  assert (Hnone : ∀ d, ¬ dist_at tbl n d).
  { intros d (p & Hp & Hd). congruence. }
  assert (Hnp : n ∉ u :: queue).
  { intros Hin. destruct (bo_finite _ _ _ _ _ K _ Hin) as [d Hd].
    by eapply Hnone. }
  assert (Hnu : n ≠ u) by set_solver.
  assert (Hduat : dist_at tbl u du) by (by exists pu).
  assert (Hnew : ∀ v d, dist_at tbl' v d ↔
            (v = n ∧ d = (du + 1)%Z) ∨ dist_at tbl v d).
  { intros v d. unfold tbl'. rewrite dist_at_insert. simpl. split.
    - intros [[-> [= <-]]|[_ ?]]; auto.
    - intros [[-> ->]|Hd]; [by left|]. right. split; [|done].
      intros ->. by eapply Hnone. }
  assert (Hlk : ∀ v, v ≠ n → tbl' !! v = tbl !! v).
  { intros v Hv. unfold tbl'. by rewrite lookup_insert_ne. }
  assert (Hlkn : tbl' !! n = Some (Props.mk GRAY (Fin (du + 1)) (Some u))).
  { unfold tbl'. by rewrite lookup_insert_eq. }
  destruct (bo_sound _ _ _ _ _ K u du Hduat) as [Hdu0 Hwalk].
  split; [split|].
  - intros v. rewrite <- (bo_keys _ _ _ _ _ K).
    destruct (decide (v = n)) as [->|Hne]; [|by rewrite Hlk].
    rewrite Hlkn, Hn. by split.
  - intros v d [[-> ->]|Hd]%Hnew; [|by eapply bo_sound].
    split; [lia|].
    replace (Z.to_nat (du + 1)) with (S (Z.to_nat du)) by lia.
    by eapply hops_snoc.
  - intros v p Hp Hd. destruct (decide (v = n)) as [->|Hne].
    + rewrite Hlkn in Hp. by injection Hp as <-.
    + rewrite Hlk in Hp by done. by eapply bo_inf.
  - intros v p Hp Hc. destruct (decide (v = n)) as [->|Hne].
    + rewrite Hlkn in Hp. by injection Hp as <-.
    + rewrite Hlk in Hp by done. by eapply bo_white.
  - intros v p Hp Hd Hc. destruct (decide (v = n)) as [->|Hne].
    + set_solver.
    + rewrite Hlk in Hp by done.
      pose proof (bo_pending _ _ _ _ _ K _ _ Hp Hd Hc). set_solver.
  - intros v Hv. destruct (decide (v = n)) as [->|Hne].
    + exists (du + 1)%Z. apply Hnew. by left.
    + destruct (bo_finite _ _ _ _ _ K v) as [d Hd]; [set_solver|].
      exists d. apply Hnew. by right.
  - intros i j x y dx dy Hij Hx Hy Hdx Hdy.
    change (u :: queue ++ [n]) with ((u :: queue) ++ [n]) in Hx, Hy.
    apply lookup_app_Some in Hy as [Hy|[Hlen Hy]].
    + pose proof (lookup_lt_Some _ _ _ Hy) as Hj.
      rewrite lookup_app_l in Hx by lia.
      apply Hnew in Hdx as [[-> _]|Hdx].
      { exfalso. apply Hnp. by eapply list_elem_of_lookup_2. }
      apply Hnew in Hdy as [[-> _]|Hdy].
      { exfalso. apply Hnp. by eapply list_elem_of_lookup_2. }
      by eapply (bo_sorted _ _ _ _ _ K i j).
    + apply list_lookup_singleton_Some in Hy as [Hj0 <-].
      apply Hnew in Hdy as [[_ ->]|Hdy]; [|by destruct (Hnone dy)].
      rewrite lookup_app_l in Hx by lia.
      apply Hnew in Hdx as [[-> _]|Hdx].
      { exfalso. apply Hnp. by eapply list_elem_of_lookup_2. }
      eapply (bo_span _ _ _ _ _ K u x); [done| |done..].
      by eapply list_elem_of_lookup_2.
  - intros x y dx dy [= <-] Hy Hdx Hdy.
    apply Hnew in Hdx as [[-> _]|Hdx]; [done|].
    apply Hnew in Hdy as [[_ ->]|Hdy].
    + rewrite (dist_at_fun _ _ _ _ Hdx Hduat). lia.
    + eapply (bo_span _ _ _ _ _ K u y); [done| |done..].
      assert (y ≠ n) by (intros ->; by eapply Hnone). set_solver.
  - intros v p d Hp Hc Hd. destruct (decide (v = n)) as [->|Hne].
    { rewrite Hlkn in Hp. by injection Hp as <-. }
    rewrite Hlk in Hp by done.
    destruct (bo_black _ _ _ _ _ K _ _ _ Hp Hc Hd) as [Hlow Hclosed]. split.
    + intros x dx Hx [[-> ->]|Hdx]%Hnew.
      * specialize (Hlow u du ltac:(by left) Hduat). lia.
      * apply (Hlow x); [|done].
        assert (x ≠ n) by (intros ->; by eapply Hnone). set_solver.
    + intros w Hvw. destruct (Hclosed w Hvw) as (dw & Hdw & Hle).
      exists dw. split; [|done]. apply Hnew. by right.
  - apply Hnew. right. by eapply bo_source.
  - intros w du' Hw' Hdu'.
    apply Hnew in Hdu' as [[-> _]|Hdu']; [done|].
    rewrite (dist_at_fun _ _ _ _ Hdu' Hduat).
    apply elem_of_app in Hw' as [Hw'|Hw'];
      [|apply list_elem_of_singleton in Hw' as ->].
    + destruct (Hseen w du Hw' Hduat) as (dw & Hdw & Hle).
      exists dw. split; [|done]. apply Hnew. by right.
    + exists (du + 1)%Z. split; [|lia]. apply Hnew. by left.
Qed.

Lemma bfs_opt_skip s u tbl queue seen n pn :
  bfs_opt vs rels s tbl (u :: queue) → near tbl u seen →
  tbl !! n = Some pn → Props.color pn ≠ WHITE →
  near tbl u (seen ++ [n]).
Proof.
  intros K Hseen Hn Hw w du Hw' Hdu.
  apply elem_of_app in Hw' as [Hw'|Hw']; [by apply Hseen|].
  apply list_elem_of_singleton in Hw' as ->.
  destruct (Props.distance pn) as [dn|] eqn:Hdn;
    [|by destruct Hw; eapply bo_inf].
  exists dn. split; [by exists pn|].
  destruct (decide (Props.color pn = BLACK)) as [Hb|Hb].
  - destruct (bo_black _ _ _ _ _ K _ _ _ Hn Hb Hdn) as [Hlow _].
    specialize (Hlow u du ltac:(by left) Hdu). lia.
  - eapply (bo_span _ _ _ _ _ K u n); [done| |done|by exists pn].
    eapply bo_pending; [done..| |done]. by rewrite Hdn.
Qed.

Lemma bfs_opt_visit s u tbl queue seen n st' :
  bfs_opt vs rels s tbl (u :: queue) → near tbl u seen →
  (u, n) ∈ rels →
  bfs_visit_of u (tbl, queue) n = Ret st' →
  bfs_opt vs rels s st'.1 (u :: st'.2) ∧ near st'.1 u (seen ++ [n]).
Proof.
  intros K Hseen Hr E. destruct (Hanch _ _ Hr) as [Hu Hn].
  apply (bo_keys _ _ _ _ _ K) in Hn as [pn Hn].
  destruct (bo_finite _ _ _ _ _ K u) as (du & pu & Hpu & Hdu); [by left|].
  destruct (decide (Props.color pn = WHITE)) as [Hw|Hw].
  - rewrite (bfs_visit_of_white _ _ _ _ _ _ Hn Hw Hpu), Hdu in E.
    injection E as <-. simpl. by eapply bfs_opt_discover.
  - rewrite (bfs_visit_of_other _ _ _ _ _ Hn Hw) in E.
    injection E as <-. simpl. split; [done|]. by eapply bfs_opt_skip.
Qed.

Lemma bfs_opt_blacken s u tbl queue pu :
  bfs_opt vs rels s tbl (u :: queue) → tbl !! u = Some pu →
  (∀ w, (u, w) ∈ rels → ∀ du, dist_at tbl u du →
     ∃ dw, dist_at tbl w dw ∧ (dw ≤ du + 1)%Z) →
  bfs_opt vs rels s (<[u := Props.set_color BLACK pu]> tbl) queue.
Proof.
  intros K Hu Hclosed.
  set (tbl' := <[u := Props.set_color BLACK pu]> tbl).
  assert (Hd : ∀ v d, dist_at tbl' v d ↔ dist_at tbl v d).
  { intros v d. by apply dist_at_recolor. }
  assert (Hlk : ∀ v, v ≠ u → tbl' !! v = tbl !! v).
  { intros v Hv. unfold tbl'. by rewrite lookup_insert_ne. }
  assert (Hlku : tbl' !! u = Some (Props.set_color BLACK pu)).
  { unfold tbl'. by rewrite lookup_insert_eq. }
  destruct (bo_finite _ _ _ _ _ K u) as (du & Hdu); [by left|].
  split.
  - intros v. rewrite <- (bo_keys _ _ _ _ _ K).
    destruct (decide (v = u)) as [->|Hne]; [|by rewrite Hlk].
    rewrite Hlku, Hu. by split.
  - intros v d Hv%Hd. by eapply bo_sound.
  - intros v p Hp Hinf. destruct (decide (v = u)) as [->|Hne].
    + rewrite Hlku in Hp. injection Hp as <-. simpl in Hinf.
      destruct Hdu as (p & Hp & Hfin). congruence.
    + rewrite Hlk in Hp by done. by eapply bo_inf.
  - intros v p Hp Hc. destruct (decide (v = u)) as [->|Hne].
    + rewrite Hlku in Hp. by injection Hp as <-.
    + rewrite Hlk in Hp by done. by eapply bo_white.
  - intros v p Hp Hfin Hc. destruct (decide (v = u)) as [->|Hne].
    + rewrite Hlku in Hp. by injection Hp as <-.
    + rewrite Hlk in Hp by done.
      pose proof (bo_pending _ _ _ _ _ K _ _ Hp Hfin Hc). set_solver.
  - intros v Hv. destruct (bo_finite _ _ _ _ _ K v) as [d Hdv]; [by right|].
    exists d. by apply Hd.
  - intros i j x y dx dy Hij Hx Hy Hdx%Hd Hdy%Hd.
    by eapply (bo_sorted _ _ _ _ _ K (S i) (S j)); [lia|..].
  - intros x y dx dy Hx Hy Hdx%Hd Hdy%Hd.
    assert (Hxq : x ∈ queue) by (destruct queue; simplify_eq/=; by left).
    pose proof (bo_span _ _ _ _ _ K u y du dy eq_refl
                  ltac:(by right) Hdu Hdy) as Hspan.
    apply list_elem_of_lookup in Hxq as [i Hi].
    pose proof (bo_sorted _ _ _ _ _ K 0 (S i) u x du dx ltac:(lia)
                  eq_refl Hi Hdu Hdx). lia.
  - intros v p d Hp Hc Hfin. destruct (decide (v = u)) as [->|Hne].
    + rewrite Hlku in Hp. injection Hp as <-. simpl in Hfin.
      assert (Hdu' : dist_at tbl u d) by (by exists pu).
      split.
      * intros x dx Hx Hdx%Hd. apply list_elem_of_lookup in Hx as [i Hi].
        by eapply (bo_sorted _ _ _ _ _ K 0 (S i) u x); [lia|..].
      * intros w Hw. destruct (Hclosed w Hw d Hdu') as (dw & Hdw & Hle).
        exists dw. split; [by apply Hd|done].
    + rewrite Hlk in Hp by done.
      destruct (bo_black _ _ _ _ _ K _ _ _ Hp Hc Hfin) as [Hlow Hcl]. split.
      * intros x dx Hx Hdx%Hd. apply (Hlow x); [by right|done].
      * intros w Hw. destruct (Hcl w Hw) as (dw & Hdw & Hle).
        exists dw. split; [by apply Hd|done].
  - apply Hd. by eapply bo_source.
Qed.

Lemma bfs_loop_of_opt s fuel : ∀ queue tbl tbl',
  bfs_loop_of neighbors fuel queue tbl = Ret tbl' →
  bfs_opt vs rels s tbl queue → bfs_opt vs rels s tbl' [].
Proof.
  induction fuel as [|fuel IH]; intros [|u queue] tbl tbl' E K;
    simpl in E; try done; try (by injection E as <-).
  assert (Hu : u ∈ vs).
  { destruct (bo_finite _ _ _ _ _ K u) as (d & p & Hp & _); [by left|].
    apply (bo_keys _ _ _ _ _ K). eauto. }
  destruct (Hnb u Hu) as (ns & Ens & Hns). rewrite Ens in E. simpl in E.
  destruct (for_each (bfs_visit_of u) ns (tbl, queue))
    as [[tbl1 queue1]| |] eqn:Ef; simpl in E; try done.
  destruct (getitem tbl1 u) as [pu| |] eqn:Hpu; simpl in E; try done.
  apply getitem_Ret in Hpu.
  apply (for_each_prefix
           (λ seen st, bfs_opt vs rels s st.1 (u :: st.2) ∧ near st.1 u seen))
    in Ef as [K1 Hnear];
    [| |split; [done|by intros w du ?%elem_of_nil]].
  - eapply IH; [exact E|]. eapply bfs_opt_blacken; [done..|].
    intros w Hw du Hdu. apply (Hnear w du); [by apply Hns|done].
  - intros seen n [tbl0 queue0] st' [K0 Hseen] Hn Ev. simpl in *.
    eapply bfs_opt_visit; [done..|by apply Hns|done].
Qed.

(** A finished table holds the least number of hops. *)
Lemma bfs_opt_shortest s tbl :
  bfs_opt vs rels s tbl [] →
  ∀ v p, tbl !! v = Some p →
    match Props.distance p with
    | Fin d => (0 ≤ d)%Z ∧ hops rels s v (Z.to_nat d) ∧
               ∀ k, hops rels s v k → Z.to_nat d ≤ k
    | Inf => ∀ k, ¬ hops rels s v k
    end.
Proof.
  intros K.
  assert (Hreach : ∀ k v, hops rels s v k →
            ∃ d, dist_at tbl v d ∧ (d ≤ Z.of_nat k)%Z).
  { induction k as [|k IH]; intros v Hh.
    - inversion Hh; subst. exists 0%Z. split; [by eapply bo_source|done].
    - apply hops_last in Hh as (x & Hx & Hxv).
      destruct (IH x Hx) as (dx & (px & Hpx & Hdx) & Hle).
      assert (Hb : Props.color px = BLACK).
      { destruct (decide (Props.color px = BLACK)) as [|Hnb']; [done|].
        exfalso. eapply elem_of_nil.
        eapply (bo_pending _ _ _ _ _ K x px); [done| |done]. by rewrite Hdx. }
      destruct (bo_black _ _ _ _ _ K _ _ _ Hpx Hb Hdx) as [_ Hcl].
      destruct (Hcl v Hxv) as (dv & Hdv & Hle').
      exists dv. split; [done|lia]. }
  intros v p Hp. destruct (Props.distance p) as [d|] eqn:Hd.
  - destruct (bo_sound _ _ _ _ _ K v d) as [Hd0 Hwalk]; [by exists p|].
    split_and!; [done..|]. intros k Hk.
    destruct (Hreach k v Hk) as (d' & Hd' & Hle).
    assert (d' = d) as -> by (eapply dist_at_fun; [done|by exists p]). lia.
  - intros k Hk. destruct (Hreach k v Hk) as (d' & (p' & Hp' & Hd') & _).
    congruence.
Qed.
End BfsOptimal.

Section BfsInit.
Context `{Countable V}.
Implicit Types (vs : list V) (s : V).

#[local] Abbreviation blank vs :=
  (foldl (λ m v, <[v := Props.mk WHITE Inf None]> m)
     (∅ : gmap V (Props.t V)) vs).

Lemma blank_lookup vs v :
  blank vs !! v =
  if decide (v ∈ vs) then Some (Props.mk WHITE Inf None) else None.
Proof.
  rewrite (lookup_fill (λ _, Props.mk WHITE Inf None)).
  case_decide; [done|apply lookup_empty].
Qed.

(** The table [bfs] starts from: every vertex blank but the source, which is
    at distance 0 and of colour [c]. *)
Lemma start_lookup vs s c v p :
  s ∈ vs →
  <[s := Props.mk c (Fin 0) None]> (blank vs) !! v = Some p ↔
  (v = s ∧ p = Props.mk c (Fin 0) None) ∨
  (v ≠ s ∧ v ∈ vs ∧ p = Props.mk WHITE Inf None).
Proof.
  intros Hs. destruct (decide (v = s)) as [->|Hne].
  - rewrite lookup_insert_eq. naive_solver.
  - rewrite lookup_insert_ne, blank_lookup by done.
    case_decide; naive_solver.
Qed.

Lemma start_safe vs rels s c :
  s ∈ vs →
  bfs_safe vs rels s (<[s := Props.mk c (Fin 0) None]> (blank vs)) [s].
Proof.
  intros Hs. split.
  - intros v. split.
    + intros [p [[-> _]|(_ & ? & _)]%start_lookup]; done.
    + intros Hv. destruct (decide (v = s)) as [->|Hne].
      * eexists. apply start_lookup; [done|]. by left.
      * eexists. apply start_lookup; [done|]. by right.
  - intros v d (p & [[-> ->]|(_ & _ & ->)]%start_lookup & Hd); [|done..].
    injection Hd as <-. split; [done|constructor].
  - intros v ->%list_elem_of_singleton. exists 0%Z. eexists.
    split; [apply start_lookup; [done|by left]|done].
Qed.

Lemma start_opt vs rels s c :
  s ∈ vs → c ≠ BLACK → (c = WHITE → ∀ x, (x, s) ∉ rels) →
  bfs_opt vs rels s (<[s := Props.mk c (Fin 0) None]> (blank vs)) [s].
Proof.
  intros Hs Hc Hw. destruct (start_safe vs rels s c Hs) as [K1 K2 K3].
  set (tbl := <[s := Props.mk c (Fin 0) None]> (blank vs)) in *.
  assert (Hlk : ∀ v p, tbl !! v = Some p →
            (v = s ∧ p = Props.mk c (Fin 0) None) ∨
            (v ≠ s ∧ v ∈ vs ∧ p = Props.mk WHITE Inf None)).
  { intros v p. by apply start_lookup. }
  assert (Hd : ∀ v d, dist_at tbl v d → v = s ∧ d = 0%Z).
  { intros v d (p & [[-> ->]|(_ & _ & ->)]%Hlk & Hd); [|done].
    by injection Hd as <-. }
  split; try done.
  - intros v p [[-> ->]|(_ & _ & ->)]%Hlk; done.
  - intros v p [[-> ->]|(_ & _ & ->)]%Hlk; [|by left].
    simpl. intros ->. right. auto.
  - intros v p [[-> ->]|(_ & _ & ->)]%Hlk; [|done].
    intros _ _. by left.
  - intros i j x y dx dy Hij Hx Hy.
    apply lookup_lt_Some in Hy. simpl in Hy. lia.
  - intros x y dx dy _ _ [_ ->]%Hd [_ ->]%Hd. lia.
  - intros v p d [[-> ->]|(_ & _ & ->)]%Hlk; done.
  - eexists. split; [apply start_lookup; [done|by left]|done].
Qed.

Lemma start_whites vs s c :
  s ∈ vs →
  size (white_set (<[s := Props.mk c (Fin 0) None]> (blank vs)))
    + (if decide (c = WHITE) then 0 else 1) ≤ length vs.
Proof.
  intros Hs. pose proof (white_set_init vs) as Hle.
  assert (Hb : blank vs !! s = Some (Props.mk WHITE Inf None)).
  { rewrite blank_lookup. by rewrite decide_True. }
  case_decide as Hc.
  - subst c. etrans; [|exact Hle]. rewrite Nat.add_0_r.
    apply subseteq_size. intros v. rewrite !elem_of_white_set.
    destruct (decide (v = s)) as [->|Hne].
    + rewrite lookup_insert_eq. eauto.
    + by rewrite lookup_insert_ne.
  - pose proof (white_set_discover (blank vs) s _
                  (Props.mk c (Fin 0) None) Hb eq_refl Hc). lia.
Qed.
End BfsInit.

Section LBfs.
Context `{Countable V} `{!PyIndex V}.

Lemma L_neighbors vs rels directed g :
  LGraph.Graph_init vs rels directed true = Ret g →
  (∀ u, u ∈ vs →
     ∃ ns, LGraph.getNeighbors g u = Ret ns ∧ ∀ x, x ∈ ns ↔ (u, x) ∈ rels) ∧
  (∀ u, u ∉ vs → LGraph.getNeighbors g u = Raise KeyError) ∧
  (∀ u x, (u, x) ∈ rels → u ∈ vs ∧ x ∈ vs).
Proof.
  intros Hg.
  destruct (L_init_parts _ _ _ _ _ Hg)
    as (Hall & _ & _ & _ & _ & _ & _ & Hview & _).
  pose proof (L_init_adjList _ _ _ _ _ Hg) as Hadj.
  unfold LGraph.getNeighbors, LGraph._getNeighborsAdjList. rewrite Hview.
  split_and!.
  - intros u Hu. eexists. split.
    + apply getitem_Some. rewrite Hadj. by rewrite decide_True.
    + intros x. rewrite list_elem_of_fmap.
      setoid_rewrite list_elem_of_filter. split.
      * intros ([a b] & -> & Ha & Hr). simpl in Ha. by subst.
      * intros Hr. by exists (u, x).
  - intros u Hu. apply getitem_None. rewrite Hadj. by rewrite decide_False.
  - intros u x Hr. by eapply Forall_forall in Hall; [|exact Hr].
Qed.

Lemma L_bfs_ends vs rels directed g s fuel :
  LGraph.Graph_init vs rels directed true = Ret g → s ∈ vs →
  ∃ tbl, LGraph.bfs (length vs + fuel) g s = Ret tbl ∧
         bfs_opt vs rels s tbl [].
Proof.
  intros Hg Hs. destruct (L_neighbors _ _ _ _ Hg) as (Hnb & _ & Hanch).
  destruct (L_init_parts _ _ _ _ _ Hg) as (_ & _ & _ & _ & _ & Hvs & _).
  unfold LGraph.bfs, LGraph._buildVProps. rewrite Hvs. rewrite L_bfs_loop_of.
  destruct (bfs_loop_of_returns vs rels (LGraph.getNeighbors g) Hnb Hanch
              s (length vs + fuel) [s]
              (<[s := Props.mk GRAY (Fin 0) None]>
                 (foldl (λ m v, <[v := Props.mk WHITE Inf None]> m) ∅ vs)))
    as (tbl & E & _).
  { by apply start_safe. }
  { pose proof (start_whites vs s GRAY Hs) as Hw.
    rewrite decide_False in Hw by done. simpl. lia. }
  exists tbl. split; [exact E|].
  eapply (bfs_loop_of_opt vs rels (LGraph.getNeighbors g) Hnb Hanch);
    [exact E|].
  by apply start_opt.
Qed.
End LBfs.

Section WBfs.
Context `{Countable V}.

Lemma W_neighbors_spec (vs : list V) e directed view g :
  WGraph.Graph_init vs e directed view = Ret g →
  (∀ u, u ∈ vs →
     ∃ ns, W_neighbors g u = Ret ns ∧
           ∀ x, x ∈ ns ↔ (u, x) ∈ ends (WGraph.relations g)) ∧
  (∀ u x, (u, x) ∈ ends (WGraph.relations g) → u ∈ vs ∧ x ∈ vs).
Proof.
  intros Hg.
  destruct (W_init_parts _ _ _ _ _ Hg) as (_ & -> & _ & _ & _ & _ & Hall).
  pose proof (W_init_adjList _ _ _ _ _ Hg) as Hadj.
  unfold W_neighbors, WGraph.getNeighbors, WGraph._getNeighborsAdjList, ends.
  split.
  - intros u Hu. eexists. split.
    + rewrite (getitem_Some _ _ _ (eq_trans (Hadj u) (decide_True _ _ Hu))).
      reflexivity.
    + intros x. rewrite <- list_fmap_compose, !list_elem_of_fmap.
      setoid_rewrite list_elem_of_filter. split.
      * intros ([[a b] w] & -> & Ha & Hr). simpl in *. subst.
        by exists (u, b, w).
      * intros ([[a b] w] & [= -> ->] & Hr). by exists (a, b, w).
  - intros u x ([[a b] w] & [= -> ->] & Hr)%list_elem_of_fmap.
    by eapply Forall_forall in Hall; [|exact Hr].
Qed.

Lemma W_bfs_start (vs : list V) e directed view g s fuel :
  WGraph.Graph_init vs e directed view = Ret g → s ∈ vs →
  WGraph.bfs fuel g s =
  bfs_loop_of (W_neighbors g) fuel [s]
    (<[s := Props.mk WHITE (Fin 0) None]>
       (foldl (λ m v, <[v := Props.mk WHITE Inf None]> m) ∅ vs)).
Proof.
  intros Hg Hs. destruct (W_init_parts _ _ _ _ _ Hg) as (Hvs & _).
  unfold WGraph.bfs, WGraph._buildVProps. rewrite Hvs.
  rewrite (getitem_Some _ _ (Props.mk WHITE Inf None))
    by (rewrite blank_lookup; by rewrite decide_True).
  simpl. apply W_bfs_loop_of.
Qed.

Lemma W_bfs_ends (vs : list V) e directed view g s fuel :
  WGraph.Graph_init vs e directed view = Ret g → s ∈ vs →
  ∃ tbl, WGraph.bfs (length vs + 1 + fuel) g s = Ret tbl ∧
         bfs_loop_of (W_neighbors g) (length vs + 1 + fuel) [s]
           (<[s := Props.mk WHITE (Fin 0) None]>
              (foldl (λ m v, <[v := Props.mk WHITE Inf None]> m) ∅ vs))
           = Ret tbl ∧
         bfs_safe vs (ends (WGraph.relations g)) s tbl [].
Proof.
  intros Hg Hs. destruct (W_neighbors_spec _ _ _ _ _ Hg) as (Hnb & Hanch).
  rewrite (W_bfs_start _ _ _ _ _ _ _ Hg Hs).
  destruct (bfs_loop_of_returns vs (ends (WGraph.relations g))
              (W_neighbors g) Hnb Hanch s (length vs + 1 + fuel) [s]
              (<[s := Props.mk WHITE (Fin 0) None]>
                 (foldl (λ m v, <[v := Props.mk WHITE Inf None]> m) ∅ vs)))
    as (tbl & E & K).
  { by apply start_safe. }
  { pose proof (start_whites vs s WHITE Hs) as Hw.
    rewrite decide_True in Hw by done. simpl. lia. }
  by exists tbl.
Qed.
End WBfs.

(** X13.  [bfs] of labyrinth_graph.py, on a graph constructed with the
    adjacency-list view.  From a source that is not a vertex it raises a
    [KeyError].  From a vertex it returns within [len(vertexes)] iterations
    of its loop, with an entry for every vertex: a finite distance is the
    least number of relations leading from the source to the vertex, and the
    distance is infinite exactly for the vertices no sequence of relations
    leads to. *)
Theorem labyrinth_bfs_shortest `{Countable V} `{!PyIndex V} (vs : list V)
    (rels : list (V * V)) (directed : bool) (g : LGraph.Graph) (s : V)
    (fuel : nat) :
  LGraph.Graph_init vs rels directed true = Ret g →
  (s ∉ vs → LGraph.bfs (S fuel) g s = Raise KeyError) ∧
  (s ∈ vs →
   ∃ tbl, LGraph.bfs (length vs + fuel) g s = Ret tbl ∧
     (∀ v, is_Some (tbl !! v) ↔ v ∈ vs) ∧
     ∀ v p, tbl !! v = Some p →
       match Props.distance p with
       | Fin d => (0 ≤ d)%Z ∧ hops rels s v (Z.to_nat d) ∧
                  ∀ k, hops rels s v k → Z.to_nat d ≤ k
       | Inf => ∀ k, ¬ hops rels s v k
       end).
Proof.
  intros Hg. split.
  - intros Hs. destruct (L_neighbors _ _ _ _ Hg) as (_ & Hout & _).
    unfold LGraph.bfs. simpl. by rewrite (Hout s Hs).
  - intros Hs. destruct (L_bfs_ends _ _ _ _ _ fuel Hg Hs) as (tbl & E & K).
    exists tbl. split; [exact E|].
    split; [apply (bo_keys _ _ _ _ _ K)|].
    exact (bfs_opt_shortest vs rels s tbl K).
Qed.

Lemma labyrinth_bfs_shortest_witness :
  ∃ g tbl,
    LGraph.Graph_init [0; 1; 2; 3] [(0, 1); (1, 2); (0, 2); (2, 0)] true true
      = Ret g ∧
    LGraph.bfs (4 + 0) g 0 = Ret tbl ∧
    (∀ v, is_Some (tbl !! v) ↔ v ∈ [0; 1; 2; 3]) ∧
    ∀ v p, tbl !! v = Some p →
      match Props.distance p with
      | Fin d => (0 ≤ d)%Z ∧
                 hops [(0, 1); (1, 2); (0, 2); (2, 0)] 0 v (Z.to_nat d) ∧
                 ∀ k, hops [(0, 1); (1, 2); (0, 2); (2, 0)] 0 v k →
                      Z.to_nat d ≤ k
      | Inf => ∀ k, ¬ hops [(0, 1); (1, 2); (0, 2); (2, 0)] 0 v k
      end.
Proof.
  destruct (LGraph.Graph_init [0; 1; 2; 3] [(0, 1); (1, 2); (0, 2); (2, 0)]
              true true) as [g| |] eqn:Eg; [|by vm_compute in Eg..].
  destruct (labyrinth_bfs_shortest _ _ _ g 0 0 Eg) as [_ Hin].
  destruct Hin as (tbl & E & Hk & Hd); [by left|].
  by exists g, tbl.
Defined.

(** X14.  [bfs] of graph_heap_pq.py on a constructed graph.  From a source
    that is not a vertex it raises a [KeyError].  From a vertex it returns
    within [len(vertexes) + 1] iterations of its loop, with an entry for
    every vertex, and every finite distance it records is the number of
    relations of some walk from the source to the vertex: it never records
    a distance below the least number of hops. *)
Theorem graph_bfs_returns `{Countable V} (vs : list V) (e : list (V * V * Z))
    (directed view : bool) (g : WGraph.Graph) (s : V) (fuel : nat) :
  WGraph.Graph_init vs e directed view = Ret g →
  (s ∉ vs → WGraph.bfs fuel g s = Raise KeyError) ∧
  (s ∈ vs →
   ∃ tbl, WGraph.bfs (length vs + 1 + fuel) g s = Ret tbl ∧
     (∀ v, is_Some (tbl !! v) ↔ v ∈ vs) ∧
     ∀ v p d, tbl !! v = Some p → Props.distance p = Fin d →
       (0 ≤ d)%Z ∧ ∃ c, walk (WGraph.relations g) s v c (Z.to_nat d)).
Proof.
  intros Hg. split.
  - intros Hs. destruct (W_init_parts _ _ _ _ _ Hg) as (Hvs & _).
    unfold WGraph.bfs, WGraph._buildVProps. rewrite Hvs.
    rewrite getitem_None; [done|].
    rewrite blank_lookup. by rewrite decide_False.
  - intros Hs.
    destruct (W_bfs_ends _ _ _ _ _ _ fuel Hg Hs) as (tbl & E & _ & [K1 K2 _]).
    exists tbl. split; [exact E|]. split; [exact K1|].
    intros v p d Hp Hd. destruct (K2 v d) as [Hd0 Hh]; [by exists p|].
    split; [done|]. by apply hops_walk.
Qed.

Lemma graph_bfs_returns_witness :
  ∃ g tbl,
    loop_graph = Ret g ∧ WGraph.bfs (2 + 1 + 0) g 0 = Ret tbl ∧
    (∀ v, is_Some (tbl !! v) ↔ v ∈ [0; 1]) ∧
    ∀ v p d, tbl !! v = Some p → Props.distance p = Fin d →
      (0 ≤ d)%Z ∧ ∃ c, walk (WGraph.relations g) 0 v c (Z.to_nat d).
Proof.
  unfold loop_graph.
  destruct (WGraph.Graph_init [0; 1] loop_edges true true) as [g| |] eqn:Eg;
    [|by vm_compute in Eg..].
  destruct (graph_bfs_returns _ _ _ _ g 0 0 Eg) as [_ Hin].
  destruct Hin as (tbl & E & Hk & Hd); [by left|].
  by exists g, tbl.
Defined.

(** X15.  [bfs] of graph_heap_pq.py computes the least number of hops when
    no relation of the graph ends at the source: then every finite distance
    in the table it returns is the least number of relations leading from
    the source to the vertex, and the distance is infinite exactly for the
    vertices no walk from the source reaches. *)
Theorem graph_bfs_shortest `{Countable V} (vs : list V)
    (e : list (V * V * Z)) (directed view : bool) (g : WGraph.Graph) (s : V)
    (fuel : nat) :
  WGraph.Graph_init vs e directed view = Ret g → s ∈ vs →
  Forall (λ r, r.1.2 ≠ s) (WGraph.relations g) →
  ∃ tbl, WGraph.bfs (length vs + 1 + fuel) g s = Ret tbl ∧
    ∀ v p, tbl !! v = Some p →
      match Props.distance p with
      | Fin d => (0 ≤ d)%Z ∧
                 (∃ c, walk (WGraph.relations g) s v c (Z.to_nat d)) ∧
                 ∀ k c, walk (WGraph.relations g) s v c k → Z.to_nat d ≤ k
      | Inf => ∀ k c, ¬ walk (WGraph.relations g) s v c k
      end.
Proof.
  intros Hg Hs Hno.
  destruct (W_neighbors_spec _ _ _ _ _ Hg) as (Hnb & Hanch).
  destruct (W_bfs_ends _ _ _ _ _ _ fuel Hg Hs) as (tbl & E & Eloop & _).
  exists tbl. split; [exact E|].
  assert (K : bfs_opt vs (ends (WGraph.relations g)) s tbl []).
  { eapply (bfs_loop_of_opt vs _ (W_neighbors g) Hnb Hanch); [exact Eloop|].
    apply start_opt; [done..|]. intros _ x Hx.
    apply list_elem_of_fmap in Hx as ([[a b] w] & [= -> ->] & Hr).
    by eapply Forall_forall in Hno; [|exact Hr]. }
  intros v p Hp.
  pose proof (bfs_opt_shortest vs _ s tbl K v p Hp) as Hsh.
  destruct (Props.distance p) as [d|].
  - destruct Hsh as (Hd0 & Hh & Hmin). split_and!; [done|by apply hops_walk|].
    intros k c Hw. apply Hmin, hops_walk. eauto.
  - intros k c Hw. apply (Hsh k), hops_walk. eauto.
Qed.

Lemma graph_bfs_shortest_witness :
  ∃ g tbl,
    chain_graph = Ret g ∧ WGraph.bfs (4 + 1 + 0) g 0 = Ret tbl ∧
    ∀ v p, tbl !! v = Some p →
      match Props.distance p with
      | Fin d => (0 ≤ d)%Z ∧
                 (∃ c, walk (WGraph.relations g) 0 v c (Z.to_nat d)) ∧
                 ∀ k c, walk (WGraph.relations g) 0 v c k → Z.to_nat d ≤ k
      | Inf => ∀ k c, ¬ walk (WGraph.relations g) 0 v c k
      end.
Proof.
  unfold chain_graph.
  destruct (WGraph.Graph_init [0; 1; 2; 3] chain_edges true true)
    as [g| |] eqn:Eg; [|by vm_compute in Eg..].
  destruct (graph_bfs_shortest _ _ _ _ g 0 0 Eg) as (tbl & E & Hd).
  { by left. }
  { vm_compute in Eg. injection Eg as <-. simpl.
    repeat constructor; simpl; lia. }
  by exists g, tbl.
Defined.

(** * Dijkstra's algorithm *)


Section DijkstraRuns.
Context `{Countable V} `{!PyOrd V}.
Hypothesis Hrefl : ∀ v : V, py_eq v v = true.
Variables (vs : list V) (rels : list (V * V * Z)) (g : WGraph.Graph (V:=V)).
Hypothesis Hadj : ∀ u, WGraph.adjList g !! u =
  if decide (u ∈ vs)
  then Some ((λ r, (r.1.2, r.2)) <$> filter (λ r, r.1.1 = u) rels) else None.
Hypothesis Hanch : Forall (λ r, r.1.1 ∈ vs ∧ r.1.2 ∈ vs) rels.
Implicit Types (tbl : gmap V (Props.t V)) (QS : Heap (num * V)).


#[local] Arguments py_eq : simpl never.




End DijkstraRuns.

Section DijkstraStart.
Context `{Countable V} `{!PyOrd V}.


End DijkstraStart.



(** * Depth-first search *)

Section DfsBridge.
Context `{Countable V}.

Lemma W_dfs_visit_of fuel g : ∀ (vertex : V) time st,
  WGraph.dfs_visit fuel g vertex time st =
  dfs_visit_of (W_neighbors g) fuel vertex time st.
Proof.
  induction fuel as [|fuel IH]; intros vertex time [v_props final]; [done|].
  simpl. destruct (getitem v_props vertex) as [p| |]; simpl; try done.
  repeat (rewrite getitem_insert_eq; simpl).
  unfold W_neighbors.
  destruct (WGraph.getNeighbors g vertex) as [ns| |]; simpl; try done.
  rewrite for_each_fmap.
  rewrite (for_each_ext _
             (λ s x, dfs_step_of (dfs_visit_of (W_neighbors g) fuel) vertex
                       s x.1)); [done|].
  intros [t [vp fn]] [n w]. unfold WGraph.dfs_step, dfs_step_of. simpl.
  destruct (getitem vp n) as [pn| |]; simpl; try done.
  case_decide; [apply IH|done].
Qed.

Lemma W_dfs_root_of fuel g st (v : V) :
  WGraph.dfs_root fuel g st v = dfs_root_of (W_neighbors g) fuel st v.
Proof.
  destruct st as [t [vp fn]]. unfold WGraph.dfs_root, dfs_root_of.
  destruct (getitem vp v) as [p| |]; simpl; try done.
  case_decide; [apply W_dfs_visit_of|done].
Qed.

Context `{!PyIndex V}.

Lemma L_dfs_visit_of fuel g : ∀ (vertex : V) time st,
  LGraph.dfs_visit fuel g vertex time st =
  dfs_visit_of (LGraph.getNeighbors g) fuel vertex time st.
Proof.
  induction fuel as [|fuel IH]; intros vertex time [v_props final]; [done|].
  simpl. destruct (getitem v_props vertex) as [p| |]; simpl; try done.
  repeat (rewrite getitem_insert_eq; simpl).
  destruct (LGraph.getNeighbors g vertex) as [ns| |]; simpl; try done.
  rewrite (for_each_ext _
             (dfs_step_of (dfs_visit_of (LGraph.getNeighbors g) fuel) vertex));
    [done|].
  intros [t [vp fn]] n. unfold LGraph.dfs_step, dfs_step_of.
  destruct (getitem vp n) as [pn| |]; simpl; try done.
  case_decide; [apply IH|done].
Qed.

Lemma L_dfs_root_of fuel g st (v : V) :
  LGraph.dfs_root fuel g st v = dfs_root_of (LGraph.getNeighbors g) fuel st v.
Proof.
  destruct st as [t [vp fn]]. unfold LGraph.dfs_root, dfs_root_of.
  destruct (getitem vp v) as [p| |]; simpl; try done.
  case_decide; [apply L_dfs_visit_of|done].
Qed.
End DfsBridge.

Section DfsSteps.
Context `{Countable V}.
Variables (vs : list V) (rels : list (V * V)).
Implicit Types (tbl : gmap V (Props.t V)) (fin : gmap V Z) (u v x : V).

(** A white vertex is discovered. *)
Lemma dfs_inv_discover tbl fin t v pv par :
  dfs_inv vs rels tbl fin t →
  tbl !! v = Some pv → Props.color pv = WHITE →
  (∀ u, par = Some u →
     (u, v) ∈ rels ∧ ∃ pu, tbl !! u = Some pu ∧ Props.color pu = GRAY) →
  dfs_inv vs rels (<[v := Props.mk GRAY (Fin (t + 1)) par]> tbl) fin (t + 1).
Proof.
  intros K Hv Hw Hpar.
  set (tbl' := <[v := Props.mk GRAY (Fin (t + 1)) par]> tbl).
  pose proof (di_time _ _ _ _ _ K) as Ht.
  destruct (di_white _ _ _ _ _ K _ _ Hv Hw) as (Hvinf & _ & Hvfin).
  assert (Hlk : ∀ x, x ≠ v → tbl' !! x = tbl !! x).
  { intros x Hx. unfold tbl'. by rewrite lookup_insert_ne. }
  assert (Hlkv : tbl' !! v = Some (Props.mk GRAY (Fin (t + 1)) par)).
  { unfold tbl'. by rewrite lookup_insert_eq. }
  assert (Hnone : ∀ d, ¬ dist_at tbl v d).
  { intros d (p & Hp & Hd). congruence. }
  assert (Hd : ∀ x d, dist_at tbl' x d ↔
            (x = v ∧ d = (t + 1)%Z) ∨ dist_at tbl x d).
  { intros x d. unfold tbl'. rewrite dist_at_insert. simpl. split.
    - intros [[-> [= <-]]|[_ ?]]; auto.
    - intros [[-> ->]|Hx]; [by left|]. right. split; [|done].
      intros ->. by eapply Hnone. }
  assert (Hold : ∀ x d, dist_at tbl x d → (1 ≤ d ≤ t)%Z).
  { intros x d (p & Hp & Hdp).
    destruct (di_found _ _ _ _ _ K x p Hp) as (d' & Hd' & ?); [|congruence].
    intros Hc. destruct (di_white _ _ _ _ _ K _ _ Hp Hc) as (? & _).
    congruence. }
  split.
  - lia.
  - intros x. rewrite <- (di_keys _ _ _ _ _ K).
    destruct (decide (x = v)) as [->|Hne]; [|by rewrite Hlk].
    rewrite Hlkv, Hv. by split.
  - intros x p Hp Hc. destruct (decide (x = v)) as [->|Hne].
    + rewrite Hlkv in Hp. by injection Hp as <-.
    + rewrite Hlk in Hp by done. by eapply di_white.
  - intros x p Hp Hc. destruct (decide (x = v)) as [->|Hne].
    + rewrite Hlkv in Hp. injection Hp as <-. exists (t + 1)%Z.
      split; [done|lia].
    + rewrite Hlk in Hp by done.
      destruct (di_found _ _ _ _ _ K _ _ Hp Hc) as (d & ? & ?).
      exists d. split; [done|lia].
  - intros x p Hp Hc. destruct (decide (x = v)) as [->|Hne]; [done|].
    rewrite Hlk in Hp by done. by eapply di_gray.
  - intros x p Hp Hc. destruct (decide (x = v)) as [->|Hne].
    + rewrite Hlkv in Hp. by injection Hp as <-.
    + rewrite Hlk in Hp by done.
      destruct (di_black _ _ _ _ _ K _ _ Hp Hc) as (d & f & ? & ? & ?).
      exists d, f. split_and!; [done..|lia|lia].
  - intros x f Hf. destruct (di_fin _ _ _ _ _ K _ _ Hf) as (p & Hp & Hc).
    exists p. split; [|done]. rewrite Hlk; [done|]. intros ->. congruence.
  - intros x p u Hp Hpa. destruct (decide (x = v)) as [->|Hne].
    + rewrite Hlkv in Hp. injection Hp as <-. simpl in Hpa.
      destruct (Hpar u Hpa) as (Hr & pu & Hpu & Hcu). split; [done|].
      destruct (di_found _ _ _ _ _ K _ _ Hpu) as (du & Hdu & ?);
        [by rewrite Hcu|].
      assert (u ≠ v) by (intros ->; congruence).
      exists pu, du, (t + 1)%Z. rewrite Hlk by done.
      split_and!; [done..|lia|].
      intros fu Hfu. by rewrite (di_gray _ _ _ _ _ K _ _ Hpu Hcu) in Hfu.
    + rewrite Hlk in Hp by done.
      destruct (di_parent _ _ _ _ _ K _ _ _ Hp Hpa)
        as (Hr & pu & du & dv & Hpu & Hdu & Hdv & Hlt & Hfin).
      split; [done|]. exists pu, du, dv. split_and!; [|done..].
      rewrite Hlk; [done|]. intros ->. congruence.
  - intros x x' d [[-> Hd1]|Hx]%Hd [[-> Hd2]|Hx']%Hd; [done| | |].
    + apply Hold in Hx'. lia.
    + apply Hold in Hx. lia.
    + by eapply di_inj.
  - intros x y dx dy fx [[-> Hd1]|Hx]%Hd [[-> Hd2]|Hy]%Hd Hlt Hfx.
    + lia.
    + apply Hold in Hy. lia.
    + left. subst dy. destruct (di_fin _ _ _ _ _ K _ _ Hfx) as (p & Hp & Hc).
      destruct (di_black _ _ _ _ _ K _ _ Hp Hc) as (d & f & _ & Hf & ?).
      assert (f = fx) as -> by congruence. lia.
    + exact (di_nest _ _ _ _ _ K _ _ _ _ _ Hx Hy Hlt Hfx).
  - intros u x fu Hfu Hr.
    destruct (di_edge _ _ _ _ _ K _ _ _ Hfu Hr) as (dx & Hx & ?).
    exists dx. split; [|done]. apply Hd. by right.
Qed.

(** The latest gray vertex finishes. *)
Lemma dfs_inv_finish tbl fin T v d par :
  dfs_inv vs rels tbl fin T →
  tbl !! v = Some (Props.mk GRAY (Fin d) par) →
  (∀ x p dx, tbl !! x = Some p → Props.color p = GRAY →
     Props.distance p = Fin dx → (dx ≤ d)%Z) →
  (∀ x, (v, x) ∈ rels →
     ∃ p, tbl !! x = Some p ∧ Props.color p ≠ WHITE) →
  dfs_inv vs rels (<[v := Props.mk BLACK (Fin d) par]> tbl)
    (<[v := (T + 1)%Z]> fin) (T + 1).
Proof.
  intros K Hv Hmax Hnbrs.
  set (tbl' := <[v := Props.mk BLACK (Fin d) par]> tbl).
  set (fin' := <[v := (T + 1)%Z]> fin).
  pose proof (di_time _ _ _ _ _ K) as Ht.
  pose proof (di_gray _ _ _ _ _ K _ _ Hv eq_refl) as Hvfin.
  destruct (di_found _ _ _ _ _ K _ _ Hv) as (d' & [= <-] & Hdb); [done|].
  assert (Hlk : ∀ x, x ≠ v → tbl' !! x = tbl !! x).
  { intros x Hx. unfold tbl'. by rewrite lookup_insert_ne. }
  assert (Hlkv : tbl' !! v = Some (Props.mk BLACK (Fin d) par)).
  { unfold tbl'. by rewrite lookup_insert_eq. }
  assert (Hfk : ∀ x, x ≠ v → fin' !! x = fin !! x).
  { intros x Hx. unfold fin'. by rewrite lookup_insert_ne. }
  assert (Hfkv : fin' !! v = Some (T + 1)%Z).
  { unfold fin'. by rewrite lookup_insert_eq. }
  assert (Hd : ∀ x dx, dist_at tbl' x dx ↔ dist_at tbl x dx).
  { intros x dx. unfold tbl'. rewrite dist_at_insert. unfold dist_at. simpl.
    destruct (decide (x = v)) as [->|Hne]; [|naive_solver].
    rewrite Hv. naive_solver. }
  assert (Hfold : ∀ x f, fin !! x = Some f → (f ≤ T)%Z ∧ x ≠ v).
  { intros x f Hf. destruct (di_fin _ _ _ _ _ K _ _ Hf) as (p & Hp & Hc).
    destruct (di_black _ _ _ _ _ K _ _ Hp Hc) as (dx & f' & _ & Hf' & ?).
    split; [|intros ->; congruence].
    assert (f' = f) as -> by congruence. lia. }
  (* a vertex discovered after [v] is black *)
  assert (Hlater : ∀ x dx, dist_at tbl x dx → (d < dx)%Z →
            ∃ fx, fin !! x = Some fx ∧ (fx ≤ T)%Z).
  { intros x dx (p & Hp & Hdx) Hlt.
    destruct (Props.color p) eqn:Hc.
    - destruct (di_white _ _ _ _ _ K _ _ Hp Hc) as (? & _). congruence.
    - specialize (Hmax x p dx Hp Hc Hdx). lia.
    - destruct (di_black _ _ _ _ _ K _ _ Hp Hc) as (dx' & f & _ & Hf & ?).
      exists f. split; [done|lia]. }
  split.
  - lia.
  - intros x. rewrite <- (di_keys _ _ _ _ _ K).
    destruct (decide (x = v)) as [->|Hne]; [|by rewrite Hlk].
    rewrite Hlkv, Hv. by split.
  - intros x p Hp Hc. destruct (decide (x = v)) as [->|Hne].
    + rewrite Hlkv in Hp. by injection Hp as <-.
    + rewrite Hlk in Hp by done. rewrite Hfk by done. by eapply di_white.
  - intros x p Hp Hc. destruct (decide (x = v)) as [->|Hne].
    + rewrite Hlkv in Hp. injection Hp as <-. exists d. split; [done|lia].
    + rewrite Hlk in Hp by done.
      destruct (di_found _ _ _ _ _ K _ _ Hp Hc) as (dx & ? & ?).
      exists dx. split; [done|lia].
  - intros x p Hp Hc. destruct (decide (x = v)) as [->|Hne].
    + rewrite Hlkv in Hp. by injection Hp as <-.
    + rewrite Hlk in Hp by done. rewrite Hfk by done. by eapply di_gray.
  - intros x p Hp Hc. destruct (decide (x = v)) as [->|Hne].
    + rewrite Hlkv in Hp. injection Hp as <-. exists d, (T + 1)%Z.
      split_and!; [done..|lia|lia].
    + rewrite Hlk in Hp by done. rewrite Hfk by done.
      destruct (di_black _ _ _ _ _ K _ _ Hp Hc) as (dx & f & ? & ? & ?).
      exists dx, f. split_and!; [done..|lia|lia].
  - intros x f Hf. destruct (decide (x = v)) as [->|Hne]; [eauto|].
    rewrite Hfk in Hf by done. rewrite Hlk by done. by eapply di_fin.
  - intros x p u Hp Hpa.
    assert (∃ p0, tbl !! x = Some p0 ∧ Props.parent p0 = Some u ∧
                  Props.distance p0 = Props.distance p) as (p0 & Hp0 & Hpa0 & Hd0).
    { destruct (decide (x = v)) as [->|Hne].
      - rewrite Hlkv in Hp. injection Hp as <-. eauto.
      - rewrite Hlk in Hp by done. eauto. }
    destruct (di_parent _ _ _ _ _ K _ _ _ Hp0 Hpa0)
      as (Hr & pu & du & dv & Hpu & Hdu & Hdv & Hlt & Hfin).
    split; [done|].
    assert (∃ pu', tbl' !! u = Some pu' ∧ Props.distance pu' = Fin du)
      as (pu' & Hpu' & Hdu').
    { apply Hd. by exists pu. }
    exists pu', du, dv. rewrite <- Hd0. split_and!; [done..|].
    intros fu Hfu. destruct (decide (u = v)) as [->|Hnu].
    + rewrite Hfkv in Hfu. injection Hfu as <-.
      assert (du = d) as ->.
      { rewrite Hv in Hpu. injection Hpu as <-. simpl in Hdu. congruence. }
      destruct (Hlater x dv) as (fx & Hfx & ?); [by exists p0|done|].
      exists fx. split; [|lia]. rewrite Hfk; [done|]. by eapply Hfold.
    + rewrite Hfk in Hfu by done.
      destruct (Hfin fu Hfu) as (fv & Hfv & ?). exists fv. split; [|done].
      rewrite Hfk; [done|]. by eapply Hfold.
  - intros x x' dx Hx%Hd Hx'%Hd. by eapply di_inj.
  - intros x y dx dy fx Hx%Hd Hy%Hd Hlt Hfx.
    destruct (decide (x = v)) as [->|Hne].
    + rewrite Hfkv in Hfx. injection Hfx as <-.
      assert (dx = d) as -> by (eapply dist_at_fun; [done|by eexists]).
      destruct (Hlater y dy Hy Hlt) as (fy & Hfy & ?). right.
      exists fy. split; [|lia]. rewrite Hfk; [done|]. by eapply Hfold.
    + rewrite Hfk in Hfx by done.
      destruct (di_nest _ _ _ _ _ K _ _ _ _ _ Hx Hy Hlt Hfx)
        as [?|(fy & Hfy & ?)]; [by left|].
      right. exists fy. split; [|done]. rewrite Hfk; [done|].
      by eapply Hfold.
  - intros u x fu Hfu Hr. destruct (decide (u = v)) as [->|Hne].
    + rewrite Hfkv in Hfu. injection Hfu as <-.
      destruct (Hnbrs x Hr) as (p & Hp & Hc).
      destruct (di_found _ _ _ _ _ K _ _ Hp Hc) as (dx & Hdx & ?).
      exists dx. split; [|lia]. apply Hd. by exists p.
    + rewrite Hfk in Hfu by done.
      destruct (di_edge _ _ _ _ _ K _ _ _ Hfu Hr) as (dx & Hx & ?).
      exists dx. split; [|done]. by apply Hd.
Qed.

Lemma dfs_chg_refl tbl fin : dfs_chg tbl fin tbl fin.
Proof. intros x. by left. Qed.

Lemma dfs_chg_trans tbl1 fin1 tbl2 fin2 tbl3 fin3 :
  dfs_chg tbl1 fin1 tbl2 fin2 → dfs_chg tbl2 fin2 tbl3 fin3 →
  dfs_chg tbl1 fin1 tbl3 fin3.
Proof.
  intros H12 H23 x.
  destruct (H12 x) as [[E12 F12]|(p & p' & Hp & Hw & Hp' & Hb)];
    destruct (H23 x) as [[E23 F23]|(q & q' & Hq & Hqw & Hq' & Hqb)].
  - left. split; congruence.
  - right. exists q, q'. split_and!; [congruence|done..].
  - right. exists p, p'. split_and!; [done..|congruence|done].
  - congruence.
Qed.
End DfsSteps.

Section WhiteMore.
Context `{Countable V}.
Implicit Types (tbl : gmap V (Props.t V)).

Lemma white_set_pos tbl v p :
  tbl !! v = Some p → Props.color p = WHITE → 0 < size (white_set tbl).
Proof.
  intros Hp Hw.
  assert (size (white_set tbl) ≠ 0); [|lia].
  apply size_non_empty_iff. intros E.
  assert (v ∈ white_set tbl) by (apply elem_of_white_set; eauto).
  set_solver.
Qed.

Lemma white_set_repaint tbl v p p' :
  tbl !! v = Some p → Props.color p ≠ WHITE → Props.color p' ≠ WHITE →
  white_set (<[v := p']> tbl) = white_set tbl.
Proof.
  intros Hp Hc Hc'. apply set_eq. intros x. rewrite !elem_of_white_set.
  destruct (decide (x = v)) as [->|Hne].
  - rewrite lookup_insert_eq. naive_solver.
  - by rewrite lookup_insert_ne.
Qed.
End WhiteMore.

Section DfsLoop.
Context `{Countable V}.
Variables (vs : list V) (rels : list (V * V)).
Hypothesis Hanch : ∀ u x, (u, x) ∈ rels → u ∈ vs ∧ x ∈ vs.
Variable visit : V → Z → dfs_table V → outcome (Z * dfs_table V).
Variable bound : nat.
Hypothesis Hvisit : ∀ v t tbl0 fin pv par,
  dfs_inv vs rels tbl0 fin t →
  tbl0 !! v = Some pv → Props.color pv = WHITE →
  (∀ u, par = Some u →
     (u, v) ∈ rels ∧ ∃ pu, tbl0 !! u = Some pu ∧ Props.color pu = GRAY) →
  size (white_set tbl0) ≤ bound →
  ∃ t' tbl' fin',
    visit v t (<[v := Props.set_parent par pv]> tbl0, fin)
      = Ret (t', (tbl', fin')) ∧
    dfs_inv vs rels tbl' fin' t' ∧ dfs_chg tbl0 fin tbl' fin' ∧
    (∃ p', tbl' !! v = Some p' ∧ Props.color p' = BLACK) ∧
    size (white_set tbl') < size (white_set tbl0) ∧
    t' = (t + 2 * (Z.of_nat (size (white_set tbl0))
                   - Z.of_nat (size (white_set tbl'))))%Z.
Implicit Types (tbl : gmap V (Props.t V)) (fin : gmap V Z).

(** One neighbour of the gray vertex [v]. *)
Lemma dfs_step_ok v pv n time tbl fin :
  dfs_inv vs rels tbl fin time →
  tbl !! v = Some pv → Props.color pv = GRAY → (v, n) ∈ rels →
  size (white_set tbl) ≤ bound →
  ∃ time' tbl' fin',
    dfs_step_of visit v (time, (tbl, fin)) n = Ret (time', (tbl', fin')) ∧
    dfs_inv vs rels tbl' fin' time' ∧ dfs_chg tbl fin tbl' fin' ∧
    (∃ p', tbl' !! n = Some p' ∧ Props.color p' ≠ WHITE) ∧
    size (white_set tbl') ≤ size (white_set tbl) ∧
    time' = (time + 2 * (Z.of_nat (size (white_set tbl))
                         - Z.of_nat (size (white_set tbl'))))%Z.
Proof.
  intros K Hv Hg Hr Hb. destruct (Hanch _ _ Hr) as [_ Hn].
  apply (di_keys _ _ _ _ _ K) in Hn as [pn Hn].
  unfold dfs_step_of. rewrite (getitem_Some _ _ _ Hn). simpl.
  case_decide as Hw.
  - destruct (Hvisit n time tbl fin pn (Some v) K Hn Hw)
      as (t' & tbl' & fin' & E & K' & Hchg & Hblack & Hlt & Ht'); [|done|].
    { intros u [= <-]. eauto. }
    exists t', tbl', fin'. split_and!; [done..| |lia|done].
    destruct Hblack as (p' & Hp' & Hc'). exists p'. split; [done|].
    by rewrite Hc'.
  - exists time, tbl, fin. split_and!; [done|done|apply dfs_chg_refl| |lia|lia].
    eauto.
Qed.

(** The [for] loop of [dfs_visit] over the neighbours of the gray [v]. *)
Lemma dfs_neighbors_ok v pv ns time tbl fin :
  dfs_inv vs rels tbl fin time →
  tbl !! v = Some pv → Props.color pv = GRAY →
  (∀ n, n ∈ ns → (v, n) ∈ rels) →
  size (white_set tbl) ≤ bound →
  ∃ time' tbl' fin',
    for_each (dfs_step_of visit v) ns (time, (tbl, fin))
      = Ret (time', (tbl', fin')) ∧
    dfs_inv vs rels tbl' fin' time' ∧ dfs_chg tbl fin tbl' fin' ∧
    (∀ n, n ∈ ns → ∃ p', tbl' !! n = Some p' ∧ Props.color p' ≠ WHITE) ∧
    size (white_set tbl') ≤ size (white_set tbl) ∧
    time' = (time + 2 * (Z.of_nat (size (white_set tbl))
                         - Z.of_nat (size (white_set tbl'))))%Z.
Proof.
  intros K Hv Hg Hns Hb.
  destruct (for_each_total
              (λ seen (st : Z * dfs_table V),
                 dfs_inv vs rels st.2.1 st.2.2 st.1 ∧
                 dfs_chg tbl fin st.2.1 st.2.2 ∧
                 (∀ n, n ∈ seen → ∃ p', st.2.1 !! n = Some p' ∧
                                        Props.color p' ≠ WHITE) ∧
                 size (white_set st.2.1) ≤ size (white_set tbl) ∧
                 st.1 = (time + 2 * (Z.of_nat (size (white_set tbl))
                                     - Z.of_nat (size (white_set st.2.1))))%Z)
              (dfs_step_of visit v) ns) with (s := (time, (tbl, fin)))
    as ([time' [tbl' fin']] & E & K' & Hchg & Hseen & Hle & Ht).
  - intros seen n [t0 [tbl0 fin0]] (K0 & Hchg0 & Hseen0 & Hle0 & Ht0) Hn.
    simpl in *.
    assert (Hv0 : tbl0 !! v = Some pv).
    { destruct (Hchg0 v) as [[E _]|(p & _ & Hp & Hw & _)]; [congruence|].
      rewrite Hv in Hp. injection Hp as <-. congruence. }
    destruct (dfs_step_ok v pv n t0 tbl0 fin0 K0 Hv0 Hg (Hns n Hn))
      as (t1 & tbl1 & fin1 & E1 & K1 & Hchg1 & Hn1 & Hle1 & Ht1); [lia|].
    exists (t1, (tbl1, fin1)). split; [done|]. simpl.
    split_and!; [done| | |lia|lia].
    + by eapply dfs_chg_trans.
    + intros m [Hm| ->%list_elem_of_singleton]%elem_of_app; [|done].
      destruct (Hseen0 m Hm) as (p0 & Hp0 & Hc0).
      destruct (Hchg1 m) as [[E2 _]|(_ & p' & _ & _ & Hp' & Hb')].
      * exists p0. split; [congruence|done].
      * exists p'. split; [done|]. by rewrite Hb'.
  - simpl. split_and!; [done|apply dfs_chg_refl| |lia|lia].
    by intros n ?%elem_of_nil.
  - simpl in *. by exists time', tbl', fin'.
Qed.
End DfsLoop.

Section DfsVisit.
Context `{Countable V}.
Variables (vs : list V) (rels : list (V * V)).
Variable neighbors : V → outcome (list V).
Hypothesis Hnb : ∀ u, u ∈ vs →
  ∃ ns, neighbors u = Ret ns ∧ ∀ x, x ∈ ns ↔ (u, x) ∈ rels.
Hypothesis Hanch : ∀ u x, (u, x) ∈ rels → u ∈ vs ∧ x ∈ vs.
Implicit Types (tbl : gmap V (Props.t V)) (fin : gmap V Z).

(** [dfs_visit] on a white vertex, with a budget of at least the number of
    white vertices: it returns, the vertex is black, and what was not white
    is as it was. *)
Lemma dfs_visit_ok fuel : ∀ v t tbl0 fin pv par,
  dfs_inv vs rels tbl0 fin t →
  tbl0 !! v = Some pv → Props.color pv = WHITE →
  (∀ u, par = Some u →
     (u, v) ∈ rels ∧ ∃ pu, tbl0 !! u = Some pu ∧ Props.color pu = GRAY) →
  size (white_set tbl0) ≤ fuel →
  ∃ t' tbl' fin',
    dfs_visit_of neighbors fuel v t (<[v := Props.set_parent par pv]> tbl0, fin)
      = Ret (t', (tbl', fin')) ∧
    dfs_inv vs rels tbl' fin' t' ∧ dfs_chg tbl0 fin tbl' fin' ∧
    (∃ p', tbl' !! v = Some p' ∧ Props.color p' = BLACK) ∧
    size (white_set tbl') < size (white_set tbl0) ∧
    t' = (t + 2 * (Z.of_nat (size (white_set tbl0))
                   - Z.of_nat (size (white_set tbl'))))%Z.
Proof.
  induction fuel as [|fuel IH]; intros v t tbl0 fin pv par K Hv Hw Hpar Hf.
  { pose proof (white_set_pos _ _ _ Hv Hw). lia. }
  assert (Hvs : v ∈ vs) by (apply (di_keys _ _ _ _ _ K); eauto).
  destruct (Hnb v Hvs) as (ns & Ens & Hns).
  set (gray := Props.mk (V:=V) GRAY (Fin (t + 1)) par).
  set (tbl1 := <[v := gray]> tbl0).
  assert (K1 : dfs_inv vs rels tbl1 fin (t + 1)) by (by eapply dfs_inv_discover).
  assert (Hv1 : tbl1 !! v = Some gray) by (unfold tbl1; by rewrite lookup_insert_eq).
  assert (HW1 : size (white_set tbl1) + 1 = size (white_set tbl0)).
  { by apply (white_set_discover tbl0 v pv gray Hv Hw). }
  destruct (dfs_neighbors_ok vs rels Hanch (dfs_visit_of neighbors fuel) fuel
              IH v gray ns (t + 1)%Z tbl1 fin K1 Hv1 eq_refl)
    as (T & tbl2 & fin2 & E & K2 & Hchg & Hseen & Hle & HT);
    [by intros n ?%Hns|lia|].
  assert (Hv2 : tbl2 !! v = Some gray).
  { destruct (Hchg v) as [[E2 _]|(p & _ & Hp & Hwp & _)]; [congruence|].
    rewrite Hv1 in Hp. by injection Hp as <-. }
  assert (Hmax : ∀ x p dx, tbl2 !! x = Some p → Props.color p = GRAY →
            Props.distance p = Fin dx → (dx ≤ t + 1)%Z).
  { intros x p dx Hp Hc Hdx.
    destruct (Hchg x) as [[E2 _]|(_ & p' & _ & _ & Hp' & Hb)];
      [|congruence].
    rewrite Hp in E2. symmetry in E2.
    destruct (decide (x = v)) as [->|Hne].
    - rewrite Hv1 in E2. injection E2 as <-. simpl in Hdx. injection Hdx as <-.
      lia.
    - unfold tbl1 in E2. rewrite lookup_insert_ne in E2 by done.
      destruct (di_found _ _ _ _ _ K x p E2) as (d & Hd & ?);
        [by rewrite Hc|].
      assert (d = dx) as -> by congruence. lia. }
  assert (Hnbrs : ∀ x, (v, x) ∈ rels →
            ∃ p, tbl2 !! x = Some p ∧ Props.color p ≠ WHITE).
  { intros x Hr. by apply Hseen, Hns. }
  pose proof (dfs_inv_finish vs rels tbl2 fin2 T v (t + 1)%Z par K2 Hv2 Hmax
                Hnbrs) as K3.
  exists (T + 1)%Z, (<[v := Props.mk BLACK (Fin (t + 1)) par]> tbl2),
    (<[v := (T + 1)%Z]> fin2).
  assert (HW3 : white_set (<[v := Props.mk BLACK (Fin (t + 1)) par]> tbl2)
                = white_set tbl2).
  { by apply (white_set_repaint tbl2 v gray). }
  split_and!.
  - simpl. rewrite getitem_insert_eq. simpl. rewrite getitem_insert_eq. simpl.
    rewrite !insert_insert_eq. rewrite Ens. simpl.
    change (Props.set_color GRAY
              (Props.set_distance (Fin (t + 1)) (Props.set_parent par pv)))
      with gray.
    fold tbl1. rewrite E. simpl. rewrite (getitem_Some _ _ _ Hv2). reflexivity.
  - exact K3.
  - intros x. destruct (decide (x = v)) as [->|Hne].
    + right. exists pv, (Props.mk BLACK (Fin (t + 1)) par).
      rewrite lookup_insert_eq. done.
    + rewrite !lookup_insert_ne by done.
      destruct (Hchg x) as [[E2 F2]|(p & p' & Hp & Hwp & Hp' & Hb)].
      * left. unfold tbl1 in E2. rewrite lookup_insert_ne in E2 by done. done.
      * right. unfold tbl1 in Hp. rewrite lookup_insert_ne in Hp by done.
        eauto 10.
  - eexists. rewrite lookup_insert_eq. done.
  - rewrite HW3. lia.
  - rewrite HW3. lia.
Qed.

(** The loop of [dfs] over the vertex list. *)
Lemma dfs_roots_ok fuel l : ∀ time tbl fin,
  dfs_inv vs rels tbl fin time →
  (∀ x p, tbl !! x = Some p → Props.color p ≠ GRAY) →
  (∀ x, x ∈ l → x ∈ vs) →
  size (white_set tbl) ≤ fuel →
  ∃ time' tbl' fin',
    for_each (dfs_root_of neighbors fuel) l (time, (tbl, fin))
      = Ret (time', (tbl', fin')) ∧
    dfs_inv vs rels tbl' fin' time' ∧
    (∀ x p, tbl' !! x = Some p → Props.color p ≠ GRAY) ∧
    (∀ x p, tbl' !! x = Some p → Props.color p = WHITE →
       (x ∉ l) ∧ tbl !! x = Some p) ∧
    time' = (time + 2 * (Z.of_nat (size (white_set tbl))
                         - Z.of_nat (size (white_set tbl'))))%Z.
Proof.
  induction l as [|v l IH]; intros time tbl fin K Hng Hl Hf.
  - exists time, tbl, fin. split_and!; [done..| |lia].
    intros x p Hp _. split; [apply not_elem_of_nil|done].
  - destruct (proj2 (di_keys _ _ _ _ _ K v)) as [pv Hv]; [apply Hl; by left|].
    assert (Hstep : ∃ t1 tbl1 fin1,
              dfs_root_of neighbors fuel (time, (tbl, fin)) v
                = Ret (t1, (tbl1, fin1)) ∧
              dfs_inv vs rels tbl1 fin1 t1 ∧ dfs_chg tbl fin tbl1 fin1 ∧
              (∃ p', tbl1 !! v = Some p' ∧ Props.color p' ≠ WHITE) ∧
              size (white_set tbl1) ≤ size (white_set tbl) ∧
              t1 = (time + 2 * (Z.of_nat (size (white_set tbl))
                                - Z.of_nat (size (white_set tbl1))))%Z).
    { unfold dfs_root_of. rewrite (getitem_Some _ _ _ Hv). simpl.
      case_decide as Hw.
      - destruct (dfs_visit_ok fuel v time tbl fin pv None K Hv Hw)
          as (t1 & tbl1 & fin1 & E & K1 & Hchg & (p' & Hp' & Hc') & Hlt & Ht);
          [done|done|].
        destruct (di_white _ _ _ _ _ K _ _ Hv Hw) as (_ & Hpar & _).
        assert (<[v := Props.set_parent None pv]> tbl = tbl) as Eid.
        { apply insert_id. rewrite Hv. f_equal. destruct pv. simpl in *.
          by subst. }
        rewrite Eid in E. exists t1, tbl1, fin1.
        split_and!; [done..| |lia|done].
        exists p'. split; [done|]. by rewrite Hc'.
      - exists time, tbl, fin.
        split_and!; [done|done|apply dfs_chg_refl|eauto|lia|lia]. }
    destruct Hstep as (t1 & tbl1 & fin1 & Est & K1 & Hchg & Hvb & Hle & Ht1).
    cbn [for_each]. rewrite Est. simpl.
    destruct (IH t1 tbl1 fin1 K1) as (t2 & tbl2 & fin2 & E & K2 & Hng2 & Hw2 & Ht2).
    { intros x p Hp Hc.
      destruct (Hchg x) as [[E1 _]|(_ & p' & _ & _ & Hp' & Hb)];
        [|congruence].
      rewrite Hp in E1. symmetry in E1. by eapply Hng. }
    { intros x Hx. apply Hl. by right. }
    { lia. }
    exists t2, tbl2, fin2. split_and!; [done..| |lia].
    intros x p Hp Hc. destruct (Hw2 x p Hp Hc) as [Hx Hp1].
    destruct (Hchg x) as [[E1 _]|(_ & p' & _ & _ & Hp' & Hb)];
      [|congruence].
    split; [|congruence].
    intros [->|Hx']%elem_of_cons; [|done].
    destruct Hvb as (p' & Hp' & Hc'). congruence.
Qed.

#[local] Abbreviation blank :=
  (foldl (λ m v, <[v := Props.mk WHITE Inf None]> m)
     (∅ : gmap V (Props.t V)) vs).

Lemma dfs_inv_blank : dfs_inv vs rels blank ∅ 0.
Proof.
  assert (Hb : ∀ v p, blank !! v = Some p → p = Props.mk WHITE Inf None).
  { intros v p. rewrite blank_lookup. case_decide; congruence. }
  split.
  - done.
  - intros v. rewrite blank_lookup. case_decide; [by split; eauto|].
    split; [by intros [? ?]|done].
  - intros v p ->%Hb _. by rewrite lookup_empty.
  - by intros v p ->%Hb.
  - by intros v p ->%Hb.
  - by intros v p ->%Hb.
  - intros v f. by rewrite lookup_empty.
  - by intros v p u ->%Hb.
  - by intros v v' d (p & ->%Hb & ?).
  - by intros x y dx dy fx (p & ->%Hb & ?).
  - intros u x fu. by rewrite lookup_empty.
Qed.

Lemma white_set_blank : white_set blank = list_to_set vs.
Proof.
  apply set_eq. intros v. rewrite elem_of_white_set, elem_of_list_to_set.
  setoid_rewrite blank_lookup. case_decide.
  - split; [done|]. intros _. by eexists.
  - split; [by intros (? & ? & ?)|done].
Qed.

(** The loop of [dfs] from the blank table, with a budget of the number of
    vertices at least. *)
Lemma dfs_of_finished fuel :
  size (list_to_set vs : gset V) ≤ fuel →
  ∃ t st,
    for_each (dfs_root_of neighbors fuel) vs (0%Z, (blank, ∅)) = Ret (t, st) ∧
    dfs_finished vs rels st.
Proof.
  intros Hf.
  destruct (dfs_roots_ok fuel vs 0%Z blank ∅ dfs_inv_blank)
    as (t & tbl & fin & E & K & Hng & Hw & Ht).
  { intros x p. rewrite blank_lookup. case_decide; [|done].
    by intros [= <-]. }
  { done. }
  { by rewrite white_set_blank. }
  exists t, (tbl, fin). split; [exact E|].
  assert (Hblack : ∀ v p, tbl !! v = Some p → Props.color p = BLACK).
  { intros v p Hp. destruct (Props.color p) eqn:Hc; [| |done].
    - destruct (Hw v p Hp Hc) as [Hn _]. destruct Hn.
      apply (di_keys _ _ _ _ _ K). eauto.
    - by destruct (Hng v p Hp). }
  assert (HW : white_set tbl = ∅).
  { apply set_eq. intros v. rewrite elem_of_white_set. split; [|set_solver].
    intros (p & Hp & Hc). by rewrite (Hblack v p Hp) in Hc. }
  rewrite HW, white_set_blank, size_empty in Ht.
  split_and!.
  - apply (di_keys _ _ _ _ _ K).
  - intros v p Hp. split; [by eapply Hblack|].
    destruct (di_black _ _ _ _ _ K v p Hp) as (d & f & Hd & Hfv & Hdf);
      [by eapply Hblack|].
    destruct (di_found _ _ _ _ _ K v p Hp) as (d' & Hd' & Hd1);
      [by rewrite (Hblack v p Hp)|].
    assert (d' = d) as -> by congruence.
    exists d, f. split_and!; [done|done|lia|lia|lia].
  - apply (di_inj _ _ _ _ _ K).
  - intros v p u Hp Hpar.
    destruct (di_parent _ _ _ _ _ K v p u Hp Hpar)
      as (Hr & pu & du & dv & Hpu & Hdu & Hdv & Hlt & Hfin).
    split; [done|].
    destruct (di_black _ _ _ _ _ K u pu Hpu) as (? & fu & _ & Hfu & _);
      [by eapply Hblack|].
    destruct (Hfin fu Hfu) as (fv & Hfv & Hlt').
    exists du, dv, fu, fv. split_and!; try done; by eexists.
  - intros x y dx dy fx fy Hx Hy Hfx Hfy Hlt.
    destruct (di_nest _ _ _ _ _ K _ _ _ _ _ Hx Hy Hlt Hfx)
      as [?|(fy' & Hfy' & ?)]; [by left|].
    right. congruence.
  - intros u v Hr. destruct (Hanch _ _ Hr) as [Hu _].
    apply (di_keys _ _ _ _ _ K) in Hu as [pu Hpu].
    destruct (di_black _ _ _ _ _ K u pu Hpu) as (? & fu & _ & Hfu & _);
      [by eapply Hblack|].
    destruct (di_edge _ _ _ _ _ K _ _ _ Hfu Hr) as (dv & Hdv & ?).
    by exists dv, fu.
Qed.
End DfsVisit.

Section DfsPaths.
Context `{Countable V}.

End DfsPaths.

Section DfsGraphs.
Context `{Countable V}.

Lemma W_dfs_of (vs : list V) e directed view g fuel :
  WGraph.Graph_init vs e directed view = Ret g →
  WGraph.dfs fuel g =
  '(_, st) ← for_each (dfs_root_of (W_neighbors g) fuel) vs
               (0%Z, (foldl (λ m v, <[v := Props.mk WHITE Inf None]> m) ∅ vs,
                      ∅));
  Ret st.
Proof.
  intros Hg. destruct (W_init_parts _ _ _ _ _ Hg) as (Hvs & _).
  unfold WGraph.dfs, WGraph._buildVProps. rewrite Hvs. simpl.
  rewrite (for_each_ext _ (dfs_root_of (W_neighbors g) fuel)); [done|].
  intros. apply W_dfs_root_of.
Qed.

Context `{!PyIndex V}.

Lemma L_dfs_of (vs : list V) rels directed view g fuel :
  LGraph.Graph_init vs rels directed view = Ret g →
  LGraph.dfs fuel g =
  '(_, st) ← for_each (dfs_root_of (LGraph.getNeighbors g) fuel) vs
               (0%Z, (foldl (λ m v, <[v := Props.mk WHITE Inf None]> m) ∅ vs,
                      ∅));
  Ret st.
Proof.
  intros Hg.
  destruct (L_init_parts _ _ _ _ _ Hg) as (_ & _ & _ & _ & _ & Hvs & _).
  unfold LGraph.dfs, LGraph._buildVProps. rewrite Hvs.
  rewrite (for_each_ext _ (dfs_root_of (LGraph.getNeighbors g) fuel)); [done|].
  intros. apply L_dfs_root_of.
Qed.
End DfsGraphs.

(** X17.  [dfs] of labyrinth_graph.py, on a graph constructed with the
    adjacency-list view, returns when [dfs_visit] may nest as deep as there
    are vertices.  In the table it returns every vertex is black, with a
    discovery time under ['distance'] and a later finishing time under
    ['final'], both between 1 and twice the number of vertices; discovery
    times differ from vertex to vertex; a parent is joined to its child by a
    relation, was discovered before it and finished after it; the spans from
    discovery to finish of two vertices are disjoint or nested; and every
    relation ends at a vertex discovered before its start finished. *)
Theorem labyrinth_dfs_finished `{Countable V} `{!PyIndex V} (vs : list V)
    (rels : list (V * V)) (directed : bool) (g : LGraph.Graph) (fuel : nat) :
  LGraph.Graph_init vs rels directed true = Ret g →
  ∃ st, LGraph.dfs (length vs + fuel) g = Ret st ∧ dfs_finished vs rels st.
Proof.
  intros Hg. destruct (L_neighbors _ _ _ _ Hg) as (Hnb & _ & Hanch).
  rewrite (L_dfs_of _ _ _ _ _ _ Hg).
  destruct (dfs_of_finished vs rels (LGraph.getNeighbors g) Hnb Hanch
              (length vs + fuel)) as (t & st & -> & K).
  { pose proof (size_list_to_set_le vs). lia. }
  by exists st.
Qed.

Lemma labyrinth_dfs_finished_witness :
  ∃ g st,
    LGraph.Graph_init [0; 1; 2; 3] [(0, 1); (1, 2); (0, 2); (2, 0)] true true
      = Ret g ∧
    LGraph.dfs (4 + 0) g = Ret st ∧
    dfs_finished [0; 1; 2; 3] [(0, 1); (1, 2); (0, 2); (2, 0)] st.
Proof.
  destruct (LGraph.Graph_init [0; 1; 2; 3] [(0, 1); (1, 2); (0, 2); (2, 0)]
              true true) as [g| |] eqn:Eg; [|by vm_compute in Eg..].
  destruct (labyrinth_dfs_finished _ _ _ g 0 Eg) as (st & E & K).
  by exists g, st.
Defined.

(** X18.  [dfs] of graph_heap_pq.py on a constructed graph returns when
    [dfs_visit] may nest as deep as there are vertices, and the table it
    returns has the same shape: every vertex black with a discovery and a
    later finishing time between 1 and twice the number of vertices, no two
    discovery times equal, parents joined to their children by a relation,
    discovered before them and finished after them, spans disjoint or
    nested, and every relation ending at a vertex discovered before its
    start finished. *)
Theorem graph_dfs_finished `{Countable V} (vs : list V)
    (e : list (V * V * Z)) (directed view : bool) (g : WGraph.Graph)
    (fuel : nat) :
  WGraph.Graph_init vs e directed view = Ret g →
  ∃ st, WGraph.dfs (length vs + fuel) g = Ret st ∧
        dfs_finished vs (ends (WGraph.relations g)) st.
Proof.
  intros Hg. destruct (W_neighbors_spec _ _ _ _ _ Hg) as (Hnb & Hanch).
  rewrite (W_dfs_of _ _ _ _ _ _ Hg).
  destruct (dfs_of_finished vs _ (W_neighbors g) Hnb Hanch (length vs + fuel))
    as (t & st & -> & K).
  { pose proof (size_list_to_set_le vs). lia. }
  by exists st.
Qed.

Lemma graph_dfs_finished_witness :
  ∃ g st,
    loop_graph = Ret g ∧ WGraph.dfs (2 + 0) g = Ret st ∧
    dfs_finished [0; 1] (ends (WGraph.relations g)) st.
Proof.
  unfold loop_graph.
  destruct (WGraph.Graph_init [0; 1] loop_edges true true) as [g| |] eqn:Eg;
    [|by vm_compute in Eg..].
  destruct (graph_dfs_finished _ _ _ _ g 0 Eg) as (st & E & K).
  by exists g, st.
Defined.



(** * From a grid to a graph *)

Section Grid.
Variables (labyrinth : list (list Z)) (cols : nat).
Hypothesis Hrect : ∀ row, row ∈ labyrinth → length row = cols.
Implicit Types (c a b : nat * nat).

Lemma grid_at_value i j :
  grid_at labyrinth i j =
  match cell_value labyrinth (i, j) with
  | Some x => Ret x
  | None => Raise IndexError
  end.
Proof.
  unfold grid_at, cell_value. simpl.
  destruct (labyrinth !! i) as [row|]; simpl; [|done].
  by destruct (row !! j).
Qed.

Lemma cell_value_inside i j :
  i < length labyrinth → j < cols → is_Some (cell_value labyrinth (i, j)).
Proof.
  intros Hi Hj. unfold cell_value. simpl.
  destruct (lookup_lt_is_Some_2 labyrinth i Hi) as [row Hrow].
  rewrite Hrow. simpl. apply lookup_lt_is_Some_2.
  rewrite (Hrect row); [done|]. by eapply list_elem_of_lookup_2.
Qed.

Lemma cell_value_bounds c x :
  cell_value labyrinth c = Some x → c.1 < length labyrinth ∧ c.2 < cols.
Proof.
  unfold cell_value. intros Hc.
  destruct (labyrinth !! c.1) as [row|] eqn:Hrow; simpl in Hc; [|done].
  split; [by eapply lookup_lt_Some|].
  rewrite <- (Hrect row) by (by eapply list_elem_of_lookup_2).
  by eapply lookup_lt_Some.
Qed.

Lemma open_at_spec (inside : bool) i j :
  (inside = true → i < length labyrinth ∧ j < cols) →
  ∃ b : bool, open_at labyrinth inside i j = Ret b ∧
              (b = true ↔ inside = true ∧ open_cell labyrinth (i, j)).
Proof.
  intros Hin. unfold open_at. destruct inside.
  - destruct (Hin eq_refl) as [Hi Hj].
    destruct (cell_value_inside i j Hi Hj) as [x Hx].
    rewrite grid_at_value, Hx. simpl. eexists. split; [done|].
    rewrite negb_true_iff, Z.eqb_neq. unfold open_cell. rewrite Hx.
    split; [eauto|]. by intros (_ & y & [= <-] & ?).
  - exists false. split; [done|]. by split; [|intros [? _]].
Qed.

Lemma elem_of_app_if {A} (flag : bool) (l : list A) x y :
  x ∈ (if flag then l ++ [y] else l) ↔ x ∈ l ∨ (flag = true ∧ x = y).
Proof.
  destruct flag.
  - rewrite elem_of_app, list_elem_of_singleton. naive_solver.
  - naive_solver.
Qed.

(** One cell inside the grid. *)
Lemma convert_cell_ok (covered : nat * nat → Prop) st i j :
  i < length labyrinth → j < cols →
  convert_inv labyrinth covered st →
  ∃ st', convert_cell labyrinth (length labyrinth) cols st i j = Ret st' ∧
         convert_inv labyrinth (λ c, covered c ∨ c = (i, j)) st'.
Proof.
  intros Hi Hj [Hvs Hrs]. destruct st as [vs rs]. simpl in Hvs, Hrs.
  unfold convert_cell. rewrite grid_at_value.
  destruct (cell_value_inside i j Hi Hj) as [x Hx]. rewrite Hx. simpl.
  destruct (x =? 0)%Z eqn:Hz; simpl.
  - apply Z.eqb_eq in Hz as ->. eexists. split; [done|].
    assert (Hno : ¬ open_cell labyrinth (i, j)).
    { intros (y & Hy & ?). congruence. }
    split; simpl.
    + intros c. rewrite Hvs. split; [intros [? ?]; split; [by left|done]|].
      intros [[?| ->] ?]; done.
    + intros a b. rewrite Hrs. split.
      * intros (? & ? & ? & ?). split_and!; [by left|done..].
      * intros ([?| ->] & ? & ? & ?); done.
  - apply Z.eqb_neq in Hz.
    assert (Hopen : open_cell labyrinth (i, j)) by (by exists x).
    destruct (open_at_spec (0 <? i) (i - 1) j) as (up & -> & Hup).
    { intros ?%Nat.ltb_lt. lia. }
    simpl.
    destruct (open_at_spec (i <? length labyrinth - 1) (i + 1) j)
      as (down & -> & Hdown).
    { intros ?%Nat.ltb_lt. lia. }
    simpl.
    destruct (open_at_spec (0 <? j) i (j - 1)) as (left & -> & Hleft).
    { intros ?%Nat.ltb_lt. lia. }
    simpl.
    destruct (open_at_spec (j <? cols - 1) i (j + 1)) as (right & -> & Hright).
    { intros ?%Nat.ltb_lt. lia. }
    simpl. eexists. split; [done|]. split; simpl.
    + intros c. rewrite elem_of_app, list_elem_of_singleton, Hvs. split.
      * intros [[? ?]| ->]; split; [by left|done|by right|done].
      * intros [[?| ->] ?]; [by left|by right].
    + intros a b. rewrite !elem_of_app_if, Hrs, Hup, Hdown, Hleft, Hright.
      rewrite !Nat.ltb_lt. split.
      * intros [[[[(Hc & Ha & Hb & Hadj)|[[Hlt Hb] [= -> ->]]]
                  |[[Hlt Hb] [= -> ->]]]|[[Hlt Hb] [= -> ->]]]
               |[[Hlt Hb] [= -> ->]]].
        -- split_and!; [by left|done..].
        -- split_and!; [by right|done..|]. unfold adjacent. simpl. lia.
        -- split_and!; [by right|done..|]. unfold adjacent. simpl. lia.
        -- split_and!; [by right|done..|]. unfold adjacent. simpl. lia.
        -- split_and!; [by right|done..|]. unfold adjacent. simpl. lia.
      * intros ([Hc| ->] & Ha & Hb & Hadj).
        { do 4 left. done. }
        destruct b as [i' j']. destruct Hb as (y & Hy & Hy0).
        pose proof (cell_value_bounds _ _ Hy) as [Hi' Hj']. simpl in *.
        assert (Hb : open_cell labyrinth (i', j')) by (by exists y).
        unfold adjacent in Hadj. simpl in Hadj.
        destruct Hadj as [[E1 [E2|E2]]|[E1 [E2|E2]]]; subst.
        -- do 1 left. right. split; [split; [lia|]|f_equal; f_equal; lia].
           by replace (S j' - 1) with j' by lia.
        -- right. split; [split; [lia|]|f_equal; f_equal; lia].
           by replace (j + 1) with (S j) by lia.
        -- do 3 left. right. split; [split; [lia|]|f_equal; f_equal; lia].
           by replace (S i' - 1) with i' by lia.
        -- do 2 left. right. split; [split; [lia|]|f_equal; f_equal; lia].
           by replace (i + 1) with (S i) by lia.
Qed.

Lemma convert_inv_ext (covered covered' : nat * nat → Prop) st :
  (∀ c, covered c ↔ covered' c) →
  convert_inv labyrinth covered st → convert_inv labyrinth covered' st.
Proof.
  intros Hc [Hvs Hrs]. split.
  - intros c. by rewrite Hvs, Hc.
  - intros a b. by rewrite Hrs, Hc.
Qed.

(** One row of the grid. *)
Lemma convert_row_ok (covered : nat * nat → Prop) st i :
  i < length labyrinth →
  convert_inv labyrinth covered st →
  ∃ st',
    for_each (λ st j, convert_cell labyrinth (length labyrinth) cols st i j)
      (seq 0 cols) st = Ret st' ∧
    convert_inv labyrinth (λ c, covered c ∨ (c.1 = i ∧ c.2 < cols)) st'.
Proof.
  intros Hi Hst.
  destruct (for_each_total
              (λ seen st,
                 convert_inv labyrinth
                   (λ c, covered c ∨ (c.1 = i ∧ c.2 ∈ seen)) st)
              (λ st j, convert_cell labyrinth (length labyrinth) cols st i j)
              (seq 0 cols)) with (s := st) as (st' & E & K).
  - intros seen j st0 K0 Hj. apply elem_of_seq in Hj.
    destruct (convert_cell_ok _ st0 i j Hi ltac:(lia) K0) as (st1 & E1 & K1).
    exists st1. split; [done|]. eapply convert_inv_ext; [|exact K1].
    intros [ci cj]. simpl. rewrite elem_of_app, list_elem_of_singleton.
    split.
    + intros [[?|[? ?]]|[= -> ->]]; auto.
    + intros [?|[-> [?| ->]]]; auto.
  - eapply convert_inv_ext; [|exact Hst]. intros c. split; [by left|].
    by intros [?|[_ ?%elem_of_nil]].
  - exists st'. split; [done|]. eapply convert_inv_ext; [|exact K].
    intros c. simpl. rewrite elem_of_seq. split.
    + intros [?|[? ?]]; [by left|right; split; [done|lia]].
    + intros [?|[? ?]]; [by left|right; split; [done|lia]].
Qed.

(** The two loops. *)
Lemma convert_scan_ok :
  ∃ st, convert_scan labyrinth (length labyrinth) cols = Ret st ∧
        (∀ c, c ∈ st.1 ↔ open_cell labyrinth c) ∧
        (∀ a b, (a, b) ∈ st.2 ↔
           open_cell labyrinth a ∧ open_cell labyrinth b ∧ adjacent a b).
Proof.
  unfold convert_scan.
  destruct (for_each_total
              (λ seen st,
                 convert_inv labyrinth (λ c, c.1 ∈ seen ∧ c.2 < cols) st)
              (λ st i,
                 for_each
                   (λ st j,
                      convert_cell labyrinth (length labyrinth) cols st i j)
                   (seq 0 cols) st)
              (seq 0 (length labyrinth)))
    with (s := (([], []) : list (nat * nat) * list ((nat * nat) * (nat * nat))))
    as (st' & E & [Hvs Hrs]).
  - intros seen i st0 K0 Hi. apply elem_of_seq in Hi.
    destruct (convert_row_ok _ st0 i ltac:(lia) K0) as (st1 & E1 & K1).
    exists st1. split; [done|]. eapply convert_inv_ext; [|exact K1].
    intros [ci cj]. simpl. rewrite elem_of_app, list_elem_of_singleton.
    split.
    + intros [[? ?]|[-> ?]]; auto.
    + intros [[?| ->] ?]; auto.
  - split; simpl.
    + intros c. split; [by intros ?%elem_of_nil|].
      by intros [[?%elem_of_nil _] _].
    + intros a b. split; [by intros ?%elem_of_nil|].
      by intros [[?%elem_of_nil _] _].
  - assert (Hcov : ∀ c, open_cell labyrinth c →
              c.1 ∈ seq 0 (length labyrinth) ∧ c.2 < cols).
    { intros c (x & Hx & _). apply cell_value_bounds in Hx as [? ?].
      split; [apply elem_of_seq; lia|done]. }
    exists st'. split; [done|]. split.
    + intros c. rewrite Hvs. split; [by intros [_ ?]|]. auto.
    + intros a b. rewrite Hrs. split; [by intros (_ & ? & ? & ?)|].
      intros (Ha & Hb & Hadj). split_and!; try done; by apply Hcov.
Qed.
End Grid.

(** [convert_to_graph] on a grid whose rows are as long as the first. *)
Lemma convert_to_graph_ok (labyrinth : list (list Z)) row0 :
  labyrinth !! 0 = Some row0 →
  (∀ row, row ∈ labyrinth → length row = length row0) →
  ∃ g, convert_to_graph labyrinth = Ret g ∧
       LGraph.Graph_init (LGraph.vertexes g) (LGraph.relations g) true true
         = Ret g ∧
       (∀ c, c ∈ LGraph.vertexes g ↔ open_cell labyrinth c) ∧
       (∀ a b, (a, b) ∈ LGraph.relations g ↔
          open_cell labyrinth a ∧ open_cell labyrinth b ∧ adjacent a b).
Proof.
  intros H0 Hrect. unfold convert_to_graph. rewrite H0. simpl.
  destruct (convert_scan_ok labyrinth (length row0) Hrect)
    as ([vs rs] & -> & Hvs & Hrs). simpl in *.
  destruct (proj2 (L_init_Ret vs rs true true)) as [g Hg].
  { apply Forall_forall. intros [a b] Hr. apply Hrs in Hr as (? & ? & _).
    split; simpl; by apply Hvs. }
  destruct (L_init_parts _ _ _ _ _ Hg) as (_ & _ & _ & _ & _ & Ev & Er & _).
  exists g. rewrite Ev, Er. done.
Qed.

Lemma hops_moves (labyrinth : list (list Z)) rels :
  (∀ a b, (a, b) ∈ rels ↔
     open_cell labyrinth a ∧ open_cell labyrinth b ∧ adjacent a b) →
  ∀ s c k, hops rels s c k ↔ moves labyrinth s c k.
Proof.
  intros Hrs s c k. split.
  - induction 1 as [c|a b c k Hab _ IH]; [constructor|].
    apply Hrs in Hab as (? & ? & ?). by econstructor.
  - induction 1 as [c|a b c k Ha Hb Hab _ IH]; [constructor|].
    eapply hops_cons; [|exact IH]. by apply Hrs.
Qed.

(** X20.  [convert_to_graph] of labyrinth_graph.py.  On an empty grid it
    raises an [IndexError].  On a grid whose rows all have the length of the
    first it returns a graph whose vertices are exactly the cells that do
    not hold 0, and whose relations join exactly the pairs of such cells
    that are side by side in a row or in a column, in both directions. *)
Theorem convert_to_graph_cells (labyrinth : list (list Z)) :
  (labyrinth = [] → convert_to_graph labyrinth = Raise IndexError) ∧
  (∀ row0, labyrinth !! 0 = Some row0 →
     (∀ row, row ∈ labyrinth → length row = length row0) →
     ∃ g, convert_to_graph labyrinth = Ret g ∧
       (∀ c, c ∈ LGraph.vertexes g ↔ open_cell labyrinth c) ∧
       (∀ a b, (a, b) ∈ LGraph.relations g ↔
          open_cell labyrinth a ∧ open_cell labyrinth b ∧ adjacent a b) ∧
       (∀ a b, (a, b) ∈ LGraph.relations g → (b, a) ∈ LGraph.relations g)).
Proof.
  split; [by intros ->|]. intros row0 H0 Hrect.
  destruct (convert_to_graph_ok labyrinth row0 H0 Hrect)
    as (g & E & _ & Hvs & Hrs).
  exists g. split_and!; [done..|].
  intros a b (Ha & Hb & Hadj)%Hrs. apply Hrs. split_and!; [done..|].
  unfold adjacent in *. lia.
Qed.

Lemma convert_to_graph_cells_witness :
  ∃ g, convert_to_graph [[1; 0]; [2; 3]]%Z = Ret g ∧
    (∀ c, c ∈ LGraph.vertexes g ↔ open_cell [[1; 0]; [2; 3]]%Z c) ∧
    (∀ a b, (a, b) ∈ LGraph.relations g ↔
       open_cell [[1; 0]; [2; 3]]%Z a ∧ open_cell [[1; 0]; [2; 3]]%Z b ∧
       adjacent a b) ∧
    (∀ a b, (a, b) ∈ LGraph.relations g → (b, a) ∈ LGraph.relations g).
Proof.
  destruct (convert_to_graph_cells [[1; 0]; [2; 3]]%Z) as [_ Hok].
  apply (Hok [1; 0]%Z); [done|].
  intros row Hrow. repeat (apply elem_of_cons in Hrow as [->|Hrow]; [done|]).
  by apply elem_of_nil in Hrow.
Defined.

(** X21.  [bfs] on the graph [convert_to_graph] makes of a grid whose rows
    all have the length of the first, from a cell that does not hold 0, as
    [main] of labyrinth_graph.py calls them: it returns a table with an
    entry for every such cell, where a finite distance is the least number
    of moves between neighbouring non-zero cells that lead from the source
    to the cell, and the distance is infinite exactly for the cells no such
    moves lead to. *)
Theorem labyrinth_least_moves (labyrinth : list (list Z)) (row0 : list Z)
    (s : nat * nat) (fuel : nat) :
  labyrinth !! 0 = Some row0 →
  (∀ row, row ∈ labyrinth → length row = length row0) →
  open_cell labyrinth s →
  ∃ g tbl,
    convert_to_graph labyrinth = Ret g ∧
    LGraph.bfs (length (LGraph.vertexes g) + fuel) g s = Ret tbl ∧
    (∀ c, is_Some (tbl !! c) ↔ open_cell labyrinth c) ∧
    ∀ c p, tbl !! c = Some p →
      match Props.distance p with
      | Fin d => (0 ≤ d)%Z ∧ moves labyrinth s c (Z.to_nat d) ∧
                 ∀ k, moves labyrinth s c k → Z.to_nat d ≤ k
      | Inf => ∀ k, ¬ moves labyrinth s c k
      end.
Proof.
  intros H0 Hrect Hs.
  destruct (convert_to_graph_ok labyrinth row0 H0 Hrect)
    as (g & E & Hg & Hvs & Hrs).
  destruct (L_bfs_ends _ _ _ _ s fuel Hg) as (tbl & Eb & K); [by apply Hvs|].
  exists g, tbl. split_and!; [done..| |].
  - intros c. rewrite <- Hvs. apply (bo_keys _ _ _ _ _ K).
  - intros c p Hp.
    pose proof (bfs_opt_shortest _ _ s tbl K c p Hp) as Hsh.
    pose proof (hops_moves labyrinth _ Hrs s c) as Hm.
    destruct (Props.distance p) as [d|].
    + destruct Hsh as (Hd0 & Hh & Hmin).
      split_and!; [done|by apply Hm|]. intros k Hk. by apply Hmin, Hm.
    + intros k Hk. by apply (Hsh k), Hm.
Qed.

Lemma labyrinth_least_moves_witness :
  ∃ g tbl,
    convert_to_graph [[1; 0]; [2; 3]]%Z = Ret g ∧
    LGraph.bfs (length (LGraph.vertexes g) + 0) g (0, 0) = Ret tbl ∧
    (∀ c, is_Some (tbl !! c) ↔ open_cell [[1; 0]; [2; 3]]%Z c) ∧
    ∀ c p, tbl !! c = Some p →
      match Props.distance p with
      | Fin d => (0 ≤ d)%Z ∧
                 moves [[1; 0]; [2; 3]]%Z (0, 0) c (Z.to_nat d) ∧
                 ∀ k, moves [[1; 0]; [2; 3]]%Z (0, 0) c k → Z.to_nat d ≤ k
      | Inf => ∀ k, ¬ moves [[1; 0]; [2; 3]]%Z (0, 0) c k
      end.
Proof.
  apply (labyrinth_least_moves [[1; 0]; [2; 3]]%Z [1; 0]%Z (0, 0) 0).
  - done.
  - intros row Hrow.
    repeat (apply elem_of_cons in Hrow as [->|Hrow]; [done|]).
    by apply elem_of_nil in Hrow.
  - by exists 1%Z.
Defined.
